(** * Offline-first synchronisation: SyncManager and the sync queue of DatabaseManager

    A shallow embedding of [sync-manager.js] (class [SyncManager]) and of the
    sync-queue helpers of [js/db.js] (class [DatabaseManager]), with the
    properties of the synchronisation subsystem proved about it.

    JavaScript's [async]/[await] code is read sequentially: one call runs
    from its entry to its return, every [await] yielding the value (or the
    exception) of the awaited operation.  Exceptions keep the state changes
    made before the [throw]. *)

From Stdlib Require Import ZArith String Ascii List Lia DecimalString.
From Stdlib Require Import OrderedTypeEx.
From stdpp Require Import base option list strings.
From Equations Require Import Equations.
Import ListNotations.

Local Open Scope string_scope.
Local Open Scope Z_scope.

(** ** JavaScript primitives used by the code *)

Module JS.

(** [ToInt32]: the value modulo 2^32, read as a signed 32-bit integer. *)
Definition ToInt32 (x : Z) : Z :=
  let m := x mod 2 ^ 32 in
  if 2 ^ 31 <=? m then m - 2 ^ 32 else m.

(** [x << n] on numbers: both sides of the shift work on 32 bits. *)
Definition shl (x n : Z) : Z := ToInt32 (Z.shiftl (ToInt32 x) n).

(** [x & y]. *)
Definition band (x y : Z) : Z := Z.land (ToInt32 x) (ToInt32 y).

(** *** Strings

    A JavaScript string is a sequence of UTF-16 code units.  A [string]
    here stands for one by its UTF-8 bytes, which is how the literals of
    this file are read: a character of the basic plane is one code unit, a
    character above it is a pair of surrogates, written in four bytes, and
    a surrogate that stands alone is written in three.  A byte that starts
    no such sequence counts as the code unit of its value. *)

Definition bytes (str : string) : list Z :=
  map (fun c => Z.of_N (N_of_ascii c)) (list_ascii_of_string str).

Definition continuation (b : Z) : bool := (128 <=? b) && (b <? 192).

Fixpoint utf16 (bs : list Z) : list Z :=
  match bs with
  | [] => []
  | b0 :: rest =>
      match rest with
      | b1 :: rest1 =>
          if (192 <=? b0) && (b0 <? 224) && continuation b1
          then ((b0 - 192) * 64 + (b1 - 128)) :: utf16 rest1
          else
            match rest1 with
            | b2 :: rest2 =>
                if (224 <=? b0) && (b0 <? 240) && continuation b1
                   && continuation b2
                then ((b0 - 224) * 4096 + (b1 - 128) * 64 + (b2 - 128))
                       :: utf16 rest2
                else
                  match rest2 with
                  | b3 :: rest3 =>
                      let cp := (b0 - 240) * 262144 + (b1 - 128) * 4096
                                + (b2 - 128) * 64 + (b3 - 128) in
                      if (240 <=? b0) && (b0 <? 248) && continuation b1
                         && continuation b2 && continuation b3
                         && (65536 <=? cp) && (cp <? 1114112)
                      then (55296 + (cp - 65536) / 1024)
                             :: (56320 + (cp - 65536) mod 1024)
                             :: utf16 rest3
                      else b0 :: utf16 rest
                  | [] => b0 :: utf16 rest
                  end
            | [] => b0 :: utf16 rest
            end
      | [] => [b0]
      end
  end.

(** [str.charCodeAt(i)] for every [i] below [str.length], in order. *)
Definition charCodes (str : string) : list Z := utf16 (bytes str).

(** The bytes of a sequence of code units. *)
Definition three (u : Z) : list Z :=
  [224 + u / 4096; 128 + (u / 64) mod 64; 128 + u mod 64].

Fixpoint utf8 (units : list Z) : list Z :=
  match units with
  | [] => []
  | u :: rest =>
      if u <? 128 then u :: utf8 rest
      else if u <? 2048 then (192 + u / 64) :: (128 + u mod 64) :: utf8 rest
      else
        match rest with
        | v :: rest' =>
            if (55296 <=? u) && (u <? 56320) && (56320 <=? v) && (v <? 57344)
            then
              let cp := 65536 + (u - 55296) * 1024 + (v - 56320) in
              (240 + cp / 262144) :: (128 + (cp / 4096) mod 64)
                :: (128 + (cp / 64) mod 64) :: (128 + cp mod 64)
                :: utf8 rest'
            else (three u ++ utf8 rest)%list
        | [] => three u
        end
  end.

Definition fromCharCodes (units : list Z) : string :=
  string_of_list_ascii (map (fun b => ascii_of_N (Z.to_N b)) (utf8 units)).

(** [str.substring(start, end)]: the two places are clamped to the length
    and taken in order. *)
Definition substring (str : string) (start end_ : nat) : string :=
  let lo := Nat.min start end_ in
  let hi := Nat.max start end_ in
  fromCharCodes (firstn (hi - lo) (skipn lo (charCodes str))).

(** [a < b] on strings: by code units, a proper prefix first. *)
Fixpoint lex_lt (a b : list Z) : bool :=
  match a, b with
  | _, [] => false
  | [], _ :: _ => true
  | x :: a', y :: b' => (x <? y) || ((x =? y) && lex_lt a' b')
  end.

(** [n.toString()] of an integer [n]. *)
Definition Number_toString (n : Z) : string :=
  NilZero.string_of_int (Z.to_int n).

(** *** Numbers of strings

    What [ToNumber] makes of a string: [NaN], an infinity, or the double
    nearest to the value of the literal, as the fraction [num / den] with
    [den] positive. *)
Inductive Number :=
| NaN
| Infinity (negative : bool)
| Finite (num den : Z).

(** The double nearest to [num / den], both positive, ties to the even
    mantissa: [m * 2 ^ e], or nothing above the largest double. *)
Definition nearest_double (num den : Z) : option (Z * Z) :=
  let scaled e :=
    if 0 <=? e then (num, den * 2 ^ e) else (num * 2 ^ (- e), den) in
  let e0 := Z.log2 num - Z.log2 den - 52 in
  let e1 :=
    if fst (scaled e0) / snd (scaled e0) <? 2 ^ 52 then e0 - 1 else e0 in
  let e := Z.max e1 (-1074) in
  let n := fst (scaled e) in
  let d := snd (scaled e) in
  let m := n / d in
  let r := n mod d in
  let m := if (d <? 2 * r) || ((d =? 2 * r) && Z.odd m) then m + 1 else m in
  if (971 <? e) || ((e =? 971) && (2 ^ 53 <=? m)) then None
  else Some (m, e).

(** The number of the digits [mantissa] times ten to the [exponent]. *)
Definition decimal (mantissa exponent : Z) : Number :=
  if mantissa =? 0 then Finite 0 1
  else
    match nearest_double (mantissa * 10 ^ Z.max exponent 0)
            (10 ^ Z.max (- exponent) 0) with
    | None => Infinity false
    | Some (m, e) =>
        if 0 <=? e then Finite (m * 2 ^ e) 1 else Finite m (2 ^ (- e))
    end.

Definition negate (n : Number) : Number :=
  match n with
  | NaN => NaN
  | Infinity negative => Infinity (negb negative)
  | Finite num den => Finite (- num) den
  end.

(** [WhiteSpace] and [LineTerminator]. *)
Definition is_space (c : Z) : bool :=
  bool_decide
    (List.In c
       [9; 10; 11; 12; 13; 32; 160; 5760; 8192; 8193; 8194; 8195; 8196; 8197;
        8198; 8199; 8200; 8201; 8202; 8232; 8233; 8239; 8287; 12288; 65279]).

Fixpoint drop_spaces (l : list Z) : list Z :=
  match l with
  | c :: l' => if is_space c then drop_spaces l' else l
  | [] => []
  end.

Definition trim (l : list Z) : list Z :=
  rev (drop_spaces (rev (drop_spaces l))).

(** The value of a digit in a radix, if it is one. *)
Definition digit (radix c : Z) : option Z :=
  let v :=
    if (48 <=? c) && (c <=? 57) then c - 48
    else if (97 <=? c) && (c <=? 122) then c - 87
    else if (65 <=? c) && (c <=? 90) then c - 55
    else radix in
  if v <? radix then Some v else None.

(** The longest run of digits at the start, as their value and their
    count, and what follows it. *)
Fixpoint digits (radix : Z) (l : list Z) (value count : Z)
  : Z * Z * list Z :=
  match l with
  | c :: l' =>
      match digit radix c with
      | Some v => digits radix l' (value * radix + v) (count + 1)
      | None => (value, count, l)
      end
  | [] => (value, count, [])
  end.

(** [NonDecimalIntegerLiteral] after its prefix. *)
Definition integer (radix : Z) (l : list Z) : Number :=
  match digits radix l 0 0 with
  | (value, count, []) => if count =? 0 then NaN else decimal value 0
  | _ => NaN
  end.

(** [ExponentPart], or nothing. *)
Definition exponent (l : list Z) : option Z :=
  match l with
  | [] => Some 0
  | c :: l' =>
      if (c =? 101) || (c =? 69) then
        let (negative, l'') :=
          match l' with
          | 43 :: r => (false, r)
          | 45 :: r => (true, r)
          | _ => (false, l')
          end in
        match digits 10 l'' 0 0 with
        | (value, count, []) =>
            if count =? 0 then None
            else Some (if negative then - value else value)
        | _ => None
        end
      else None
  end.

(** [StrUnsignedDecimalLiteral] *)
Definition unsigned_decimal (l : list Z) : Number :=
  if bool_decide (l = [73; 110; 102; 105; 110; 105; 116; 121])
  then Infinity false
  else
    let '(whole, n_whole, r1) := digits 10 l 0 0 in
    let '(mantissa, n_fraction, r2) :=
      match r1 with
      | 46 :: r => digits 10 r whole 0
      | _ => (whole, 0, r1)
      end in
    if n_whole + n_fraction =? 0 then NaN
    else
      match exponent r2 with
      | Some e => decimal mantissa (e - n_fraction)
      | None => NaN
      end.

(** [StringToNumber] *)
Definition StringToNumber (str : string) : Number :=
  match trim (charCodes str) with
  | [] => Finite 0 1
  | 48 :: 120 :: l | 48 :: 88 :: l => integer 16 l
  | 48 :: 111 :: l | 48 :: 79 :: l => integer 8 l
  | 48 :: 98 :: l | 48 :: 66 :: l => integer 2 l
  | 43 :: l => unsigned_decimal l
  | 45 :: l => negate (unsigned_decimal l)
  | l => unsigned_decimal l
  end.

(** *** Values

    The values of the properties the code compares and uses as keys:
    [undefined], a number, a string.  The numbers are the integers (keys
    of the key generator, [Date.now()] milliseconds), on which the
    arithmetic of doubles is exact. *)
Inductive value :=
| undefined
| number (n : Z)
| text (s : string).

(** [a > b].  Two strings compare by their code units.  Otherwise both
    sides are converted to numbers: a string next to a number by
    [StringToNumber], and [undefined] to [NaN], with which every comparison
    is false. *)
Definition gt (a b : value) : bool :=
  match a, b with
  | number x, number y => y <? x
  | text x, text y => lex_lt (charCodes y) (charCodes x)
  | number x, text s =>
      match StringToNumber s with
      | NaN => false
      | Infinity negative => negative
      | Finite num den => num <? x * den
      end
  | text s, number y =>
      match StringToNumber s with
      | NaN => false
      | Infinity negative => negb negative
      | Finite num den => y * den <? num
      end
  | _, _ => false
  end.


(** [a || b]: [undefined], 0 and the empty string are falsy. *)
Definition or (a b : value) : value :=
  match a with
  | undefined => b
  | number n => if n =? 0 then b else a
  | text s => if String.eqb s EmptyString then b else a
  end.

End JS.

(** ** Data model *)

(** A record of a mergeable collection.  The sync code reads three of its
    properties: [id], [desc] and [timestamp]; [payload] stands for all the
    others.  A property that the object does not have is [undefined]. *)
Module Item.
Record t := mk {
  id : JS.value;
  desc : JS.value;
  timestamp : JS.value;
  payload : string
}.
End Item.

(** The [_meta] block written by [saveToCloud]. *)
Module Meta.
Record t := mk {
  lastSync : JS.value;
  version : string;
  device : string
}.
End Meta.

(** The data set exchanged with the remote store, by the properties the
    sync code reads.  A collection is an array when the snapshot has it,
    and a property that the snapshot does not have is [None]. *)
Record Snapshot := mkSnapshot {
  manualTransactions : option (list Item.t);
  activeLoans : option (list Item.t);
  futureIncomes : option (list Item.t);
  currentBalance : option Z;
  _meta : option Meta.t
}.

#[global] Instance Snapshot_inhabited : Inhabited Snapshot :=
  populate (mkSnapshot None None None None None).

(** The keys of a JavaScript [Map] are compared by value. *)
#[global] Instance value_eq_dec : EqDecision JS.value.
Proof. solve_decision. Defined.

(** The two property names [mergeData] passes as [key]. *)
Inductive KeyName := Key_id | Key_desc.

(** [item[key]] *)
Definition item_get (item : Item.t) (key : KeyName) : JS.value :=
  match key with
  | Key_id => Item.id item
  | Key_desc => Item.desc item
  end.

(** ** [Map]: insertion-ordered, one entry per key *)

Module JsMap.

Definition t := list (JS.value * Item.t).

Fixpoint get (m : t) (k : JS.value) : option Item.t :=
  match m with
  | [] => None
  | (k', v) :: m' => if decide (k' = k) then Some v else get m' k
  end.

(** [map.set(k, v)]: an existing key keeps its position, a new key goes
    last. *)
Fixpoint set (m : t) (k : JS.value) (v : Item.t) : t :=
  match m with
  | [] => [(k, v)]
  | (k', v') :: m' =>
      if decide (k' = k) then (k', v) :: m' else (k', v') :: set m' k v
  end.

Definition values (m : t) : list Item.t := map snd m.

Definition keys (m : t) : list JS.value := map fst m.

End JsMap.

(** ** [SyncManager.mergeArrays], [SyncManager.mergeData] *)

(** The body of the [forEach] callback of [mergeArrays].  The test
    [!map.has(itemKey) || item.timestamp > map.get(itemKey).timestamp]
    reads the stored item only for a key the [Map] has. *)
Definition mergeArrays_step (key : KeyName) (map : JsMap.t) (item : Item.t)
  : JsMap.t :=
  let itemKey := item_get item key in
  match JsMap.get map itemKey with
  | None => JsMap.set map itemKey item
  | Some stored =>
      if JS.gt (Item.timestamp item) (Item.timestamp stored)
      then JsMap.set map itemKey item
      else map
  end.

(** [[...arr1, ...arr2].forEach(...)], then [Array.from(map.values())]. *)
Definition mergeArrays (arr1 arr2 : list Item.t) (key : KeyName)
  : list Item.t :=
  let map := fold_left (mergeArrays_step key) (arr1 ++ arr2) [] in
  JsMap.values map.

(** [merged] starts as a copy of [cloud].  An array is truthy, so the test
    [local.x && cloud.x] is that both snapshots have the collection. *)
Definition mergeData (local cloud : Snapshot) : Snapshot :=
  let merged := cloud in
  let merged :=
    match manualTransactions local, manualTransactions cloud with
    | Some l, Some c =>
        mkSnapshot (Some (mergeArrays l c Key_id)) (activeLoans merged)
          (futureIncomes merged) (currentBalance merged) (_meta merged)
    | _, _ => merged
    end in
  let merged :=
    match activeLoans local, activeLoans cloud with
    | Some l, Some c =>
        mkSnapshot (manualTransactions merged) (Some (mergeArrays l c Key_id))
          (futureIncomes merged) (currentBalance merged) (_meta merged)
    | _, _ => merged
    end in
  let merged :=
    match futureIncomes local, futureIncomes cloud with
    | Some l, Some c =>
        mkSnapshot (manualTransactions merged) (activeLoans merged)
          (Some (mergeArrays l c Key_desc)) (currentBalance merged)
          (_meta merged)
    | _, _ => merged
    end in
  match currentBalance local with
  | Some balance =>
      mkSnapshot (manualTransactions merged) (activeLoans merged)
        (futureIncomes merged) (Some balance) (_meta merged)
  | None => merged
  end.

(** ** [SyncManager.hashData] *)

(** One turn of the [for] loop. *)
Definition hashData_step (hash char : Z) : Z :=
  let hash := (JS.shl hash 5 - hash) + char in
  JS.band hash hash.

Definition hashString (str : string) : Z :=
  fold_left hashData_step (JS.charCodes str) 0.

(** ** The world the code runs in *)

(** References to [Snapshot] objects. *)
Definition loc := nat.

(** A JavaScript [Error], by its [message]. *)
Record Error := mkError { message : string }.

(** The [options] argument of [fetch]. *)
Record RequestInit := mkRequest {
  method : string;
  headers : list (string * string);
  body : option string
}.

(** What the code reads of a [Response].  [json] is the outcome of
    [response.json()]: the parsed document, or the message of the error it
    rejects with. *)
Record Response := mkResponse {
  status : Z;
  statusText : string;
  json : string + Snapshot
}.

(** [response.ok] *)
Definition ok (response : Response) : bool :=
  (200 <=? status response) && (status response <=? 299).

(** The operations that leave the program: a [fetch] and a timer. *)
Inductive Event :=
| Fetch (url : string) (options : RequestInit)
| Sleep (ms : Z).

(** An entry of the history: the event, and the value [isSyncing] had when
    it was issued. *)
Record Entry := mkEntry { syncing : bool; event : Event }.

(** A record of the object store [syncQueue]. *)
Module Op.
Record t := mk {
  id : Z;
  type : string;
  data : Snapshot;
  error : string;
  timestamp : Z;
  synced : bool;
  syncedAt : option Z
}.
End Op.

(** The fields of the [SyncManager] instance that change. *)
Record SyncManager := mkSyncManager {
  isSyncing : bool;
  lastSyncHash : option string;
  retryAttempts : Z
}.

(** The [dbManager] singleton: [isReady], and the object store
    [syncQueue] ([keyPath: 'id'], [autoIncrement]) as its records in key
    order together with its key generator. *)
Record DatabaseManager := mkDatabaseManager {
  isReady : bool;
  syncQueue : list Op.t;
  nextKey : Z
}.

Record World := mkWorld {
  this : SyncManager;
  dbManager : DatabaseManager;
  heap : list Snapshot;
  log : list Entry
}.

(** What the program is given: the constructor's arguments, the runtime
    and the network.  The network and the clock answer from the history of
    events so far. *)
Record Env := mkEnv {
  binId : string;
  apiKey : string;
  userAgent : string;
  JSON_stringify : Snapshot -> string;
  network : list Entry -> string -> RequestInit -> Error + Response;
  Date_now : list Entry -> Z;
  Date_toISOString : list Entry -> string
}.

(** Constants set by the constructor. *)
Definition baseUrl : string := "https://api.jsonbin.io/v3/b".
Definition maxRetries : nat := 3.
Definition retryDelay : Z := 2000.

(** ** A state and exception monad *)

Inductive Res (A : Type) :=
| Return (a : A)
| Throw (e : Error).
Arguments Return {A} a.
Arguments Throw {A} e.

Definition M (A : Type) : Type := World -> Res A * World.

Definition ret {A} (a : A) : M A := fun w => (Return a, w).

Definition throw {A} (e : Error) : M A := fun w => (Throw e, w).

Definition bind {A B} (c : M A) (k : A -> M B) : M B :=
  fun w =>
    match c w with
    | (Return a, w') => k a w'
    | (Throw e, w') => (Throw e, w')
    end.

(** [try { body } catch (error) { handler }] *)
Definition try_catch {A} (body : M A) (handler : Error -> M A) : M A :=
  fun w =>
    match body w with
    | (Return a, w') => (Return a, w')
    | (Throw e, w') => handler e w'
    end.

(** [try { body } finally { fin }], also around a [catch]: [fin] runs on
    every way out of [body], which then completes as it did. *)
Definition finally {A} (body : M A) (fin : M unit) : M A :=
  fun w =>
    match body w with
    | (r, w') =>
        match fin w' with
        | (Return _, w'') => (r, w'')
        | (Throw e, w'') => (Throw e, w'')
        end
    end.

Declare Scope js_scope.
Delimit Scope js_scope with js.
Notation "x ← c ; k" := (bind c (fun x => k))
  (at level 20, c at level 100, k at level 200, only parsing) : js_scope.
Notation "c ;; k" := (bind c (fun _ => k))
  (at level 100, k at level 200, only parsing, right associativity)
  : js_scope.

Definition gets {A} (f : World -> A) : M A := fun w => (Return (f w), w).

Definition modify (f : World -> World) : M unit := fun w => (Return tt, f w).

Definition set_isSyncing (b : bool) (w : World) : World :=
  mkWorld
    (mkSyncManager b (lastSyncHash (this w)) (retryAttempts (this w)))
    (dbManager w) (heap w) (log w).

Definition set_lastSyncHash (h : string) (w : World) : World :=
  mkWorld
    (mkSyncManager (isSyncing (this w)) (Some h) (retryAttempts (this w)))
    (dbManager w) (heap w) (log w).

Definition set_retryAttempts (n : Z) (w : World) : World :=
  mkWorld
    (mkSyncManager (isSyncing (this w)) (lastSyncHash (this w)) n)
    (dbManager w) (heap w) (log w).

Definition set_syncQueue (q : list Op.t) (w : World) : World :=
  mkWorld (this w)
    (mkDatabaseManager (isReady (dbManager w)) q (nextKey (dbManager w)))
    (heap w) (log w).

Definition set_nextKey (n : Z) (w : World) : World :=
  mkWorld (this w)
    (mkDatabaseManager (isReady (dbManager w)) (syncQueue (dbManager w)) n)
    (heap w) (log w).

Definition add_event (ev : Event) (w : World) : World :=
  mkWorld (this w) (dbManager w) (heap w)
    (log w ++ [mkEntry (isSyncing (this w)) ev]).

(** A new object with the given contents: the heap is the list of the
    objects in the order of their creation, and a reference is a place in
    it. *)
Definition alloc (d : Snapshot) : M loc :=
  fun w =>
    (Return (length (heap w)),
     mkWorld (this w) (dbManager w) (heap w ++ [d]) (log w)).

(** Reading the properties of an object. *)
Definition deref (l : loc) : M Snapshot := gets (fun w => heap w !!! l).

(** ** [data._meta?.lastSync || 0] *)

Definition lastSync_or_0 (data : Snapshot) : JS.value :=
  JS.or
    (match _meta data with
     | Some m => Meta.lastSync m
     | None => JS.undefined
     end)
    (JS.number 0).

(** The result object of [syncData]. *)
Record SyncResult := mkSyncResult {
  success : bool;
  reason : option string;
  action : option string;
  result_data : option loc;
  result_error : option string
}.

(** The argument of [addToSyncQueue]. *)
Record Operation := mkOperation {
  op_type : string;
  op_data : loc;
  op_error : string
}.

Section Program.

Variable env : Env.

Local Open Scope js_scope.

(** *** The runtime *)

Definition fetch (url : string) (options : RequestInit) : M Response :=
  fun w =>
    let w' := add_event (Fetch url options) w in
    match network env (log w) url options with
    | inl e => (Throw e, w')
    | inr response => (Return response, w')
    end.

Definition sleep (ms : Z) : M unit := modify (add_event (Sleep ms)).

(** [await response.json()]: a new object, or the parse error. *)
Definition response_json (response : Response) : M loc :=
  match json response with
  | inl msg => throw (mkError msg)
  | inr d => alloc d
  end.

(** *** [SyncManager.hashData] *)

Definition hashData (data : Snapshot) : string :=
  let str := JSON_stringify env data in
  JS.Number_toString (hashString str).

(** *** [SyncManager.fetchWithRetry]

    Attempts are numbered from 1, the default of the parameter.  The
    recursive call is returned without [await], so what it throws is not
    caught by the [catch] of the calling attempt.  The recursion ends
    because [maxRetries - attempt] decreases. *)

(** [this.retryDelay * Math.pow(2, attempt - 1)] *)
Definition backoff (attempt : nat) : Z :=
  retryDelay * 2 ^ (Z.of_nat attempt - 1).

Equations? fetchWithRetry (url : string) (options : RequestInit)
    (attempt : nat) (w : World) : Res Response * World
    by wf (maxRetries - attempt)%nat lt :=
  fetchWithRetry url options attempt w with fetch url options w => {
    | (Return response, w1)
        with (500 <=? status response), decide (attempt < maxRetries)%nat => {
        | true, left _ =>
            let delay := backoff attempt in
            fetchWithRetry url options (S attempt) (snd (sleep delay w1));
        | _, _ => (Return response, w1) };
    | (Throw error, w1) with decide (attempt < maxRetries)%nat => {
        | left _ =>
            let delay := backoff attempt in
            fetchWithRetry url options (S attempt) (snd (sleep delay w1));
        | right _ => (Throw error, w1) } }.
Proof. all: unfold maxRetries in *; lia. Qed.

(** *** [DatabaseManager]: the object store [syncQueue]

    [this.db] is [null] until [init] has succeeded, which is when
    [isReady] becomes true; using it before throws a [TypeError]. *)

Definition null_db : Error :=
  mkError "Cannot read properties of null (reading 'transaction')".

Definition with_db {A} (c : M A) : M A :=
  fun w => if isReady (dbManager w) then c w else (Throw null_db, w).

(** [store.get(key)] *)
Definition store_get (q : list Op.t) (key : Z) : option Op.t :=
  List.find (fun r => Op.id r =? key) q.

(** [store.put(item)]: replaces the record stored under the key of
    [item], or inserts [item] at the place of its key. *)
Fixpoint store_put (q : list Op.t) (item : Op.t) : list Op.t :=
  match q with
  | [] => [item]
  | r :: q' =>
      if Op.id r =? Op.id item then item :: q'
      else if Op.id item <? Op.id r then item :: r :: q'
      else r :: store_put q' item
  end.

(** [store.delete(key)] *)
Definition store_delete (q : list Op.t) (key : Z) : list Op.t :=
  List.filter (fun r => negb (Op.id r =? key)) q.

(** [add('syncQueue', record)] of a record without [id]: the key
    generator gives the key, the store keeps a structured clone. *)
Definition db_add (record : Z -> Op.t) : M Z :=
  with_db (fun w =>
    let key := nextKey (dbManager w) in
    (Return key,
     set_nextKey (key + 1)
       (set_syncQueue (syncQueue (dbManager w) ++ [record key]) w))).

Definition db_get (key : Z) : M (option Op.t) :=
  with_db (gets (fun w => store_get (syncQueue (dbManager w)) key)).

Definition db_getAll : M (list Op.t) :=
  with_db (gets (fun w => syncQueue (dbManager w))).

Definition db_update (item : Op.t) : M unit :=
  with_db (modify (fun w =>
    set_syncQueue (store_put (syncQueue (dbManager w)) item) w)).

Definition db_delete (key : Z) : M unit :=
  with_db (modify (fun w =>
    set_syncQueue (store_delete (syncQueue (dbManager w)) key) w)).

(** What the code passes to IndexedDB where a key is expected, and what
    the indexed property [synced] of a record holds. *)
Inductive KeyArg :=
| key_boolean (b : bool)
| key_value (v : JS.value).

(** The keys of IndexedDB are numbers, strings, dates, binary data and
    arrays of keys: a boolean is none, nor is [undefined]. *)
Definition is_key (k : KeyArg) : bool :=
  match k with
  | key_value (JS.number _) => true
  | key_value (JS.text _) => true
  | _ => false
  end.

#[global] Instance KeyArg_eq_dec : EqDecision KeyArg.
Proof. solve_decision. Defined.

(** A [DataError], whose message is the engine's. *)
Definition data_error : Error :=
  mkError
    "Failed to execute 'getAll' on 'IDBIndex': The parameter is not a valid key.".

(** The index [synced] of the store: the records whose property [synced]
    is a key, each under that key, in key order.  The property is a
    boolean in every record. *)
Definition index_synced (q : list Op.t) : list (KeyArg * Op.t) :=
  List.filter (fun entry => is_key (fst entry))
    (map (fun r => (key_boolean (Op.synced r), r)) q).

(** [getByIndex('syncQueue', 'synced', value)]: [index.getAll(value)]
    converts [value] to a key range and throws a [DataError] when it is no
    key; otherwise it answers with the records the index has under it. *)
Definition db_getByIndex_synced (value : KeyArg) : M (list Op.t) :=
  with_db
    (if is_key value
     then gets (fun w =>
            map snd
              (List.filter (fun entry => bool_decide (fst entry = value))
                 (index_synced (syncQueue (dbManager w)))))
     else throw data_error).

Definition addToSyncQueue (operation : Operation) : M Z :=
  data ← deref (op_data operation);
  now ← gets (fun w => Date_now env (log w));
  db_add (fun key =>
    Op.mk key (op_type operation) data (op_error operation) now false None).

Definition getPendingSyncOperations : M (list Op.t) :=
  db_getByIndex_synced (key_boolean false).

Definition markAsSynced (id : Z) : M unit :=
  item ← db_get id;
  match item with
  | Some item =>
      now ← gets (fun w => Date_now env (log w));
      db_update
        (Op.mk (Op.id item) (Op.type item) (Op.data item) (Op.error item)
           (Op.timestamp item) true (Some now))
  | None => ret tt
  end.

(** A [for ... of] loop whose body does not leave the loop. *)
Fixpoint for_of {A} (l : list A) (body : A -> M unit) : M unit :=
  match l with
  | [] => ret tt
  | x :: l' => body x ;; for_of l' body
  end.

Definition clearSyncedOperations : M unit :=
  allOps ← db_getAll;
  let syncedOps := List.filter (fun op => Op.synced op) allOps in
  for_of syncedOps (fun op => db_delete (Op.id op)).

(** *** [SyncManager.loadFromCloud] *)

Definition http_error (response : Response) : Error :=
  mkError ("HTTP " +:+ JS.Number_toString (status response) +:+ ": "
           +:+ statusText response).

Definition loadFromCloud : M loc :=
  try_catch
    (response ← fetchWithRetry
       (baseUrl +:+ "/" +:+ binId env +:+ "/latest")
       (mkRequest "GET"
          [("X-Master-Key", apiKey env); ("X-Bin-Meta", "false")] None)
       1;
     if negb (ok response) then throw (http_error response)
     else
       data ← response_json response;
       d ← deref data;
       modify (set_lastSyncHash (hashData d)) ;;
       ret data)
    (fun error => throw error).

(** *** [SyncManager.saveToCloud] *)

(** [{...data, _meta: meta}] *)
Definition with_meta (data : Snapshot) (meta : Meta.t) : Snapshot :=
  mkSnapshot (manualTransactions data) (activeLoans data)
    (futureIncomes data) (currentBalance data) (Some meta).

Definition saveToCloud (data : loc) : M bool :=
  syncing ← gets (fun w => isSyncing (this w));
  if syncing then ret false
  else
    modify (set_isSyncing true) ;;
    finally
      (try_catch
         (d ← deref data;
          now ← gets (fun w => Date_toISOString env (log w));
          payload ← alloc
            (with_meta d
               (Meta.mk (JS.text now) "1.0.0"
                  (JS.substring (userAgent env) 0 50)));
          p ← deref payload;
          response ← fetchWithRetry
            (baseUrl +:+ "/" +:+ binId env)
            (mkRequest "PUT"
               [("Content-Type", "application/json");
                ("X-Master-Key", apiKey env)]
               (Some (JSON_stringify env p)))
            1;
          if negb (ok response) then throw (http_error response)
          else
            d ← deref data;
            modify (set_lastSyncHash (hashData d)) ;;
            modify (set_retryAttempts 0) ;;
            ret true)
         (fun error =>
            ready ← gets (fun w => isReady (dbManager w));
            (if ready
             then addToSyncQueue (mkOperation "save" data (message error)) ;;
                  ret tt
             else ret tt) ;;
            throw error))
      (modify (set_isSyncing false)).

(** *** [SyncManager.syncData] *)

Definition syncData (localData : loc) : M SyncResult :=
  syncing ← gets (fun w => isSyncing (this w));
  if syncing
  then ret (mkSyncResult false (Some "already_syncing") None None None)
  else
    modify (set_isSyncing true) ;;
    finally
      (try_catch
         (cloudData ← loadFromCloud;
          l ← deref localData;
          c ← deref cloudData;
          let localHash := hashData l in
          let cloudHash := hashData c in
          if String.eqb localHash cloudHash
          then ret (mkSyncResult true None (Some "no_changes") None None)
          else
            let localTimestamp := lastSync_or_0 l in
            let cloudTimestamp := lastSync_or_0 c in
            if JS.gt localTimestamp cloudTimestamp then
              saveToCloud localData ;;
              ret (mkSyncResult true None (Some "uploaded") None None)
            else if JS.gt cloudTimestamp localTimestamp then
              ret (mkSyncResult true None (Some "downloaded")
                     (Some cloudData) None)
            else
              merged ← alloc (mergeData l c);
              saveToCloud merged ;;
              ret (mkSyncResult true None (Some "merged")
                     (Some merged) None))
         (fun error =>
            ret (mkSyncResult false None None None
                   (Some (message error)))))
      (modify (set_isSyncing false)).

(** *** [SyncManager.processSyncQueue] *)

(** The body of the [for] loop, with its [try]/[catch]. *)
Definition processOperation (operation : Op.t) : M unit :=
  try_catch
    ((if String.eqb (Op.type operation) "save"
      then data ← alloc (Op.data operation);
           saveToCloud data ;;
           ret tt
      else ret tt) ;;
     markAsSynced (Op.id operation))
    (fun error => ret tt).

Definition processSyncQueue : M unit :=
  ready ← gets (fun w => isReady (dbManager w));
  if negb ready then ret tt
  else
    pending ← getPendingSyncOperations;
    if (length pending =? 0)%nat then ret tt
    else
      for_of pending processOperation ;;
      clearSyncedOperations.

End Program.

(** ** Deep copy of a snapshot: every object and array is rebuilt *)

Definition copyItem (item : Item.t) : Item.t :=
  Item.mk (Item.id item) (Item.desc item) (Item.timestamp item)
    (Item.payload item).

Definition copyMeta (m : Meta.t) : Meta.t :=
  Meta.mk (Meta.lastSync m) (Meta.version m) (Meta.device m).

Definition deepCopy (s : Snapshot) : Snapshot :=
  mkSnapshot
    (option_map (map copyItem) (manualTransactions s))
    (option_map (map copyItem) (activeLoans s))
    (option_map (map copyItem) (futureIncomes s))
    (currentBalance s)
    (option_map copyMeta (_meta s)).

(** ** Vocabulary of the statements *)

(** The three collections [mergeData] merges, and the property each is
    keyed by. *)
Inductive Collection := ManualTransactions | ActiveLoans | FutureIncomes.

Definition collection (col : Collection) (s : Snapshot)
  : option (list Item.t) :=
  match col with
  | ManualTransactions => manualTransactions s
  | ActiveLoans => activeLoans s
  | FutureIncomes => futureIncomes s
  end.

Definition merge_key (col : Collection) : KeyName :=
  match col with
  | ManualTransactions => Key_id
  | ActiveLoans => Key_id
  | FutureIncomes => Key_desc
  end.

(** [v] stands in [items] at a place after which no item of its key has a
    strictly larger timestamp. *)
Definition unbeaten_after (key : KeyName) (items : list Item.t) (v : Item.t)
  : Prop :=
  exists before after,
    items = (before ++ v :: after)%list
    /\ forall x, List.In x after -> item_get x key = item_get v key ->
                 JS.gt (Item.timestamp x) (Item.timestamp v) = false.

(** What holds of the [Map] of [mergeArrays] after the items [seen] have
    gone through the callback. *)
Record merged_map (key : KeyName) (seen : list Item.t) (m : JsMap.t)
  : Prop := {
  mm_nodup : List.NoDup (JsMap.keys m);
  mm_keys : forall k,
    List.In k (JsMap.keys m) <-> List.In k (map (fun i => item_get i key) seen);
  mm_get : forall k v,
    JsMap.get m k = Some v ->
    item_get v key = k /\ unbeaten_after key seen v
}.

(** [merged] is a union of [local] and [cloud] by [key]: one item per key
    of either side, each taken from one of the sides, where no item of its
    key that comes after it, going through [local] and then [cloud], has a
    strictly larger timestamp. *)
Definition union_by (key : KeyName) (local cloud merged : list Item.t)
  : Prop :=
  List.NoDup (map (fun i => item_get i key) merged)
  /\ (forall k,
        List.In k (map (fun i => item_get i key) merged)
        <-> List.In k (map (fun i => item_get i key) local)
            \/ List.In k (map (fun i => item_get i key) cloud))
  /\ (forall v,
        List.In v merged ->
        (List.In v local \/ List.In v cloud)
        /\ unbeaten_after key (local ++ cloud) v).

(** The timestamps of the items are of one kind where they are defined,
    all numbers or all strings: the comparisons among them are those of
    one order. *)
Definition not_text (v : JS.value) : bool :=
  match v with
  | JS.text _ => false
  | _ => true
  end.

Definition not_number (v : JS.value) : bool :=
  match v with
  | JS.number _ => false
  | _ => true
  end.

Definition of_one_kind (items : list Item.t) : Prop :=
  List.Forall (fun x => not_text (Item.timestamp x) = true) items
  \/ List.Forall (fun x => not_number (Item.timestamp x) = true) items.

(** The requests among the entries of a history. *)
Definition is_request (e : Entry) : bool :=
  match event e with
  | Fetch _ _ => true
  | Sleep _ => false
  end.

Definition requests (l : list Entry) : nat := length (List.filter is_request l).

(** The answer of the network that [fetchWithRetry] retries: a thrown error,
    or a response with a status of 500 or above. *)
Definition retryable (o : Error + Response) : bool :=
  match o with
  | inl _ => true
  | inr response => 500 <=? status response
  end.

(** How [await fetch(...)] completes on an answer of the network. *)
Definition settle (o : Error + Response) : Res Response :=
  match o with
  | inl e => Throw e
  | inr response => Return response
  end.

(** [w'] is [w] with the entries [evs] added to its history, and nothing
    else changed. *)
Definition extends_log (w w' : World) (evs : list Entry) : Prop :=
  w' = mkWorld (this w) (dbManager w) (heap w) (log w ++ evs).

(** The request of [loadFromCloud]. *)
Definition load_url (env : Env) : string :=
  baseUrl +:+ "/" +:+ binId env +:+ "/latest".

Definition load_request (env : Env) : RequestInit :=
  mkRequest "GET" [("X-Master-Key", apiKey env); ("X-Bin-Meta", "false")]
    None.

(** The request of [saveToCloud] for a payload. *)
Definition save_url (env : Env) : string := baseUrl +:+ "/" +:+ binId env.

Definition save_request (env : Env) (payload : Snapshot) : RequestInit :=
  mkRequest "PUT"
    [("Content-Type", "application/json"); ("X-Master-Key", apiKey env)]
    (Some (JSON_stringify env payload)).

(** The [_meta] block [saveToCloud] writes when it starts in [w]. *)
Definition fresh_meta (env : Env) (w : World) : Meta.t :=
  Meta.mk (JS.text (Date_toISOString env (log w))) "1.0.0"
    (JS.substring (userAgent env) 0 50).

(** The [catch] block of [saveToCloud], up to its [throw]: with the
    database ready, the failed operation joins the queue. *)
Definition enqueue_failure (env : Env) (data : loc) (e : Error) (w : World)
  : World :=
  if isReady (dbManager w)
  then
    set_nextKey (nextKey (dbManager w) + 1)
      (set_syncQueue
         (syncQueue (dbManager w)
          ++ [Op.mk (nextKey (dbManager w)) "save" (heap w !!! data)
                (message e) (Date_now env (log w)) false None])
         w)
  else w.

(** The request of [saveToCloud] started in [w], retries included: the
    payload is a new object, and [isSyncing] is set. *)
Definition save_attempt (env : Env) (data : loc) (w : World)
  : Res Response * World :=
  let payload := with_meta (heap w !!! data) (fresh_meta env w) in
  fetchWithRetry env (save_url env) (save_request env payload) 1
    (mkWorld
       (mkSyncManager true (lastSyncHash (this w)) (retryAttempts (this w)))
       (dbManager w) (heap w ++ [payload]) (log w)).

(** The error a settled request means for [loadFromCloud] and
    [saveToCloud]: the one thrown, or the one made of a response that is not
    [ok]. *)
Definition failure_of (r : Res Response) : option Error :=
  match r with
  | Throw e => Some e
  | Return response =>
      if ok response then None else Some (http_error response)
  end.

(** The store after [markAsSynced(id)] at the time [now]. *)
Definition mark_synced (q : list Op.t) (id now : Z) : list Op.t :=
  match store_get q id with
  | Some item =>
      store_put q
        (Op.mk (Op.id item) (Op.type item) (Op.data item) (Op.error item)
           (Op.timestamp item) true (Some now))
  | None => q
  end.

(** The store holds a record under the key [id]. *)
Definition has_id (id : Z) (q : list Op.t) : Prop :=
  exists r, List.In r q /\ Op.id r = id.

(** The store holds a record under the key [id] that is marked synced. *)
Definition has_synced (id : Z) (q : list Op.t) : Prop :=
  exists r, List.In r q /\ Op.id r = id /\ Op.synced r = true.

(** The entry is a request with the method [PUT]. *)
Definition is_put (e : Entry) : bool :=
  match event e with
  | Fetch _ options => String.eqb (method options) "PUT"
  | Sleep _ => false
  end.

(** ** Sample data *)

Module Sample.

(** The collections of the merge example: ids 1 and 2 on the local side,
    ids 2 and 3 on the cloud side. *)
Definition local_1 : Item.t := Item.mk (JS.number 1) JS.undefined (JS.number 5) "local".
Definition local_2 : Item.t := Item.mk (JS.number 2) JS.undefined (JS.number 1) "local".
Definition cloud_2 : Item.t := Item.mk (JS.number 2) JS.undefined (JS.number 9) "cloud".
Definition cloud_3 : Item.t := Item.mk (JS.number 3) JS.undefined (JS.number 2) "cloud".

(** The same record on both sides, with the same timestamp. *)
Definition tie_local : Item.t := Item.mk (JS.number 7) JS.undefined (JS.number 5) "local".
Definition tie_cloud : Item.t := Item.mk (JS.number 7) JS.undefined (JS.number 5) "cloud".

Definition snapshot_of (transactions : list Item.t) (balance : option Z)
    (lastSync : option string) : Snapshot :=
  mkSnapshot (Some transactions) None None balance
    (match lastSync with
     | Some s => Some (Meta.mk (JS.text s) "1.0.0" "device")
     | None => None
     end).

Definition tie_local_snapshot : Snapshot :=
  snapshot_of [tie_local] (Some 100) (Some "2024-01-01T00:00:00.000Z").
Definition tie_cloud_snapshot : Snapshot :=
  snapshot_of [tie_cloud] (Some 50) (Some "2024-01-01T00:00:00.000Z").

(** A serialization for the samples: the properties in the order of the
    records, without the ones that are [undefined]. *)
Definition dq : string := String (ascii_of_nat 34) EmptyString.

Definition quote (s : string) : string := dq +:+ s +:+ dq.

Definition prop (name : string) (v : JS.value) : list string :=
  match v with
  | JS.undefined => []
  | JS.number n => [quote name +:+ ":" +:+ JS.Number_toString n]
  | JS.text s => [quote name +:+ ":" +:+ quote s]
  end.

Definition braces (props : list string) : string :=
  "{" +:+ String.concat "," props +:+ "}".

Definition stringify_item (i : Item.t) : string :=
  braces (prop "id" (Item.id i) ++ prop "desc" (Item.desc i)
          ++ prop "timestamp" (Item.timestamp i)
          ++ prop "payload" (JS.text (Item.payload i))).

Definition prop_items (name : string) (v : option (list Item.t))
  : list string :=
  match v with
  | Some items =>
      [quote name +:+ ":[" +:+ String.concat "," (map stringify_item items)
       +:+ "]"]
  | None => []
  end.

Definition stringify_meta (m : Meta.t) : string :=
  braces (prop "lastSync" (Meta.lastSync m)
          ++ prop "version" (JS.text (Meta.version m))
          ++ prop "device" (JS.text (Meta.device m))).

Definition stringify (s : Snapshot) : string :=
  braces (prop_items "manualTransactions" (manualTransactions s)
          ++ prop_items "activeLoans" (activeLoans s)
          ++ prop_items "futureIncomes" (futureIncomes s)
          ++ match currentBalance s with
             | Some n => prop "currentBalance" (JS.number n)
             | None => []
             end
          ++ match _meta s with
             | Some m => [quote "_meta" +:+ ":" +:+ stringify_meta m]
             | None => []
             end).

Definition agent : string :=
  "Mozilla/5.0 (X11; Linux x86_64) AppleWebKit/537.36 (KHTML, like Gecko) Chrome/120.0 Safari/537.36".

(** A remote that answers 503 to the first two requests and 200 with
    [document] from the third on. *)
Definition flaky (document : Snapshot) : Env :=
  mkEnv "bin" "key" agent stringify
    (fun history _ _ =>
       if (requests history <? 2)%nat
       then inr (mkResponse 503 "Service Unavailable" (inl "no document"))
       else inr (mkResponse 200 "OK" (inr document)))
    (fun history => 1700000000000 + Z.of_nat (length history))
    (fun _ => "2024-03-01T00:00:00.000Z").

(** A local snapshot produced after [tie_cloud_snapshot]. *)
Definition newer_local_snapshot : Snapshot :=
  snapshot_of [local_1; local_2] (Some 100) (Some "2024-02-01T00:00:00.000Z").

(** No network: every [fetch] throws. *)
Definition offline : Env :=
  mkEnv "bin" "key" agent stringify
    (fun _ _ _ => inl (mkError "Failed to fetch"))
    (fun history => 1700000000000 + Z.of_nat (length history))
    (fun _ => "2024-03-01T00:00:00.000Z").

(** A remote that answers every request with 200 and [document]. *)
Definition steady (document : Snapshot) : Env :=
  mkEnv "bin" "key" agent stringify
    (fun _ _ _ => inr (mkResponse 200 "OK" (inr document)))
    (fun history => 1700000000000 + Z.of_nat (length history))
    (fun _ => "2024-03-01T00:00:00.000Z").

(** A manager that is not syncing, an open database with an empty queue,
    no object and no history. *)
Definition idle : World :=
  mkWorld (mkSyncManager false None 0) (mkDatabaseManager true [] 1) [] [].

(** [idle] with one object, at reference 0. *)
Definition holding (s : Snapshot) : World :=
  mkWorld (mkSyncManager false None 0) (mkDatabaseManager true [] 1) [s] [].

(** A queue with two pending operations, the first of a type other than
    [save]. *)
Definition pending_other : Op.t :=
  Op.mk 1 "delete" tie_cloud_snapshot "offline" 1700000000000 false None.

Definition pending_save : Op.t :=
  Op.mk 2 "save" tie_local_snapshot "Failed to fetch" 1700000000001 false
    None.

Definition queued : World :=
  mkWorld (mkSyncManager false None 0)
    (mkDatabaseManager true [pending_other; pending_save] 3) [] [].

End Sample.

(** * More of the code *)

From Stdlib Require Import Sorted.

(** ** More vocabulary *)

(** The time the timers of a history wait, in milliseconds. *)
Definition sleep_total (l : list Entry) : Z :=
  fold_right
    (fun e acc => match event e with Sleep ms => ms + acc | Fetch _ _ => acc end)
    0 l.

(** The three histories a call of [fetchWithRetry] from attempt 1 can
    leave, for entries issued under [syncing]. *)
Definition timeline_1 (syncing : bool) (url : string) (options : RequestInit)
  : list Entry :=
  [mkEntry syncing (Fetch url options)].

Definition timeline_2 (syncing : bool) (url : string) (options : RequestInit)
  : list Entry :=
  [mkEntry syncing (Fetch url options); mkEntry syncing (Sleep 2000);
   mkEntry syncing (Fetch url options)].

Definition timeline_3 (syncing : bool) (url : string) (options : RequestInit)
  : list Entry :=
  [mkEntry syncing (Fetch url options); mkEntry syncing (Sleep 2000);
   mkEntry syncing (Fetch url options); mkEntry syncing (Sleep 4000);
   mkEntry syncing (Fetch url options)].

(** The result is one that [fetchWithRetry] retries while it may: a thrown
    error or a response with a status of 500 or above. *)
Definition gave_up (r : Res Response) : Prop :=
  match r with
  | Throw _ => True
  | Return response => 500 <= status response
  end.

(** The remote answers every load, whatever the history, with a response
    that is [ok] and carries the document [c]. *)
Definition serves (env : Env) (c : Snapshot) : Prop :=
  forall history,
    exists response,
      network env history (load_url env) (load_request env) = inr response
      /\ ok response = true
      /\ json response = inr c.

(** The entry of one load under a sync. *)
Definition load_entry (env : Env) : Entry :=
  mkEntry true (Fetch (load_url env) (load_request env)).

(** The records that are pending: those not marked synced. *)
Definition pending_of (q : list Op.t) : list Op.t :=
  List.filter (fun r => Bool.eqb (Op.synced r) false) q.

(** The record of the store with [synced] set and [syncedAt] the time
    [now], as [markAsSynced] writes it. *)
Definition set_synced (now : Z) (r : Op.t) : Op.t :=
  Op.mk (Op.id r) (Op.type r) (Op.data r) (Op.error r) (Op.timestamp r) true
    (Some now).

(** The records of an object store come in the order of their keys, which
    are all different. *)
Definition keys_ascend (q : list Op.t) : Prop :=
  StronglySorted (fun a b => Op.id a < Op.id b) q.

(** The store [syncQueue] as IndexedDB keeps it: the keys ascend and the
    key generator is above all of them. *)
Definition store_wf (db : DatabaseManager) : Prop :=
  keys_ascend (syncQueue db)
  /\ List.Forall (fun r => Op.id r < nextKey db) (syncQueue db).

(** The keys of a list, each at its first occurrence. *)
Definition first_occurrences (keys : list JS.value) : list JS.value :=
  fold_left
    (fun acc k =>
       if List.in_dec value_eq_dec k acc then acc else (acc ++ [k])%list)
    keys [].

(** The entries a [Map] gets from items of different keys. *)
Definition entries_of (key : KeyName) (items : list Item.t) : JsMap.t :=
  map (fun item => (item_get item key, item)) items.

(** Every collection of the snapshot has one item per key. *)
Definition keys_unique (s : Snapshot) : Prop :=
  forall col items,
    collection col s = Some items ->
    List.NoDup (map (fun item => item_get item (merge_key col)) items).

(** The calls of the manager that touch the queue or could, and what a
    sequence of them leaves. *)
Inductive ManagerCall :=
| CallLoad
| CallSave (data : loc)
| CallSync (localData : loc)
| CallProcessQueue.

Definition run_call (env : Env) (w : World) (c : ManagerCall) : World :=
  match c with
  | CallLoad => snd (loadFromCloud env w)
  | CallSave data => snd (saveToCloud env data w)
  | CallSync localData => snd (syncData env localData w)
  | CallProcessQueue => snd (processSyncQueue env w)
  end.

Definition run_calls (env : Env) (calls : list ManagerCall) (w : World)
  : World :=
  fold_left (run_call env) calls w.

(** ** [SyncManager.checkConnection] *)

Definition checkConnection (env : Env) : M bool :=
  try_catch
    (bind
       (fetch env "https://api.jsonbin.io/v3/b"
          (mkRequest "HEAD" [("X-Master-Key", apiKey env)] None))
       (fun response => ret (ok response)))
    (fun _ => ret false).

(** ** [SyncManager.startAutoSync], [SyncManager.stopAutoSync]

    The two functions use [this.syncInterval] and the interval timers of
    the host, and nothing of the world above.  [setInterval] returns a
    handle that no timer has had, a positive number; the host keeps each
    interval with its period. *)
Module AutoSync.

Record t := mk {
  syncInterval : option Z;
  intervals : list (Z * Z);
  nextHandle : Z
}.

(** [setInterval(callback, ms)] *)
Definition setInterval (ms : Z) (s : t) : Z * t :=
  (nextHandle s,
   mk (syncInterval s) (intervals s ++ [(nextHandle s, ms)])
     (nextHandle s + 1)).

(** [clearInterval(handle)] *)
Definition clearInterval (handle : Z) (s : t) : t :=
  mk (syncInterval s)
    (List.filter (fun i => negb (fst i =? handle)) (intervals s))
    (nextHandle s).

(** [if (this.syncInterval)]: [null] and 0 are falsy. *)
Definition active (s : t) : option Z :=
  match syncInterval s with
  | Some handle => if handle =? 0 then None else Some handle
  | None => None
  end.

Definition startAutoSync (intervalMinutes : Z) (s : t) : t :=
  let s :=
    match active s with
    | Some handle => clearInterval handle s
    | None => s
    end in
  let (handle, s) := setInterval (intervalMinutes * 60 * 1000) s in
  mk (Some handle) (intervals s) (nextHandle s).

Definition stopAutoSync (s : t) : t :=
  match active s with
  | Some handle =>
      let s := clearInterval handle s in
      mk None (intervals s) (nextHandle s)
  | None => s
  end.

(** A call of one of the two. *)
Inductive call :=
| Start (intervalMinutes : Z)
| Stop.

Definition run_call (c : call) (s : t) : t :=
  match c with
  | Start intervalMinutes => startAutoSync intervalMinutes s
  | Stop => stopAutoSync s
  end.

Definition run (calls : list call) (s : t) : t :=
  fold_left (fun s c => run_call c s) calls s.

(** The period the calls leave the manager with: that of the last
    [Start], if no [Stop] came after it. *)
Definition period_after (calls : list call) : option Z :=
  fold_left
    (fun p c =>
       match c with
       | Start intervalMinutes => Some (intervalMinutes * 60 * 1000)
       | Stop => None
       end)
    calls None.

(** The host as the constructor finds it: the manager has no interval, the
    handles of the host's intervals are positive and below the next one. *)
Definition fresh (s : t) : Prop :=
  syncInterval s = None
  /\ 0 < nextHandle s
  /\ List.Forall (fun i => 0 < fst i < nextHandle s) (intervals s).

End AutoSync.

(** ** [this.syncData()], as the interval of [startAutoSync] calls it

    The call has no argument, so [localData] is [undefined]: after the
    load, [hashData(localData)] takes [JSON.stringify(undefined)], which is
    [undefined], and reading its [length] throws a [TypeError], whose
    message is the engine's.  The rest of [syncData] is not reached. *)
Definition undefined_length : Error :=
  mkError "Cannot read properties of undefined (reading 'length')".

Definition syncData_no_argument (env : Env) : M SyncResult :=
  bind (gets (fun w => isSyncing (this w))) (fun syncing =>
  if syncing
  then ret (mkSyncResult false (Some "already_syncing") None None None)
  else
    bind (modify (set_isSyncing true)) (fun _ =>
    finally
      (try_catch
         (bind (loadFromCloud env) (fun cloudData =>
          throw undefined_length))
         (fun error =>
            ret (mkSyncResult false None None None (Some (message error)))))
      (modify (set_isSyncing false)))).

(** ** [DatabaseManager.getSetting], [DatabaseManager.setSetting]

    The object store [settings] has the key path [key] and no key
    generator.  Its records are kept in the order of their keys, numbers
    before strings.  [undefined] is no valid key: [get] and [put] throw a
    [DataError] on it, whose message is the engine's. *)
Module Settings.

Section Values.

(** The values of the settings. *)
Variable V : Type.

Record Setting := mkSetting { key : JS.value; value : V }.

(** [this.db], which is [null] until [init] has succeeded, and the records
    of the store. *)
Record t := mk {
  db_open : bool;
  records : list Setting
}.

Definition data_error : Error :=
  mkError "Failed to execute on 'IDBObjectStore': The parameter is not a valid key.".

Definition valid_key (k : JS.value) : bool :=
  match k with
  | JS.undefined => false
  | _ => true
  end.

(** The order of the keys of a store. *)
Definition key_lt (a b : JS.value) : bool :=
  match a, b with
  | JS.number x, JS.number y => x <? y
  | JS.number _, JS.text _ => true
  | JS.text x, JS.text y => JS.lex_lt (JS.charCodes x) (JS.charCodes y)
  | _, _ => false
  end.

(** [store.get(key)] *)
Definition store_get (q : list Setting) (k : JS.value) : option Setting :=
  List.find (fun r => bool_decide (key r = k)) q.

(** [store.put(item)] *)
Fixpoint store_put (q : list Setting) (item : Setting) : list Setting :=
  match q with
  | [] => [item]
  | r :: q' =>
      if bool_decide (key r = key item) then item :: q'
      else if key_lt (key item) (key r) then item :: r :: q'
      else r :: store_put q' item
  end.

(** [get('settings', key)] *)
Definition db_get (k : JS.value) (s : t) : Res (option Setting) * t :=
  if negb (db_open s) then (Throw null_db, s)
  else if negb (valid_key k) then (Throw data_error, s)
  else (Return (store_get (records s) k), s).

(** [update('settings', data)] *)
Definition db_update (data : Setting) (s : t) : Res JS.value * t :=
  if negb (db_open s) then (Throw null_db, s)
  else if negb (valid_key (key data)) then (Throw data_error, s)
  else (Return (key data), mk (db_open s) (store_put (records s) data)).

Definition getSetting (k : JS.value) (defaultValue : V) (s : t)
  : Res V * t :=
  match db_get k s with
  | (Return setting, s') =>
      (Return
         (match setting with
          | Some setting => value setting
          | None => defaultValue
          end), s')
  | (Throw e, s') => (Throw e, s')
  end.

Definition setSetting (k : JS.value) (v : V) (s : t) : Res JS.value * t :=
  db_update (mkSetting k v) s.

(** A sequence of [setSetting] calls. *)
Definition setSettings (l : list (JS.value * V)) (s : t) : t :=
  fold_left (fun s kv => snd (setSetting (fst kv) (snd kv) s)) l s.

(** The value last given to a key, if any. *)
Definition last_set (l : list (JS.value * V)) (k : JS.value) : option V :=
  fold_left
    (fun found kv => if bool_decide (fst kv = k) then Some (snd kv) else found)
    l None.

End Values.

Arguments mkSetting {V}.
Arguments key {V}.
Arguments value {V}.
Arguments mk {V}.
Arguments db_open {V}.
Arguments records {V}.
Arguments store_get {V}.
Arguments store_put {V}.
Arguments db_get {V}.
Arguments db_update {V}.
Arguments getSetting {V}.
Arguments setSetting {V}.
Arguments setSettings {V}.
Arguments last_set {V}.

End Settings.

(** * Properties *)

(** ** The fingerprint *)

Section Int32.

Lemma ToInt32_range x : - 2 ^ 31 <= JS.ToInt32 x < 2 ^ 31.
Proof.
  unfold JS.ToInt32.
  pose proof (Z.mod_pos_bound x (2 ^ 32) ltac:(lia)) as Hm.
  cbv zeta. destruct (Z.leb_spec (2 ^ 31) (x mod 2 ^ 32)); lia.
Qed.

Lemma ToInt32_mod x : JS.ToInt32 x mod 2 ^ 32 = x mod 2 ^ 32.
Proof.
  unfold JS.ToInt32. cbv zeta.
  destruct (Z.leb_spec (2 ^ 31) (x mod 2 ^ 32)).
  - replace (x mod 2 ^ 32 - 2 ^ 32)
      with (x mod 2 ^ 32 + (-1) * 2 ^ 32) by lia.
    rewrite Z.mod_add by lia. apply Z.mod_mod. lia.
  - apply Z.mod_mod. lia.
Qed.

Lemma ToInt32_congr x y :
  x mod 2 ^ 32 = y mod 2 ^ 32 -> JS.ToInt32 x = JS.ToInt32 y.
Proof. intros H. unfold JS.ToInt32. rewrite H. reflexivity. Qed.

Lemma ToInt32_idem x : JS.ToInt32 (JS.ToInt32 x) = JS.ToInt32 x.
Proof. apply ToInt32_congr, ToInt32_mod. Qed.

Lemma band_diag x : JS.band x x = JS.ToInt32 x.
Proof. unfold JS.band. apply Z.land_diag. Qed.

Lemma shl_5_mod h : JS.shl h 5 mod 2 ^ 32 = (h * 32) mod 2 ^ 32.
Proof.
  unfold JS.shl. rewrite ToInt32_mod, Z.shiftl_mul_pow2 by lia.
  change (2 ^ 5) with 32.
  rewrite Z.mul_mod by lia. rewrite ToInt32_mod.
  rewrite <- Z.mul_mod by lia. reflexivity.
Qed.

(** One turn of the loop is [hash * 31 + char] truncated to 32 bits. *)
Lemma hashData_step_31 hash char :
  hashData_step hash char = JS.ToInt32 (hash * 31 + char).
Proof.
  unfold hashData_step. cbv zeta. rewrite band_diag.
  apply ToInt32_congr.
  rewrite Z.add_mod, Zminus_mod, shl_5_mod by lia.
  rewrite <- Zminus_mod, <- Z.add_mod by lia.
  f_equal. lia.
Qed.

Lemma fold_hashData_step codes h :
  fold_left hashData_step codes h
  = fold_left (fun hash char => JS.ToInt32 (hash * 31 + char)) codes h.
Proof.
  revert h. induction codes as [|c codes IH]; intros h; simpl.
  - reflexivity.
  - rewrite hashData_step_31. apply IH.
Qed.

Lemma fold_hashData_step_range codes h :
  - 2 ^ 31 <= h < 2 ^ 31 ->
  - 2 ^ 31 <= fold_left hashData_step codes h < 2 ^ 31.
Proof.
  revert h. induction codes as [|c codes IH]; intros h Hh; simpl.
  - exact Hh.
  - apply IH. rewrite hashData_step_31. apply ToInt32_range.
Qed.

Lemma hashString_range str : - 2 ^ 31 <= hashString str < 2 ^ 31.
Proof. apply fold_hashData_step_range. lia. Qed.

End Int32.

(** The hash of a short text, and one that wraps around. *)
Example hashString_abc : hashString "abc" = 96354.
Proof. reflexivity. Qed.

Example hashString_wraps : hashString "manualTransactions" = -217822149.
Proof. vm_compute. reflexivity. Qed.

(** Outside ASCII the loop reads UTF-16 code units: [JSON.stringify("più €")]
    has seven of them, 249 for the fourth and 8364 for the sixth. *)
Example charCodes_non_ascii :
  JS.charCodes (Sample.quote "più €") = [34; 112; 105; 249; 32; 8364; 34].
Proof. vm_compute. reflexivity. Qed.

Example hashString_non_ascii :
  hashString (Sample.quote "più €") = -873470568.
Proof. vm_compute. reflexivity. Qed.

(** A character above the basic plane is two code units. *)
Example charCodes_surrogates : JS.charCodes "😀" = [55357; 56832].
Proof. vm_compute. reflexivity. Qed.

Lemma copyItem_id item : copyItem item = item.
Proof. destruct item; reflexivity. Qed.

Lemma map_copyItem_id items : map copyItem items = items.
Proof.
  induction items as [|i items IH]; simpl.
  - reflexivity.
  - rewrite copyItem_id, IH. reflexivity.
Qed.

Lemma deepCopy_id s : deepCopy s = s.
Proof.
  destruct s as [mt al fi cb me]. unfold deepCopy. simpl.
  destruct mt, al, fi, me as [[]|]; simpl;
    rewrite ?map_copyItem_id; reflexivity.
Qed.

(** C7.  [hashData] is the decimal text of a signed 32-bit integer, the fold
    of [hash * 31 + charCode] truncated to 32 bits over the serialized
    snapshot; a deep copy has the fingerprint of the original, and two
    snapshots with the same serialization have the same fingerprint. *)
Theorem hashData_fingerprint (env : Env) :
  (forall s : Snapshot,
      exists h : Z,
        hashData env s = JS.Number_toString h
        /\ - 2 ^ 31 <= h < 2 ^ 31
        /\ h = fold_left (fun hash char => JS.ToInt32 (hash * 31 + char))
                 (JS.charCodes (JSON_stringify env s)) 0)
  /\ (forall s : Snapshot, hashData env (deepCopy s) = hashData env s)
  /\ (forall a b : Snapshot,
         JSON_stringify env a = JSON_stringify env b ->
         hashData env a = hashData env b).
Proof.
  split; [|split].
  - intros s. exists (hashString (JSON_stringify env s)).
    split; [reflexivity|]. split.
    + apply hashString_range.
    + apply fold_hashData_step.
  - intros s. rewrite deepCopy_id. reflexivity.
  - intros a b H. unfold hashData. rewrite H. reflexivity.
Qed.

(** ** Merging collections *)

Module JsMapFacts.

Lemma get_set m k v k' :
  JsMap.get (JsMap.set m k v) k'
  = if decide (k = k') then Some v else JsMap.get m k'.
Proof.
  induction m as [|[k0 v0] m IH]; simpl.
  - destruct (decide (k = k')); reflexivity.
  - destruct (decide (k0 = k)) as [->|Hne]; simpl.
    + destruct (decide (k = k')); reflexivity.
    + destruct (decide (k0 = k')) as [->|Hne'].
      * destruct (decide (k = k')); [congruence | reflexivity].
      * apply IH.
Qed.

Lemma get_None m k : JsMap.get m k = None <-> ~ List.In k (JsMap.keys m).
Proof.
  induction m as [|[k0 v0] m IH]; simpl.
  - tauto.
  - destruct (decide (k0 = k)) as [->|Hne].
    + split; [discriminate | tauto].
    + rewrite IH. tauto.
Qed.

Lemma get_Some_In m k v : JsMap.get m k = Some v -> List.In (k, v) m.
Proof.
  induction m as [|[k0 v0] m IH]; simpl; [discriminate|].
  destruct (decide (k0 = k)) as [->|Hne].
  - intros [= ->]. now left.
  - intros H. right. now apply IH.
Qed.

Lemma In_get m k v :
  List.NoDup (JsMap.keys m) -> List.In (k, v) m -> JsMap.get m k = Some v.
Proof.
  induction m as [|[k0 v0] m IH]; simpl; [tauto|].
  intros Hnd [Heq|Hin].
  - injection Heq as -> ->. destruct (decide (k = k)); congruence.
  - apply List.NoDup_cons_iff in Hnd as [Hk0 Hnd].
    destruct (decide (k0 = k)) as [->|Hne].
    + exfalso. apply Hk0. unfold JsMap.keys.
      apply List.in_map_iff. now exists (k, v).
    + now apply IH.
Qed.

Lemma keys_set_present m k v :
  List.In k (JsMap.keys m) -> JsMap.keys (JsMap.set m k v) = JsMap.keys m.
Proof.
  induction m as [|[k0 v0] m IH]; simpl; [tauto|].
  intros Hin. destruct (decide (k0 = k)) as [->|Hne]; simpl.
  - reflexivity.
  - f_equal. apply IH. destruct Hin; [congruence | assumption].
Qed.

Lemma keys_set_absent m k v :
  ~ List.In k (JsMap.keys m) ->
  JsMap.keys (JsMap.set m k v) = (JsMap.keys m ++ [k])%list.
Proof.
  induction m as [|[k0 v0] m IH]; simpl; [reflexivity|].
  intros Hin. destruct (decide (k0 = k)) as [->|Hne]; simpl.
  - tauto.
  - f_equal. apply IH. tauto.
Qed.

End JsMapFacts.

(** [JS.gt] is irreflexive and asymmetric on all values, and an order on
    the values of one kind. *)
Lemma lex_lt_irrefl a : JS.lex_lt a a = false.
Proof.
  induction a as [|x a IH]; simpl; [reflexivity|].
  rewrite Z.ltb_irrefl, Z.eqb_refl, IH. reflexivity.
Qed.

Lemma lex_lt_asym a : forall b,
  JS.lex_lt a b = true -> JS.lex_lt b a = false.
Proof.
  induction a as [|x a IH]; intros [|y b]; simpl; try congruence.
  destruct (Z.ltb_spec x y), (Z.ltb_spec y x), (Z.eqb_spec x y),
    (Z.eqb_spec y x); simpl; try lia; try congruence.
  apply IH.
Qed.

Lemma lex_lt_trans a : forall b c,
  JS.lex_lt a b = true -> JS.lex_lt b c = true -> JS.lex_lt a c = true.
Proof.
  induction a as [|x a IH]; intros [|y b] [|z c]; simpl; try congruence.
  destruct (Z.ltb_spec x y), (Z.ltb_spec y z), (Z.ltb_spec x z),
    (Z.eqb_spec x y), (Z.eqb_spec y z), (Z.eqb_spec x z);
    simpl; try lia; try congruence.
  apply IH.
Qed.

Lemma gt_irrefl a : JS.gt a a = false.
Proof.
  destruct a; simpl;
    [reflexivity | apply Z.ltb_irrefl | apply lex_lt_irrefl].
Qed.

Lemma gt_asym a b : JS.gt a b = true -> JS.gt b a = false.
Proof.
  destruct a as [|x|s], b as [|y|t]; simpl; try congruence.
  - rewrite Z.ltb_lt, Z.ltb_ge. lia.
  - destruct (JS.StringToNumber t) as [|negative|num den];
      [congruence | now intros -> |].
    rewrite Z.ltb_lt, Z.ltb_ge. lia.
  - destruct (JS.StringToNumber s) as [|negative|num den];
      [congruence | now destruct negative |].
    rewrite Z.ltb_lt, Z.ltb_ge. lia.
  - apply lex_lt_asym.
Qed.

(** Among values of one kind, an item that beats [v] is beaten by none
    that does not beat [v]. *)
Lemma gt_not_beaten_trans (kind : JS.value -> bool) x v y :
  kind = not_text \/ kind = not_number ->
  kind x = true -> kind v = true -> kind y = true ->
  JS.gt x v = true -> JS.gt y v = false -> JS.gt y x = false.
Proof.
  intros [-> | ->]; destruct x, v, y; simpl; try congruence.
  - intros _ _ _. rewrite !Z.ltb_lt, !Z.ltb_ge. lia.
  - intros _ _ _ Hvx Hvy.
    destruct (JS.lex_lt (JS.charCodes s) (JS.charCodes s1)) eqn:Hxy;
      [|reflexivity].
    rewrite (lex_lt_trans _ _ _ Hvx Hxy) in Hvy. discriminate.
Qed.

Section MergeArrays.

Variable key : KeyName.

Lemma unbeaten_after_snoc seen v item :
  unbeaten_after key seen v ->
  (item_get item key = item_get v key ->
   JS.gt (Item.timestamp item) (Item.timestamp v) = false) ->
  unbeaten_after key (seen ++ [item])%list v.
Proof.
  intros (before & after & -> & Hafter) Hitem.
  exists before, (after ++ [item])%list. split.
  - rewrite <- List.app_assoc. reflexivity.
  - intros x Hx Hk. apply List.in_app_iff in Hx as [Hx|[<-|[]]]; auto.
Qed.

Lemma unbeaten_after_last seen item :
  unbeaten_after key (seen ++ [item])%list item.
Proof. exists seen, []. split; [reflexivity|]. intros x []. Qed.

Lemma unbeaten_after_In items v :
  unbeaten_after key items v -> List.In v items.
Proof.
  intros (before & after & -> & _). apply List.in_app_iff. right. now left.
Qed.

Lemma merged_map_nil : merged_map key [] [].
Proof.
  split.
  - constructor.
  - intros k. simpl. tauto.
  - intros k v. simpl. discriminate.
Qed.

Lemma merged_map_step seen m item :
  merged_map key seen m ->
  merged_map key (seen ++ [item])%list (mergeArrays_step key m item).
Proof.
  intros [Hnd Hkeys Hget]. unfold mergeArrays_step. cbv zeta.
  assert (Hmap : forall k,
             List.In k (map (fun i => item_get i key) (seen ++ [item])%list)
             <-> List.In k (JsMap.keys m) \/ k = item_get item key).
  { intros k. rewrite List.map_app, List.in_app_iff, <- Hkeys. simpl.
    intuition congruence. }
  assert (Hold : forall k v,
             JsMap.get m k = Some v ->
             (item_get item key = k ->
              JS.gt (Item.timestamp item) (Item.timestamp v) = false) ->
             item_get v key = k
             /\ unbeaten_after key (seen ++ [item])%list v).
  { intros k v Hv Hitem. destruct (Hget _ _ Hv) as (Hvk & Hvafter).
    split; [assumption|]. apply unbeaten_after_snoc; [assumption|].
    intros Hk. apply Hitem. congruence. }
  destruct (JsMap.get m (item_get item key)) as [stored|] eqn:Hk0.
  - assert (Hpresent : List.In (item_get item key) (JsMap.keys m)).
    { destruct (List.in_dec value_eq_dec (item_get item key) (JsMap.keys m))
        as [|Hn]; [assumption|].
      apply JsMapFacts.get_None in Hn. congruence. }
    destruct (JS.gt (Item.timestamp item) (Item.timestamp stored)) eqn:Hgt.
    + split.
      * rewrite JsMapFacts.keys_set_present by assumption. assumption.
      * intros k. rewrite JsMapFacts.keys_set_present by assumption.
        rewrite Hmap. split; [tauto|]. intros [H| ->]; assumption.
      * intros k v. rewrite JsMapFacts.get_set.
        destruct (decide (item_get item key = k)) as [<-|Hne].
        -- intros [= <-]. split; [reflexivity|]. apply unbeaten_after_last.
        -- intros Hv. apply Hold; [assumption | congruence].
    + split.
      * assumption.
      * intros k. rewrite Hmap. split; [tauto|]. intros [H| ->]; assumption.
      * intros k v Hv. apply Hold; [assumption|].
        intros <-. congruence.
  - assert (Habsent : ~ List.In (item_get item key) (JsMap.keys m)).
    { now apply JsMapFacts.get_None. }
    split.
    + rewrite JsMapFacts.keys_set_absent by assumption.
      apply List.NoDup_app; [assumption | repeat constructor; simpl; tauto |].
      intros x Hx [<-|[]]. tauto.
    + intros k. rewrite JsMapFacts.keys_set_absent by assumption.
      rewrite Hmap, List.in_app_iff. simpl. intuition congruence.
    + intros k v. rewrite JsMapFacts.get_set.
      destruct (decide (item_get item key = k)) as [<-|Hne].
      * intros [= <-]. split; [reflexivity|]. apply unbeaten_after_last.
      * intros Hv. apply Hold; [assumption | congruence].
Qed.

Lemma merged_map_fold items : forall seen m,
  merged_map key seen m ->
  merged_map key (seen ++ items)%list (fold_left (mergeArrays_step key) items m).
Proof.
  induction items as [|item items IH]; intros seen m Hm; simpl.
  - now rewrite List.app_nil_r.
  - replace (seen ++ item :: items)%list with ((seen ++ [item]) ++ items)%list
      by (rewrite <- List.app_assoc; reflexivity).
    apply IH. now apply merged_map_step.
Qed.

Lemma values_keys seen m :
  merged_map key seen m ->
  map (fun i => item_get i key) (JsMap.values m) = JsMap.keys m.
Proof.
  intros Hm. unfold JsMap.values, JsMap.keys. rewrite List.map_map.
  apply List.map_ext_in. intros [k v] Hin. simpl.
  apply (JsMapFacts.In_get _ _ _ (mm_nodup _ _ _ Hm)) in Hin.
  now apply (mm_get _ _ _ Hm) in Hin.
Qed.

End MergeArrays.

Section MergeArraysFacts.

Variable key : KeyName.

Lemma mergeArrays_merged_map arr1 arr2 :
  merged_map key (arr1 ++ arr2)%list
    (fold_left (mergeArrays_step key) (arr1 ++ arr2)%list []).
Proof. apply (merged_map_fold key (arr1 ++ arr2)%list [] []), merged_map_nil. Qed.

Lemma mergeArrays_union_by arr1 arr2 :
  union_by key arr1 arr2 (mergeArrays arr1 arr2 key).
Proof.
  pose proof (mergeArrays_merged_map arr1 arr2) as Hm.
  unfold mergeArrays, union_by. cbv zeta.
  rewrite (values_keys key _ _ Hm).
  split; [exact (mm_nodup _ _ _ Hm)|]. split.
  - intros k. rewrite (mm_keys _ _ _ Hm), List.map_app, List.in_app_iff.
    reflexivity.
  - intros v Hv. unfold JsMap.values in Hv.
    apply List.in_map_iff in Hv as ([k v'] & Heq & Hin). simpl in Heq. subst v'.
    apply (JsMapFacts.In_get _ _ _ (mm_nodup _ _ _ Hm)) in Hin.
    destruct (mm_get _ _ _ Hm _ _ Hin) as (Hk & Hafter).
    split; [|assumption].
    apply List.in_app_iff. now apply (unbeaten_after_In key).
Qed.

Lemma step_get m item k :
  JsMap.get (mergeArrays_step key m item) k
  = if decide (item_get item key = k)
    then match JsMap.get m k with
         | None => Some item
         | Some stored =>
             if JS.gt (Item.timestamp item) (Item.timestamp stored)
             then Some item else Some stored
         end
    else JsMap.get m k.
Proof.
  unfold mergeArrays_step. cbv zeta.
  destruct (decide (item_get item key = k)) as [<-|Hne].
  - destruct (JsMap.get m (item_get item key)) as [stored|] eqn:Hget.
    + destruct (JS.gt _ _).
      * rewrite JsMapFacts.get_set. destruct (decide _); congruence.
      * assumption.
    + rewrite JsMapFacts.get_set. destruct (decide _); congruence.
  - destruct (JsMap.get m (item_get item key)) as [stored|].
    + destruct (JS.gt _ _); [|reflexivity].
      rewrite JsMapFacts.get_set. destruct (decide _); congruence.
    + rewrite JsMapFacts.get_set. destruct (decide _); congruence.
Qed.

(** An entry stays while no later item of its key has a strictly larger
    timestamp. *)
Lemma fold_keep items : forall m k a,
  JsMap.get m k = Some a ->
  (forall x, List.In x items -> item_get x key = k ->
             JS.gt (Item.timestamp x) (Item.timestamp a) = false) ->
  JsMap.get (fold_left (mergeArrays_step key) items m) k = Some a.
Proof.
  induction items as [|item items IH]; intros m k a Hget Hle; simpl.
  - assumption.
  - apply IH.
    + rewrite step_get. destruct (decide (item_get item key = k)) as [Hk|Hk].
      * rewrite Hget, (Hle item); [reflexivity | now left | assumption].
      * assumption.
    + intros x Hx. apply Hle. now right.
Qed.

(** The first item of a key not yet in the [Map] is stored. *)
Lemma fold_first items : forall m k a,
  JsMap.get m k = None ->
  List.In a items ->
  item_get a key = k ->
  (forall x, List.In x items -> item_get x key = k -> x = a) ->
  JsMap.get (fold_left (mergeArrays_step key) items m) k = Some a.
Proof.
  induction items as [|item items IH]; intros m k a Hget Hin Hak Huniq; simpl.
  - destruct Hin.
  - destruct (decide (item_get item key = k)) as [Hk|Hk].
    + assert (item = a) as -> by (apply Huniq; [now left | assumption]).
      apply fold_keep.
      * rewrite step_get, Hget. destruct (decide _); congruence.
      * intros x Hx Hxk. rewrite (Huniq x); [apply gt_irrefl | now right | assumption].
    + apply IH; try assumption.
      * rewrite step_get. destruct (decide _); congruence.
      * destruct Hin as [->|Hin]; [congruence | assumption].
      * intros x Hx. apply Huniq. now right.
Qed.

(** With one item [a] of the key in [arr1], and in [arr2] no item of that
    key with a strictly larger timestamp, [a] is the item kept. *)
Lemma mergeArrays_keeps_first arr1 arr2 a :
  List.In a arr1 ->
  (forall x, List.In x arr1 -> item_get x key = item_get a key -> x = a) ->
  (forall x, List.In x arr2 -> item_get x key = item_get a key ->
             JS.gt (Item.timestamp x) (Item.timestamp a) = false) ->
  List.In a (mergeArrays arr1 arr2 key)
  /\ forall v, List.In v (mergeArrays arr1 arr2 key) ->
               item_get v key = item_get a key -> v = a.
Proof.
  intros Hin Huniq Hle.
  pose proof (mergeArrays_merged_map arr1 arr2) as Hm.
  assert (Hget : JsMap.get
                   (fold_left (mergeArrays_step key) (arr1 ++ arr2)%list [])
                   (item_get a key) = Some a).
  { rewrite List.fold_left_app. apply fold_keep; [|assumption].
    apply fold_first; auto. }
  unfold mergeArrays. cbv zeta. split.
  - apply JsMapFacts.get_Some_In in Hget. unfold JsMap.values.
    apply List.in_map_iff. now exists (item_get a key, a).
  - intros v Hv Hvk. unfold JsMap.values in Hv.
    apply List.in_map_iff in Hv as ([k v'] & Heq & Hv). simpl in Heq. subst v'.
    apply (JsMapFacts.In_get _ _ _ (mm_nodup _ _ _ Hm)) in Hv.
    destruct (mm_get _ _ _ Hm _ _ Hv) as (Hk & _).
    congruence.
Qed.

(** An item of the merged array is the entry of its key. *)
Lemma mergeArrays_In_get arr1 arr2 v :
  List.In v (mergeArrays arr1 arr2 key) ->
  JsMap.get (fold_left (mergeArrays_step key) (arr1 ++ arr2)%list [])
    (item_get v key)
  = Some v.
Proof.
  pose proof (mergeArrays_merged_map arr1 arr2) as Hm.
  unfold mergeArrays, JsMap.values. cbv zeta. intros Hv.
  apply List.in_map_iff in Hv as ([k v'] & Heq & Hin). simpl in Heq. subst v'.
  apply (JsMapFacts.In_get _ _ _ (mm_nodup _ _ _ Hm)) in Hin.
  destruct (mm_get _ _ _ Hm _ _ Hin) as [-> _]. assumption.
Qed.

(** With two items [a] and [b] under a key, of which [b] has the strictly
    larger timestamp: once [b] is the entry it stays, and it becomes the
    entry when it comes. *)
Lemma fold_winner_stays items m a b :
  JsMap.get m (item_get b key) = Some b ->
  (forall x, List.In x items -> item_get x key = item_get b key ->
             x = a \/ x = b) ->
  JS.gt (Item.timestamp b) (Item.timestamp a) = true ->
  JsMap.get (fold_left (mergeArrays_step key) items m) (item_get b key)
  = Some b.
Proof.
  intros Hget Honly Hgt. apply fold_keep; [assumption|].
  intros x Hx Hk. destruct (Honly x Hx Hk) as [->| ->];
    [now apply gt_asym | apply gt_irrefl].
Qed.

Lemma fold_winner items : forall m a b,
  item_get a key = item_get b key ->
  JsMap.get m (item_get b key) = None
  \/ JsMap.get m (item_get b key) = Some a
  \/ JsMap.get m (item_get b key) = Some b ->
  List.In b items ->
  (forall x, List.In x items -> item_get x key = item_get b key ->
             x = a \/ x = b) ->
  JS.gt (Item.timestamp b) (Item.timestamp a) = true ->
  JsMap.get (fold_left (mergeArrays_step key) items m) (item_get b key)
  = Some b.
Proof.
  induction items as [|item items IH]; intros m a b Hab Hm Hin Honly Hgt;
    simpl; [destruct Hin|].
  assert (Hne : a <> b)
    by (intros ->; rewrite gt_irrefl in Hgt; discriminate).
  assert (Hrest : forall x, List.In x items ->
                            item_get x key = item_get b key ->
                            x = a \/ x = b)
    by (intros x Hx; apply Honly; now right).
  destruct (decide (item_get item key = item_get b key)) as [Hk|Hk].
  - destruct (Honly item (or_introl eq_refl) Hk) as [->| ->].
    + apply (IH _ a b); try assumption.
      * rewrite step_get. destruct (decide _) as [_|]; [|congruence].
        destruct Hm as [->|[->| ->]].
        -- right. now left.
        -- rewrite gt_irrefl. right. now left.
        -- rewrite (gt_asym _ _ Hgt). right. now right.
      * destruct Hin as [Heq|Hin]; [congruence | assumption].
    + apply (fold_winner_stays items _ a b); try assumption.
      rewrite step_get. destruct (decide _) as [_|]; [|congruence].
      destruct Hm as [->|[->| ->]];
        [reflexivity | now rewrite Hgt | now rewrite gt_irrefl].
  - apply (IH _ a b); try assumption.
    + rewrite step_get. destruct (decide _) as [|_]; [congruence|].
      assumption.
    + destruct Hin as [Heq|Hin]; [congruence | assumption].
Qed.

(** When the items of a key are [a] and [b] alone, the one with the
    strictly larger timestamp is the one kept. *)
Lemma mergeArrays_keeps_larger arr1 arr2 a b v :
  List.In b (arr1 ++ arr2)%list ->
  item_get a key = item_get b key ->
  (forall x, List.In x (arr1 ++ arr2)%list ->
             item_get x key = item_get b key -> x = a \/ x = b) ->
  JS.gt (Item.timestamp b) (Item.timestamp a) = true ->
  List.In v (mergeArrays arr1 arr2 key) ->
  item_get v key = item_get b key ->
  v = b.
Proof.
  intros Hb Hab Honly Hgt Hv Hvk.
  apply mergeArrays_In_get in Hv. rewrite Hvk in Hv.
  rewrite (fold_winner (arr1 ++ arr2)%list [] a b) in Hv;
    try assumption; [congruence | now left].
Qed.

(** Among timestamps of one kind, the entry of a key is beaten by no item
    of the key that has gone through the callback. *)
Section OneKind.

Variable kind : JS.value -> bool.
Hypothesis Hkind : kind = not_text \/ kind = not_number.

Lemma max_step seen m item :
  List.Forall (fun x => kind (Item.timestamp x) = true) (seen ++ [item])%list ->
  merged_map key seen m ->
  (forall k v, JsMap.get m k = Some v ->
     forall x, List.In x seen -> item_get x key = k ->
               JS.gt (Item.timestamp x) (Item.timestamp v) = false) ->
  forall k v, JsMap.get (mergeArrays_step key m item) k = Some v ->
    forall x, List.In x (seen ++ [item])%list -> item_get x key = k ->
              JS.gt (Item.timestamp x) (Item.timestamp v) = false.
Proof.
  intros Hall Hm Hmax k v. rewrite List.Forall_forall in Hall.
  assert (Hitem : kind (Item.timestamp item) = true)
    by (apply Hall, List.in_app_iff; right; now left).
  rewrite step_get. destruct (decide (item_get item key = k)) as [Hk|Hk].
  - destruct (JsMap.get m k) as [stored|] eqn:Hs.
    + assert (Hstored : List.In stored seen).
      { destruct (mm_get _ _ _ Hm _ _ Hs) as [_ Hafter].
        now apply (unbeaten_after_In key). }
      destruct (JS.gt (Item.timestamp item) (Item.timestamp stored)) eqn:Hgt;
        intros [= <-] x Hx Hxk;
        apply List.in_app_iff in Hx as [Hx|[<-|[]]].
      * apply (gt_not_beaten_trans kind _ (Item.timestamp stored));
          try assumption.
        -- apply Hall, List.in_app_iff. now left.
        -- apply Hall, List.in_app_iff. now left.
        -- now apply (Hmax k).
      * apply gt_irrefl.
      * now apply (Hmax k).
      * assumption.
    + intros [= <-] x Hx Hxk.
      apply List.in_app_iff in Hx as [Hx|[<-|[]]]; [|apply gt_irrefl].
      exfalso. apply JsMapFacts.get_None in Hs. apply Hs.
      apply (mm_keys _ _ _ Hm), List.in_map_iff. now exists x.
  - intros Hv x Hx Hxk.
    apply List.in_app_iff in Hx as [Hx|[<-|[]]]; [|congruence].
    now apply (Hmax k).
Qed.

Lemma max_fold items : forall seen m,
  List.Forall (fun x => kind (Item.timestamp x) = true) (seen ++ items)%list ->
  merged_map key seen m ->
  (forall k v, JsMap.get m k = Some v ->
     forall x, List.In x seen -> item_get x key = k ->
               JS.gt (Item.timestamp x) (Item.timestamp v) = false) ->
  forall k v,
    JsMap.get (fold_left (mergeArrays_step key) items m) k = Some v ->
    forall x, List.In x (seen ++ items)%list -> item_get x key = k ->
              JS.gt (Item.timestamp x) (Item.timestamp v) = false.
Proof.
  induction items as [|item items IH]; intros seen m Hall Hm Hmax; simpl.
  - rewrite List.app_nil_r. assumption.
  - replace (seen ++ item :: items)%list with ((seen ++ [item]) ++ items)%list
      in * by (rewrite <- List.app_assoc; reflexivity).
    apply IH.
    + assumption.
    + now apply merged_map_step.
    + apply max_step; try assumption.
      apply List.Forall_app in Hall. tauto.
Qed.

End OneKind.

(** With timestamps of one kind, no item of either side has a timestamp
    strictly above that of the item kept under its key. *)
Lemma mergeArrays_max arr1 arr2 v x :
  of_one_kind (arr1 ++ arr2)%list ->
  List.In v (mergeArrays arr1 arr2 key) ->
  List.In x (arr1 ++ arr2)%list ->
  item_get x key = item_get v key ->
  JS.gt (Item.timestamp x) (Item.timestamp v) = false.
Proof.
  intros Hkind Hv Hx Hxk. apply mergeArrays_In_get in Hv.
  destruct Hkind as [Hall|Hall].
  - apply (max_fold not_text (or_introl eq_refl) (arr1 ++ arr2)%list [] []
             Hall (merged_map_nil key) ltac:(discriminate) _ _ Hv);
      assumption.
  - apply (max_fold not_number (or_intror eq_refl) (arr1 ++ arr2)%list [] []
             Hall (merged_map_nil key) ltac:(discriminate) _ _ Hv);
      assumption.
Qed.

End MergeArraysFacts.

(** [mergeData] merges each collection that both sides have, local first,
    by the key of the collection. *)
Lemma mergeData_collection col local cloud l c :
  collection col local = Some l ->
  collection col cloud = Some c ->
  collection col (mergeData local cloud)
  = Some (mergeArrays l c (merge_key col)).
Proof.
  destruct local as [lmt lal lfi lcb lme], cloud as [cmt cal cfi ccb cme].
  unfold mergeData; destruct col; simpl; intros -> ->;
    repeat match goal with
           | |- context [match ?x with _ => _ end] => destruct x; simpl
           end; reflexivity.
Qed.

(** The merge example of the specification: ids 1, 2 and 3, and the item of
    id 2 is the cloud's, whose timestamp 9 is above the local 1. *)
Example mergeArrays_example :
  mergeArrays [Sample.local_1; Sample.local_2] [Sample.cloud_2; Sample.cloud_3]
    Key_id
  = [Sample.local_1; Sample.cloud_2; Sample.cloud_3].
Proof. reflexivity. Qed.

(** With the ISO-8601 times of [toISOString()] as timestamps, the later
    string wins. *)
Example mergeArrays_iso_example :
  mergeArrays
    [Item.mk (JS.number 1) JS.undefined (JS.text "2024-01-05T10:00:00.000Z")
       "local"]
    [Item.mk (JS.number 1) JS.undefined (JS.text "2024-01-05T10:00:00.001Z")
       "cloud"]
    Key_id
  = [Item.mk (JS.number 1) JS.undefined (JS.text "2024-01-05T10:00:00.001Z")
       "cloud"].
Proof. reflexivity. Qed.

(** With numeric strings among the timestamps, [>] is no order: the string
    "20" is above "100" as a string, which is above 50 as a number, which
    is above "20" as a number. *)
Example gt_cycle :
  JS.gt (JS.text "20") (JS.text "100") = true
  /\ JS.gt (JS.text "100") (JS.number 50) = true
  /\ JS.gt (JS.number 50) (JS.text "20") = true.
Proof. repeat split. Qed.

(** Such timestamps under one key: the item kept is the last that beat the
    entry before it. *)
Example mergeArrays_cycle_example :
  mergeArrays
    [Item.mk (JS.number 1) JS.undefined (JS.text "20") "local";
     Item.mk (JS.number 1) JS.undefined (JS.number 50) "local"]
    [Item.mk (JS.number 1) JS.undefined (JS.text "100") "cloud"]
    Key_id
  = [Item.mk (JS.number 1) JS.undefined (JS.text "100") "cloud"].
Proof. reflexivity. Qed.

(** C5.  A collection that both snapshots have is merged into one item per
    key of either side, each taken from one of the sides.  For a key with
    one item on each side and no other, the item with the strictly larger
    timestamp is the one kept.  In general the item kept under a key has
    no strictly larger timestamp of its key after it, going through local
    and then cloud, and none at all when the timestamps are of one kind,
    all numbers or all strings. *)
Theorem mergeData_union (col : Collection) (local cloud : Snapshot)
    (l c : list Item.t) :
  collection col local = Some l ->
  collection col cloud = Some c ->
  exists merged,
    collection col (mergeData local cloud) = Some merged
    /\ union_by (merge_key col) l c merged
    /\ (forall a b,
          List.In a l -> List.In b c ->
          item_get a (merge_key col) = item_get b (merge_key col) ->
          (forall x, List.In x l \/ List.In x c ->
                     item_get x (merge_key col) = item_get a (merge_key col) ->
                     x = a \/ x = b) ->
          exists kept,
            List.In kept merged
            /\ (forall v, List.In v merged ->
                          item_get v (merge_key col) = item_get a (merge_key col) ->
                          v = kept)
            /\ (JS.gt (Item.timestamp b) (Item.timestamp a) = true -> kept = b)
            /\ (JS.gt (Item.timestamp a) (Item.timestamp b) = true -> kept = a))
    /\ (of_one_kind (l ++ c) ->
        forall v x,
          List.In v merged ->
          List.In x l \/ List.In x c ->
          item_get x (merge_key col) = item_get v (merge_key col) ->
          JS.gt (Item.timestamp x) (Item.timestamp v) = false).
Proof.
  intros Hl Hc. exists (mergeArrays l c (merge_key col)).
  split; [now apply mergeData_collection|].
  pose proof (mergeArrays_union_by (merge_key col) l c) as Hu.
  split; [assumption|]. split.
  - destruct Hu as (Hnd & Hkeys & Hkept).
    intros a b Ha Hb Hab Honly.
    assert (Hex : List.In (item_get a (merge_key col))
                    (map (fun i => item_get i (merge_key col))
                       (mergeArrays l c (merge_key col)))).
    { apply Hkeys. left. apply List.in_map_iff. now exists a. }
    apply List.in_map_iff in Hex as (kept & Hkk & Hkin).
    exists kept. split; [assumption|].
    assert (Honly' : forall x, List.In x (l ++ c)%list ->
                       item_get x (merge_key col) = item_get b (merge_key col) ->
                       x = a \/ x = b).
    { intros x Hx Hxk. apply Honly; [now apply List.in_app_iff | congruence]. }
    split; [|split].
    + intros v Hv Hvk.
      clear - Hnd Hv Hvk Hkin Hkk.
      induction (mergeArrays l c (merge_key col)) as [|y ys IH];
        [destruct Hv|].
      simpl in Hnd. apply List.NoDup_cons_iff in Hnd as [Hy Hnd].
      destruct Hv as [->|Hv], Hkin as [->|Hkin]; try reflexivity.
      * exfalso. apply Hy, List.in_map_iff. exists kept. split; congruence.
      * exfalso. apply Hy, List.in_map_iff. exists v. split; congruence.
      * now apply IH.
    + intros Hgt.
      assert (Hb' : List.In b (l ++ c)%list)
        by (apply List.in_app_iff; now right).
      apply (mergeArrays_keeps_larger (merge_key col) l c a b);
        try assumption; congruence.
    + intros Hgt.
      assert (Ha' : List.In a (l ++ c)%list)
        by (apply List.in_app_iff; now left).
      assert (Hswap : forall x, List.In x (l ++ c)%list ->
                        item_get x (merge_key col) = item_get a (merge_key col) ->
                        x = b \/ x = a).
      { intros x Hx Hxk. destruct (Honly' x Hx); [congruence | now right | now left]. }
      apply (mergeArrays_keeps_larger (merge_key col) l c b a);
        try assumption; congruence.
  - intros Hkind v x Hv Hx Hxk.
    apply (mergeArrays_max (merge_key col) l c); try assumption.
    now apply List.in_app_iff.
Qed.

Lemma mergeData_union_witness :
  exists merged,
    collection ManualTransactions
      (mergeData
         (Sample.snapshot_of [Sample.local_1; Sample.local_2] None None)
         (Sample.snapshot_of [Sample.cloud_2; Sample.cloud_3] None None))
    = Some merged
    /\ union_by Key_id [Sample.local_1; Sample.local_2]
         [Sample.cloud_2; Sample.cloud_3] merged
    /\ (forall v, List.In v merged -> item_get v Key_id = JS.number 2 ->
                  v = Sample.cloud_2).
Proof.
  destruct (mergeData_union ManualTransactions
              (Sample.snapshot_of [Sample.local_1; Sample.local_2] None None)
              (Sample.snapshot_of [Sample.cloud_2; Sample.cloud_3] None None)
              [Sample.local_1; Sample.local_2]
              [Sample.cloud_2; Sample.cloud_3] eq_refl eq_refl)
    as (merged & Hm & Hu & Htwo & _).
  exists merged. split; [assumption|]. split; [assumption|].
  destruct (Htwo Sample.local_2 Sample.cloud_2) as (kept & _ & Honly & Hb & _).
  - simpl. tauto.
  - simpl. tauto.
  - reflexivity.
  - intros x [[<-|[<-|[]]]|[<-|[<-|[]]]]; simpl; intros H;
      try discriminate H; tauto.
  - intros v Hv Hvk. transitivity kept.
    + apply Honly; [exact Hv | exact Hvk].
    + apply Hb. reflexivity.
Defined.

(** C3, as stated, fails: with the same key and the same timestamp on both
    sides, the merged collection holds the local item and not the cloud's. *)
Lemma mergeData_tie_not_cloud :
  item_get Sample.tie_local Key_id = item_get Sample.tie_cloud Key_id
  /\ Item.timestamp Sample.tie_local = Item.timestamp Sample.tie_cloud
  /\ manualTransactions
       (mergeData Sample.tie_local_snapshot Sample.tie_cloud_snapshot)
     = Some [Sample.tie_local]
  /\ ~ List.In Sample.tie_cloud [Sample.tie_local].
Proof.
  repeat split. intros [H|[]]. discriminate H.
Qed.

(** C3, amended.  When local and cloud each hold one item under a merge key
    and the two timestamps are equal, the merged collection keeps the local
    item: [mergeArrays] goes through the local items first, and a later item
    replaces the stored one only with a strictly larger timestamp. *)
Theorem mergeData_tie_keeps_local (col : Collection) (local cloud : Snapshot)
    (l c : list Item.t) (a b : Item.t) :
  collection col local = Some l ->
  collection col cloud = Some c ->
  List.In a l ->
  List.In b c ->
  item_get a (merge_key col) = item_get b (merge_key col) ->
  Item.timestamp a = Item.timestamp b ->
  (forall x, List.In x l ->
             item_get x (merge_key col) = item_get a (merge_key col) -> x = a) ->
  (forall x, List.In x c ->
             item_get x (merge_key col) = item_get a (merge_key col) -> x = b) ->
  exists merged,
    collection col (mergeData local cloud) = Some merged
    /\ List.In a merged
    /\ forall v, List.In v merged ->
                 item_get v (merge_key col) = item_get a (merge_key col) ->
                 v = a.
Proof.
  intros Hl Hc Ha Hb Hkey Hts Hua Hub.
  exists (mergeArrays l c (merge_key col)).
  split; [now apply mergeData_collection|].
  apply mergeArrays_keeps_first; try assumption.
  intros x Hx Hxk. rewrite (Hub x Hx Hxk), <- Hts. apply gt_irrefl.
Qed.

Lemma mergeData_tie_keeps_local_witness :
  exists merged,
    collection ManualTransactions
      (mergeData Sample.tie_local_snapshot Sample.tie_cloud_snapshot)
    = Some merged
    /\ List.In Sample.tie_local merged
    /\ forall v, List.In v merged ->
                 item_get v Key_id = item_get Sample.tie_local Key_id ->
                 v = Sample.tie_local.
Proof.
  apply (mergeData_tie_keeps_local ManualTransactions
           Sample.tie_local_snapshot Sample.tie_cloud_snapshot
           [Sample.tie_local] [Sample.tie_cloud]
           Sample.tie_local Sample.tie_cloud).
  - reflexivity.
  - reflexivity.
  - simpl. left. reflexivity.
  - simpl. left. reflexivity.
  - reflexivity.
  - reflexivity.
  - intros x [<-|[]] _. reflexivity.
  - intros x [<-|[]] _. reflexivity.
Defined.

(** ** The balance *)

(** The balance example of the specification: local 100 over cloud 50, here
    with equal [lastSync] on both sides. *)
Example mergeData_balance_example :
  currentBalance
    (mergeData Sample.tie_local_snapshot Sample.tie_cloud_snapshot)
  = Some 100.
Proof. reflexivity. Qed.

(** C6.  The merged [currentBalance] is the local one whenever local defines
    it, whatever the timestamps of the two snapshots and of their items, and
    the cloud's one otherwise. *)
Theorem mergeData_currentBalance (local cloud : Snapshot) :
  currentBalance (mergeData local cloud)
  = match currentBalance local with
    | Some balance => Some balance
    | None => currentBalance cloud
    end.
Proof.
  destruct local as [lmt lal lfi lcb lme], cloud as [cmt cal cfi ccb cme].
  unfold mergeData; simpl.
  destruct lcb, lmt, cmt, lal, cal, lfi, cfi; reflexivity.
Qed.

(** ** Retry with backoff *)

Section FetchWithRetry.

Variable env : Env.
Variables (url : string) (options : RequestInit).

Lemma fetch_settle w :
  fetch env url options w
  = (settle (network env (log w) url options),
     add_event (Fetch url options) w).
Proof. unfold fetch. destruct (network env (log w) url options); reflexivity. Qed.

(** The body of [fetchWithRetry], one call deep. *)
Lemma fetchWithRetry_body attempt w :
  fetchWithRetry env url options attempt w
  = let o := network env (log w) url options in
    let w1 := add_event (Fetch url options) w in
    if retryable o && bool_decide (attempt < maxRetries)%nat
    then fetchWithRetry env url options (S attempt)
           (add_event (Sleep (backoff attempt)) w1)
    else (settle o, w1).
Proof.
  cbv zeta.
  funelim (fetchWithRetry env url options attempt w);
    rewrite fetch_settle in *;
    match goal with
    | H : (settle ?o, _) = (_, _) |- _ =>
        destruct o as [e|r] eqn:Ho; simpl in H; inversion H; subst; clear H
    end; simpl;
    rewrite ?bool_decide_eq_true_2, ?bool_decide_eq_false_2 by assumption;
    simpl in *;
    repeat match goal with
           | H : (500 <=? status _) = _ |- _ => rewrite H
           end; simpl; try reflexivity.
  rewrite andb_false_r. reflexivity.
Qed.

Lemma requests_app l1 l2 :
  requests (l1 ++ l2) = (requests l1 + requests l2)%nat.
Proof. unfold requests. now rewrite List.filter_app, List.length_app. Qed.

Lemma extends_log_refl w : extends_log w w [].
Proof. unfold extends_log. rewrite List.app_nil_r. now destruct w. Qed.

Lemma extends_log_trans w1 w2 w3 evs1 evs2 :
  extends_log w1 w2 evs1 -> extends_log w2 w3 evs2 ->
  extends_log w1 w3 (evs1 ++ evs2).
Proof.
  unfold extends_log. intros -> ->. simpl. now rewrite List.app_assoc.
Qed.

Lemma extends_log_add_event ev w :
  extends_log w (add_event ev w) [mkEntry (isSyncing (this w)) ev].
Proof. reflexivity. Qed.

(** What a call of [fetchWithRetry] leaves behind: entries of the history,
    all issued under the [isSyncing] of the start, the requests all for
    [url] and [options], at least one and at most what is left of
    [maxRetries]. *)
Lemma fetchWithRetry_frame : forall (k attempt : nat) (w : World),
  (maxRetries - attempt)%nat = k ->
  exists evs,
    extends_log w (snd (fetchWithRetry env url options attempt w)) evs
    /\ List.Forall
         (fun e => syncing e = isSyncing (this w)
                   /\ (event e = Fetch url options
                       \/ exists ms, event e = Sleep ms)) evs
    /\ (1 <= requests evs <= Nat.max 1 (S maxRetries - attempt))%nat
    /\ exists rest,
        evs = mkEntry (isSyncing (this w)) (Fetch url options) :: rest.
Proof.
  induction k as [|k IH]; intros attempt w Hk;
    rewrite fetchWithRetry_body; cbv zeta.
  - rewrite bool_decide_eq_false_2, andb_false_r by lia.
    exists [mkEntry (isSyncing (this w)) (Fetch url options)].
    split; [apply extends_log_add_event|]. split; [|split].
    + repeat constructor.
    + unfold requests. simpl. lia.
    + now exists [].
  - destruct (retryable _ && _) eqn:Hretry.
    + apply andb_true_iff in Hretry as [_ Hlt].
      apply bool_decide_eq_true_1 in Hlt.
      destruct (IH (S attempt)
                  (add_event (Sleep (backoff attempt))
                     (add_event (Fetch url options) w)))
        as (evs & Hext & Hall & Hreq & _); [lia|].
      exists ([mkEntry (isSyncing (this w)) (Fetch url options);
               mkEntry (isSyncing (this w)) (Sleep (backoff attempt))]
              ++ evs)%list.
      split; [|split; [|split]].
      * eapply extends_log_trans; [|exact Hext].
        unfold extends_log, add_event. simpl.
        now rewrite <- List.app_assoc.
      * repeat (constructor; [split; [reflexivity|eauto]|]). exact Hall.
      * rewrite requests_app. unfold requests at 1. simpl. lia.
      * eexists. reflexivity.
    + exists [mkEntry (isSyncing (this w)) (Fetch url options)].
      split; [apply extends_log_add_event|]. split; [|split].
      * repeat constructor.
      * unfold requests. simpl. lia.
      * now exists [].
Qed.

End FetchWithRetry.

(** C4.  [fetchWithRetry] makes at most [maxRetries] = 3 requests.  A thrown
    error, or a response with a status of 500 or above, is retried while the
    attempt number is below 3, after a delay of 2000 * 2^(n-1) ms before
    attempt n+1; a response with a status below 500 is returned at once; at
    attempt 3 the response is returned, or the error raised, as it comes. *)
Theorem fetchWithRetry_policy (env : Env) (url : string)
    (options : RequestInit) :
  maxRetries = 3%nat
  /\ (forall attempt w, (1 <= attempt)%nat ->
        exists evs,
          extends_log w (snd (fetchWithRetry env url options attempt w)) evs
          /\ (requests evs <= 3)%nat)
  /\ (forall attempt w e,
        network env (log w) url options = inl e ->
        (attempt < 3)%nat ->
        fetchWithRetry env url options attempt w
        = fetchWithRetry env url options (S attempt)
            (add_event (Sleep (2000 * 2 ^ (Z.of_nat attempt - 1)))
               (add_event (Fetch url options) w)))
  /\ (forall attempt w response,
        network env (log w) url options = inr response ->
        500 <= status response ->
        (attempt < 3)%nat ->
        fetchWithRetry env url options attempt w
        = fetchWithRetry env url options (S attempt)
            (add_event (Sleep (2000 * 2 ^ (Z.of_nat attempt - 1)))
               (add_event (Fetch url options) w)))
  /\ (forall attempt w response,
        network env (log w) url options = inr response ->
        status response < 500 ->
        fetchWithRetry env url options attempt w
        = (Return response, add_event (Fetch url options) w))
  /\ (forall attempt w,
        (3 <= attempt)%nat ->
        fetchWithRetry env url options attempt w
        = (settle (network env (log w) url options),
           add_event (Fetch url options) w)).
Proof.
  split; [reflexivity|]. split; [|split; [|split; [|split]]].
  - intros attempt w Hge.
    destruct (fetchWithRetry_frame env url options _ attempt w eq_refl)
      as (evs & Hext & _ & Hreq & _).
    exists evs. split; [assumption|]. unfold maxRetries in Hreq. lia.
  - intros attempt w e Hnet Hlt. rewrite fetchWithRetry_body. cbv zeta.
    rewrite Hnet. simpl.
    rewrite bool_decide_eq_true_2 by (unfold maxRetries; lia). reflexivity.
  - intros attempt w response Hnet Hst Hlt.
    rewrite fetchWithRetry_body. cbv zeta. rewrite Hnet. simpl.
    rewrite (proj2 (Z.leb_le _ _) Hst).
    rewrite bool_decide_eq_true_2 by (unfold maxRetries; lia). reflexivity.
  - intros attempt w response Hnet Hst.
    rewrite fetchWithRetry_body. cbv zeta. rewrite Hnet. simpl.
    rewrite (proj2 (Z.leb_gt _ _) Hst). reflexivity.
  - intros attempt w Hge. rewrite fetchWithRetry_body. cbv zeta.
    rewrite bool_decide_eq_false_2 by (unfold maxRetries; lia).
    rewrite andb_false_r. reflexivity.
Qed.

(** The retry example of the specification: 503 twice, then 200, gives three
    requests, 2000 ms and 4000 ms apart, and the last response. *)
Lemma fetchWithRetry_policy_witness :
  fetchWithRetry (Sample.flaky Sample.tie_cloud_snapshot) "url"
    (mkRequest "GET" [] None) 1 Sample.idle
  = (Return (mkResponse 200 "OK" (inr Sample.tie_cloud_snapshot)),
     add_event (Fetch "url" (mkRequest "GET" [] None))
       (add_event (Sleep 4000)
          (add_event (Fetch "url" (mkRequest "GET" [] None))
             (add_event (Sleep 2000)
                (add_event (Fetch "url" (mkRequest "GET" [] None))
                   Sample.idle))))).
Proof.
  destruct (fetchWithRetry_policy (Sample.flaky Sample.tie_cloud_snapshot)
              "url" (mkRequest "GET" [] None))
    as (_ & _ & _ & Hretry & Hdone & _).
  rewrite (Hretry 1%nat Sample.idle
             (mkResponse 503 "Service Unavailable" (inl "no document")));
    [|reflexivity|simpl; lia|lia].
  rewrite (Hretry 2%nat _
             (mkResponse 503 "Service Unavailable" (inl "no document")));
    [|reflexivity|simpl; lia|lia].
  rewrite (Hdone 3%nat _
             (mkResponse 200 "OK" (inr Sample.tie_cloud_snapshot)));
    [|reflexivity|simpl; lia].
  reflexivity.
Defined.

(** ** [saveToCloud] *)

Section SaveToCloud.

Variable env : Env.

(** While a sync is in flight, [saveToCloud] does nothing. *)
Lemma saveToCloud_busy data w :
  isSyncing (this w) = true ->
  saveToCloud env data w = (Return false, w).
Proof.
  intros Hbusy. unfold saveToCloud, bind, gets. rewrite Hbusy. reflexivity.
Qed.

(** [saveToCloud] from a manager that is not syncing, in one equation. *)
Lemma saveToCloud_idle data w :
  isSyncing (this w) = false ->
  saveToCloud env data w
  = let payload := with_meta (heap w !!! data) (fresh_meta env w) in
    let w1 :=
      mkWorld
        (mkSyncManager true (lastSyncHash (this w)) (retryAttempts (this w)))
        (dbManager w) (heap w ++ [payload]) (log w) in
    match fetchWithRetry env (save_url env) (save_request env payload) 1%nat w1
    with
    | (Return response, w2) =>
        if ok response
        then (Return true,
              set_isSyncing false
                (set_retryAttempts 0
                   (set_lastSyncHash (hashData env (heap w2 !!! data)) w2)))
        else (Throw (http_error response),
              set_isSyncing false
                (enqueue_failure env data (http_error response) w2))
    | (Throw e, w2) =>
        (Throw e, set_isSyncing false (enqueue_failure env data e w2))
    end.
Proof.
  intros Hidle. cbv zeta.
  unfold saveToCloud, bind, gets, modify, finally, try_catch, alloc, deref,
    throw, ret. rewrite Hidle. simpl.
  rewrite list_lookup_total_middle by reflexivity.
  fold (save_url env). fold (fresh_meta env w).
  fold (save_request env (with_meta (heap w !!! data) (fresh_meta env w))).
  destruct (fetchWithRetry env _ _ 1%nat _) as [[response|e] w2].
  - destruct (ok response); simpl; [reflexivity|].
    unfold enqueue_failure, addToSyncQueue, db_add, with_db, bind, gets,
      deref. simpl.
    destruct (isReady (dbManager w2)) eqn:Hready; simpl; rewrite ?Hready;
      reflexivity.
  - unfold enqueue_failure, addToSyncQueue, db_add, with_db, bind, gets,
      deref. simpl.
    destruct (isReady (dbManager w2)) eqn:Hready; simpl; rewrite ?Hready;
      reflexivity.
Qed.

Lemma save_attempt_frame data w :
  exists evs rest,
    snd (save_attempt env data w)
    = mkWorld
        (mkSyncManager true (lastSyncHash (this w)) (retryAttempts (this w)))
        (dbManager w)
        (heap w ++ [with_meta (heap w !!! data) (fresh_meta env w)])
        (log w ++ evs)
    /\ evs = mkEntry true
               (Fetch (save_url env)
                  (save_request env
                     (with_meta (heap w !!! data) (fresh_meta env w))))
             :: rest
    /\ List.Forall
         (fun e => syncing e = true
                   /\ (event e
                       = Fetch (save_url env)
                           (save_request env
                              (with_meta (heap w !!! data) (fresh_meta env w)))
                       \/ exists ms, event e = Sleep ms)) evs.
Proof.
  unfold save_attempt. cbv zeta.
  match goal with
  | |- context [fetchWithRetry env ?u ?o ?n ?w1] =>
      destruct (fetchWithRetry_frame env u o _ n w1 eq_refl)
        as (evs & Hext & Hall & _ & rest & Hhead)
  end.
  exists evs, rest. rewrite Hext. simpl. auto.
Qed.

Lemma log_enqueue_failure data e w :
  log (enqueue_failure env data e w) = log w.
Proof. unfold enqueue_failure. now destruct (isReady (dbManager w)). Qed.

Lemma heap_enqueue_failure data e w :
  heap (enqueue_failure env data e w) = heap w.
Proof. unfold enqueue_failure. now destruct (isReady (dbManager w)). Qed.

Lemma this_enqueue_failure data e w :
  this (enqueue_failure env data e w) = this w.
Proof. unfold enqueue_failure. now destruct (isReady (dbManager w)). Qed.

(** What [saveToCloud] does to the history and to the heap. *)
Lemma saveToCloud_idle_world data w :
  isSyncing (this w) = false ->
  log (snd (saveToCloud env data w)) = log (snd (save_attempt env data w))
  /\ heap (snd (saveToCloud env data w)) = heap (snd (save_attempt env data w))
  /\ isSyncing (this (snd (saveToCloud env data w))) = false.
Proof.
  intros Hidle. rewrite saveToCloud_idle by assumption. cbv zeta.
  fold (save_attempt env data w).
  destruct (save_attempt env data w) as [[response|e] w2]; simpl.
  - destruct (ok response); simpl;
      rewrite ?log_enqueue_failure, ?heap_enqueue_failure; auto.
  - rewrite ?log_enqueue_failure, ?heap_enqueue_failure; auto.
Qed.

End SaveToCloud.

(** C9.  [saveToCloud] sends, by [PUT], the serialization of the given
    snapshot with a new [_meta] block: [lastSync] the present time, [version]
    1.0.0, [device] the first 50 characters of the user agent; every retry
    sends the same body.  The object it was given is the same after the
    call, sent or not. *)
Theorem saveToCloud_payload (env : Env) (w : World) (data : loc)
    (d : Snapshot) :
  heap w !! data = Some d ->
  heap (snd (saveToCloud env data w)) !! data = Some d
  /\ (isSyncing (this w) = false ->
      let payload :=
        mkSnapshot (manualTransactions d) (activeLoans d) (futureIncomes d)
          (currentBalance d)
          (Some (Meta.mk (JS.text (Date_toISOString env (log w))) "1.0.0"
                   (JS.substring (userAgent env) 0 50))) in
      let put :=
        Fetch (baseUrl +:+ "/" +:+ binId env)
          (mkRequest "PUT"
             [("Content-Type", "application/json");
              ("X-Master-Key", apiKey env)]
             (Some (JSON_stringify env payload))) in
      exists evs rest,
        log (snd (saveToCloud env data w)) = (log w ++ evs)%list
        /\ evs = mkEntry true put :: rest
        /\ List.Forall (fun e => is_request e = true -> event e = put) evs).
Proof.
  intros Hd.
  destruct (isSyncing (this w)) eqn:Hsync.
  { rewrite saveToCloud_busy by assumption. split; [exact Hd | discriminate]. }
  destruct (saveToCloud_idle_world env data w Hsync) as (Hlog & Hheap & _).
  pose proof (save_attempt_frame env data w) as Hframe.
  rewrite (list_lookup_total_correct _ _ _ Hd) in Hframe.
  destruct Hframe as (evs & rest & Hw2 & Hhead & Hall).
  rewrite Hlog, Hheap, Hw2. simpl. split.
  - now apply lookup_app_l_Some.
  - intros _. exists evs, rest.
    split; [reflexivity|]. split; [exact Hhead|].
    eapply List.Forall_impl; [|exact Hall].
    intros e [_ [He|[ms He]]] Hreq; [exact He|].
    unfold is_request in Hreq. rewrite He in Hreq. discriminate.
Qed.

Lemma saveToCloud_payload_witness :
  exists evs rest,
    log (snd (saveToCloud (Sample.steady Sample.tie_cloud_snapshot) 0%nat
                (Sample.holding Sample.tie_local_snapshot)))
    = evs
    /\ evs
       = mkEntry true
           (Fetch "https://api.jsonbin.io/v3/b/bin"
              (mkRequest "PUT"
                 [("Content-Type", "application/json");
                  ("X-Master-Key", "key")]
                 (Some
                    (Sample.stringify
                       (mkSnapshot (Some [Sample.tie_local]) None None
                          (Some 100)
                          (Some
                             (Meta.mk (JS.text "2024-03-01T00:00:00.000Z")
                                "1.0.0"
                                "Mozilla/5.0 (X11; Linux x86_64) AppleWebKit/537.36"))))))) :: rest
    /\ heap (snd (saveToCloud (Sample.steady Sample.tie_cloud_snapshot) 0%nat
                    (Sample.holding Sample.tie_local_snapshot))) !! 0%nat
       = Some Sample.tie_local_snapshot.
Proof.
  destruct (saveToCloud_payload (Sample.steady Sample.tie_cloud_snapshot)
              (Sample.holding Sample.tie_local_snapshot) 0%nat
              Sample.tie_local_snapshot eq_refl)
    as (Hheap & Hsent).
  destruct (Hsent eq_refl) as (evs & rest & Hlog & Hhead & _).
  exists evs, rest. split; [exact Hlog|]. split; [exact Hhead|]. exact Hheap.
Defined.

(** C8.  When the request of [saveToCloud] fails, by a thrown error or by a
    response that is not [ok] once the retries are used up, and the database
    is ready, the queue gets one more record, last: type [save], the
    snapshot given, the message of the error, [synced] false and the time of
    the failure; the same error is then raised, and [isSyncing] is false
    again. *)
Theorem saveToCloud_failure_enqueues (env : Env) (w : World) (data : loc)
    (d : Snapshot) (e : Error) :
  isSyncing (this w) = false ->
  isReady (dbManager w) = true ->
  heap w !! data = Some d ->
  failure_of (fst (save_attempt env data w)) = Some e ->
  exists w',
    saveToCloud env data w = (Throw e, w')
    /\ syncQueue (dbManager w')
       = (syncQueue (dbManager w)
          ++ [Op.mk (nextKey (dbManager w)) "save" d (message e)
                (Date_now env (log w')) false None])%list
    /\ nextKey (dbManager w') = nextKey (dbManager w) + 1
    /\ isSyncing (this w') = false.
Proof.
  intros Hidle Hready Hd Hfail.
  pose proof (save_attempt_frame env data w) as (evs & rest & Hw2 & _ & _).
  rewrite saveToCloud_idle by assumption. cbv zeta.
  fold (save_attempt env data w).
  destruct (save_attempt env data w) as [r w2]. simpl in Hfail, Hw2.
  assert (Hq : forall e0,
             syncQueue (dbManager (enqueue_failure env data e0 w2))
             = (syncQueue (dbManager w)
                ++ [Op.mk (nextKey (dbManager w)) "save" d (message e0)
                      (Date_now env (log w2)) false None])%list
             /\ nextKey (dbManager (enqueue_failure env data e0 w2))
                = nextKey (dbManager w) + 1).
  { intros e0. unfold enqueue_failure. rewrite Hw2. simpl. rewrite Hready.
    simpl. rewrite (lookup_total_app_l _ _ _ (lookup_lt_Some _ _ _ Hd)).
    rewrite (list_lookup_total_correct _ _ _ Hd). auto. }
  destruct r as [response|e0]; simpl in Hfail.
  - destruct (ok response); [discriminate|]. injection Hfail as <-.
    eexists. split; [reflexivity|]. simpl.
    rewrite log_enqueue_failure. destruct (Hq (http_error response)). auto.
  - injection Hfail as <-.
    eexists. split; [reflexivity|]. simpl.
    rewrite log_enqueue_failure. destruct (Hq e0). auto.
Qed.

Lemma saveToCloud_failure_enqueues_witness :
  exists w',
    saveToCloud Sample.offline 0%nat
      (Sample.holding Sample.tie_local_snapshot)
    = (Throw (mkError "Failed to fetch"), w')
    /\ syncQueue (dbManager w')
       = [Op.mk 1 "save" Sample.tie_local_snapshot "Failed to fetch"
            (Date_now Sample.offline (log w')) false None]
    /\ nextKey (dbManager w') = 2
    /\ isSyncing (this w') = false.
Proof.
  apply (saveToCloud_failure_enqueues Sample.offline
           (Sample.holding Sample.tie_local_snapshot) 0%nat
           Sample.tie_local_snapshot (mkError "Failed to fetch")).
  - reflexivity.
  - reflexivity.
  - reflexivity.
  - vm_compute. reflexivity.
Defined.

(** ** [loadFromCloud] and [syncData] *)

Section SyncData.

Variable env : Env.

(** [loadFromCloud], in one equation. *)
Lemma loadFromCloud_body w :
  loadFromCloud env w
  = match fetchWithRetry env (load_url env) (load_request env) 1%nat w with
    | (Return response, w2) =>
        if ok response then
          match json response with
          | inl msg => (Throw (mkError msg), w2)
          | inr d =>
              (Return (length (heap w2)),
               set_lastSyncHash (hashData env d)
                 (mkWorld (this w2) (dbManager w2) (heap w2 ++ [d]) (log w2)))
          end
        else (Throw (http_error response), w2)
    | (Throw e, w2) => (Throw e, w2)
    end.
Proof.
  unfold loadFromCloud, try_catch, bind, throw.
  fold (load_url env). fold (load_request env).
  destruct (fetchWithRetry env _ _ 1%nat w) as [[response|e] w2];
    [|reflexivity].
  destruct (ok response); simpl; [|reflexivity].
  unfold response_json, alloc, deref, gets, modify, ret, throw.
  destruct (json response) as [msg|d]; simpl; [reflexivity|].
  rewrite list_lookup_total_middle by reflexivity. reflexivity.
Qed.

(** What [loadFromCloud] leaves behind: the requests and timers of one
    [fetchWithRetry] for [GET .../latest], possibly a new object, possibly a
    new [lastSyncHash]. *)
Lemma loadFromCloud_frame w :
  exists evs,
    isSyncing (this (snd (loadFromCloud env w))) = isSyncing (this w)
    /\ dbManager (snd (loadFromCloud env w)) = dbManager w
    /\ log (snd (loadFromCloud env w)) = (log w ++ evs)%list
    /\ (exists new, heap (snd (loadFromCloud env w)) = (heap w ++ new)%list)
    /\ List.Forall
         (fun e => syncing e = isSyncing (this w)
                   /\ (event e = Fetch (load_url env) (load_request env)
                       \/ exists ms, event e = Sleep ms)) evs.
Proof.
  rewrite loadFromCloud_body.
  destruct (fetchWithRetry_frame env (load_url env) (load_request env)
              _ 1%nat w eq_refl) as (evs & Hext & Hall & _ & _).
  exists evs.
  destruct (fetchWithRetry env _ _ 1%nat w) as [r w2]. simpl in Hext.
  rewrite Hext.
  assert (Hnil : exists new, heap w = (heap w ++ new)%list)
    by (exists []; now rewrite List.app_nil_r).
  destruct r as [response|e]; simpl; [|auto].
  destruct (ok response); simpl; [|auto].
  destruct (json response) as [msg|d]; simpl; [auto|].
  repeat split; eauto.
Qed.

(** The history of [loadFromCloud] starts with its request, issued under
    the value [isSyncing] has at the call. *)
Lemma loadFromCloud_starts w :
  exists rest,
    log (snd (loadFromCloud env w))
    = (log w
       ++ mkEntry (isSyncing (this w))
            (Fetch (load_url env) (load_request env)) :: rest)%list.
Proof.
  rewrite loadFromCloud_body.
  destruct (fetchWithRetry_frame env (load_url env) (load_request env)
              _ 1%nat w eq_refl) as (evs & Hext & _ & _ & rest & ->).
  exists rest. unfold extends_log in Hext.
  destruct (fetchWithRetry env _ _ 1%nat w) as [[response|e] w2];
    simpl in Hext; subst w2;
    [destruct (ok response); [destruct (json response)|]|]; reflexivity.
Qed.

(** The result objects of [syncData]. *)
Lemma syncData_busy localData w :
  isSyncing (this w) = true ->
  syncData env localData w
  = (Return (mkSyncResult false (Some "already_syncing") None None None), w).
Proof.
  intros Hbusy. unfold syncData, bind, gets. rewrite Hbusy. reflexivity.
Qed.

(** [syncData] from a manager that is not syncing, in one equation.  Both
    calls of [saveToCloud] find [isSyncing] set, by [syncData] itself, and
    return at once. *)
Lemma syncData_idle localData w :
  isSyncing (this w) = false ->
  syncData env localData w
  = match loadFromCloud env (set_isSyncing true w) with
    | (Throw e, w2) =>
        (Return (mkSyncResult false None None None (Some (message e))),
         set_isSyncing false w2)
    | (Return cloudData, w2) =>
        let l := heap w2 !!! localData in
        let c := heap w2 !!! cloudData in
        if String.eqb (hashData env l) (hashData env c)
        then (Return (mkSyncResult true None (Some "no_changes") None None),
              set_isSyncing false w2)
        else if JS.gt (lastSync_or_0 l) (lastSync_or_0 c)
        then (Return (mkSyncResult true None (Some "uploaded") None None),
              set_isSyncing false w2)
        else if JS.gt (lastSync_or_0 c) (lastSync_or_0 l)
        then (Return (mkSyncResult true None (Some "downloaded")
                        (Some cloudData) None),
              set_isSyncing false w2)
        else (Return (mkSyncResult true None (Some "merged")
                        (Some (length (heap w2))) None),
              set_isSyncing false
                (mkWorld (this w2) (dbManager w2)
                   (heap w2 ++ [mergeData l c]) (log w2)))
    end.
Proof.
  intros Hidle.
  destruct (loadFromCloud_frame (set_isSyncing true w))
    as (evs & Hsync & _).
  unfold syncData, bind, gets, modify, finally, try_catch, ret. rewrite Hidle.
  simpl in *.
  destruct (loadFromCloud env (set_isSyncing true w)) as [[cloudData|e] w2];
    simpl in *; [|reflexivity].
  unfold deref, gets. simpl.
  destruct (String.eqb _ _); [reflexivity|].
  destruct (JS.gt (lastSync_or_0 (heap w2 !!! localData)) _).
  { rewrite saveToCloud_busy by assumption. reflexivity. }
  destruct (JS.gt _ _); [reflexivity|].
  unfold alloc. simpl.
  rewrite saveToCloud_busy by assumption. reflexivity.
Qed.

(** No call of [syncData] sends a [PUT], on any branch. *)
Lemma syncData_issues_no_put localData w :
  exists evs,
    log (snd (syncData env localData w)) = (log w ++ evs)%list
    /\ List.Forall (fun e => is_put e = false) evs.
Proof.
  destruct (isSyncing (this w)) eqn:Hsync.
  - rewrite syncData_busy by assumption. exists []. simpl.
    rewrite List.app_nil_r. split; [reflexivity | constructor].
  - rewrite syncData_idle by assumption.
    destruct (loadFromCloud_frame (set_isSyncing true w))
      as (evs & _ & _ & Hlog & _ & Hall).
    exists evs. split.
    + destruct (loadFromCloud env (set_isSyncing true w))
        as [[cloudData|e] w2]; simpl in Hlog; cbv zeta;
        repeat match goal with
               | |- context [if ?b then _ else _] => destruct b
               end; exact Hlog.
    + eapply List.Forall_impl; [|exact Hall].
      intros e [_ [He|[ms He]]]; unfold is_put; rewrite He; reflexivity.
Qed.

End SyncData.

(** C2.  With [isSyncing] already true, [syncData] returns the
    [already_syncing] result and the world is the one it started in: no
    request, no timer, no change.  Otherwise it returns a result, never
    throws, and [isSyncing] is true for the duration of the attempt: the
    history of the call starts with the request of the load, issued with
    [isSyncing] true, every request and timer of the call is issued with
    [isSyncing] true, and [isSyncing] is false when it returns, whichever
    of the five results it is. *)
Theorem syncData_single_flight (env : Env) (localData : loc) (w : World) :
  (isSyncing (this w) = true ->
   syncData env localData w
   = (Return (mkSyncResult false (Some "already_syncing") None None None), w))
  /\ (isSyncing (this w) = false ->
      exists result w' evs,
        syncData env localData w = (Return result, w')
        /\ isSyncing (this w') = false
        /\ log w' = (log w ++ evs)%list
        /\ (exists rest,
              evs = mkEntry true (Fetch (load_url env) (load_request env))
                      :: rest)
        /\ List.Forall (fun e => syncing e = true) evs
        /\ (success result = true
            /\ List.In (action result)
                 [Some "no_changes"; Some "uploaded"; Some "downloaded";
                  Some "merged"]
            \/ success result = false
               /\ reason result = None
               /\ exists msg, result_error result = Some msg)).
Proof.
  split; [apply syncData_busy|].
  intros Hidle. rewrite syncData_idle by assumption.
  destruct (loadFromCloud_frame env (set_isSyncing true w))
    as (evs & _ & _ & Hlog & _ & Hall).
  assert (Hall' : List.Forall (fun e => syncing e = true) evs).
  { eapply List.Forall_impl; [|exact Hall]. simpl. tauto. }
  assert (Hfirst : exists rest,
             evs = mkEntry true (Fetch (load_url env) (load_request env))
                     :: rest).
  { destruct (loadFromCloud_starts env (set_isSyncing true w))
      as (rest & Hstart).
    exists rest. rewrite Hlog in Hstart. simpl in Hstart.
    now apply List.app_inv_head in Hstart. }
  destruct (loadFromCloud env (set_isSyncing true w)) as [[cloudData|e] w2];
    simpl in Hlog; cbv zeta.
  - repeat match goal with
           | |- context [if ?b then _ else _] => destruct b
           end;
      eexists _, _, evs; (split; [reflexivity|]); simpl;
      (split; [reflexivity|]); (split; [exact Hlog|]);
      (split; [exact Hfirst|]);
      (split; [exact Hall'|]); left; split; auto 6.
  - eexists _, _, evs. split; [reflexivity|]. simpl.
    split; [reflexivity|]. split; [exact Hlog|]. split; [exact Hfirst|].
    split; [exact Hall'|].
    right. eauto.
Qed.

Lemma syncData_single_flight_witness :
  syncData (Sample.steady Sample.tie_cloud_snapshot) 0%nat
    (set_isSyncing true (Sample.holding Sample.newer_local_snapshot))
  = (Return (mkSyncResult false (Some "already_syncing") None None None),
     set_isSyncing true (Sample.holding Sample.newer_local_snapshot))
  /\ exists result w' evs,
      syncData (Sample.steady Sample.tie_cloud_snapshot) 0%nat
        (Sample.holding Sample.newer_local_snapshot)
      = (Return result, w')
      /\ isSyncing (this w') = false
      /\ log w' = evs
      /\ (exists rest,
            evs = mkEntry true
                    (Fetch "https://api.jsonbin.io/v3/b/bin/latest"
                       (mkRequest "GET"
                          [("X-Master-Key", "key"); ("X-Bin-Meta", "false")]
                          None))
                    :: rest)
      /\ List.Forall (fun e => syncing e = true) evs.
Proof.
  split.
  - apply (proj1 (syncData_single_flight
                    (Sample.steady Sample.tie_cloud_snapshot) 0%nat
                    (set_isSyncing true
                       (Sample.holding Sample.newer_local_snapshot)))).
    reflexivity.
  - destruct (proj2 (syncData_single_flight
                       (Sample.steady Sample.tie_cloud_snapshot) 0%nat
                       (Sample.holding Sample.newer_local_snapshot))
                eq_refl)
      as (result & w' & evs & Hrun & Hflag & Hlog & Hfirst & Hall & _).
    exists result, w', evs. auto.
Defined.

(** C1, on the code.  With different fingerprints and the local [lastSync]
    above the cloud's, [syncData] answers [uploaded], and the world it leaves
    is the one [loadFromCloud] left, with [isSyncing] cleared: the call of
    [saveToCloud] finds [isSyncing] set and returns without a request.  No
    entry of the call is a [PUT]. *)
Theorem syncData_uploaded_sends_nothing (env : Env) (localData : loc)
    (w : World) (cloudData : loc) (w2 : World) :
  isSyncing (this w) = false ->
  loadFromCloud env (set_isSyncing true w) = (Return cloudData, w2) ->
  hashData env (heap w2 !!! localData) <> hashData env (heap w2 !!! cloudData) ->
  JS.gt (lastSync_or_0 (heap w2 !!! localData))
    (lastSync_or_0 (heap w2 !!! cloudData)) = true ->
  syncData env localData w
  = (Return (mkSyncResult true None (Some "uploaded") None None),
     set_isSyncing false w2)
  /\ exists evs,
      log (snd (syncData env localData w)) = (log w ++ evs)%list
      /\ List.Forall (fun e => is_put e = false) evs.
Proof.
  intros Hidle Hload Hhash Hts.
  assert (Hrun : syncData env localData w
                 = (Return (mkSyncResult true None (Some "uploaded") None None),
                    set_isSyncing false w2)).
  { rewrite syncData_idle by assumption. rewrite Hload. cbv zeta.
    apply String.eqb_neq in Hhash. rewrite Hhash, Hts. reflexivity. }
  split; [exact Hrun|]. rewrite Hrun. simpl.
  destruct (loadFromCloud_frame env (set_isSyncing true w))
    as (evs & _ & _ & Hlog & _ & Hall).
  rewrite Hload in Hlog. simpl in Hlog.
  exists evs. split; [exact Hlog|].
  eapply List.Forall_impl; [|exact Hall].
  intros e [_ [He|[ms He]]]; unfold is_put; rewrite He; reflexivity.
Qed.

(** The local snapshot is newer than the cloud's and differs from it: the
    answer is [uploaded], and the history of the call is the one [GET]. *)
Lemma syncData_uploaded_sends_nothing_witness :
  syncData (Sample.steady Sample.tie_cloud_snapshot) 0%nat
    (Sample.holding Sample.newer_local_snapshot)
  = (Return (mkSyncResult true None (Some "uploaded") None None),
     set_isSyncing false
       (snd (loadFromCloud (Sample.steady Sample.tie_cloud_snapshot)
               (set_isSyncing true
                  (Sample.holding Sample.newer_local_snapshot)))))
  /\ log (snd (syncData (Sample.steady Sample.tie_cloud_snapshot) 0%nat
                 (Sample.holding Sample.newer_local_snapshot)))
     = [mkEntry true
          (Fetch "https://api.jsonbin.io/v3/b/bin/latest"
             (mkRequest "GET"
                [("X-Master-Key", "key"); ("X-Bin-Meta", "false")] None))].
Proof.
  destruct (syncData_uploaded_sends_nothing
              (Sample.steady Sample.tie_cloud_snapshot) 0%nat
              (Sample.holding Sample.newer_local_snapshot) 1%nat
              (snd (loadFromCloud (Sample.steady Sample.tie_cloud_snapshot)
                      (set_isSyncing true
                         (Sample.holding Sample.newer_local_snapshot)))))
    as [Hrun _].
  - reflexivity.
  - vm_compute. reflexivity.
  - vm_compute. discriminate.
  - vm_compute. reflexivity.
  - split; [exact Hrun|]. rewrite Hrun. vm_compute. reflexivity.
Defined.

(** ** The sync queue *)

Section Store.

Lemma store_get_Some q key item :
  store_get q key = Some item -> List.In item q /\ Op.id item = key.
Proof.
  unfold store_get. intros H. apply List.find_some in H as [Hin Hk].
  split; [assumption|]. now apply Z.eqb_eq.
Qed.

Lemma store_get_has_id q key :
  has_id key q -> exists item, store_get q key = Some item.
Proof.
  intros (r & Hin & Hk). unfold store_get.
  destruct (List.find _ q) as [item|] eqn:Hfind; [eauto|].
  exfalso. apply (List.find_none _ _ Hfind) in Hin.
  apply Z.eqb_neq in Hin. congruence.
Qed.

Lemma store_put_In_item q item : List.In item (store_put q item).
Proof.
  induction q as [|r q IH]; simpl; [now left|].
  destruct (Op.id r =? Op.id item); [now left|].
  destruct (Op.id item <? Op.id r); [now left | now right].
Qed.

Lemma store_put_In_old q item r :
  List.In r q -> List.In r (store_put q item) \/ Op.id r = Op.id item.
Proof.
  induction q as [|r0 q IH]; simpl; [tauto|].
  intros [->|Hin].
  - destruct (Z.eqb_spec (Op.id r) (Op.id item)); [now right|].
    destruct (Op.id item <? Op.id r); left; simpl; tauto.
  - destruct (Z.eqb_spec (Op.id r0) (Op.id item)).
    + left. now right.
    + destruct (Op.id item <? Op.id r0).
      * left. simpl. tauto.
      * destruct (IH Hin); [left; now right | now right].
Qed.

Lemma store_put_has_id q item id :
  has_id id q -> has_id id (store_put q item).
Proof.
  intros (r & Hin & Hk).
  destruct (store_put_In_old q item r Hin) as [H|H].
  - now exists r.
  - exists item. split; [apply store_put_In_item | congruence].
Qed.

Lemma store_put_has_synced q item id :
  has_synced id q -> Op.synced item = true ->
  has_synced id (store_put q item).
Proof.
  intros (r & Hin & Hk & Hs) Hitem.
  destruct (store_put_In_old q item r Hin) as [H|H].
  - now exists r.
  - exists item. split; [apply store_put_In_item|]. split; congruence.
Qed.

Lemma mark_synced_has_id q key now id :
  has_id id q -> has_id id (mark_synced q key now).
Proof.
  intros H. unfold mark_synced. destruct (store_get q key); [|assumption].
  now apply store_put_has_id.
Qed.

Lemma mark_synced_has_synced q key now id :
  has_synced id q -> has_synced id (mark_synced q key now).
Proof.
  intros H. unfold mark_synced. destruct (store_get q key); [|assumption].
  now apply store_put_has_synced.
Qed.

Lemma mark_synced_marks q key now :
  has_id key q -> has_synced key (mark_synced q key now).
Proof.
  intros H. unfold mark_synced.
  destruct (store_get_has_id q key H) as (item & Hget). rewrite Hget.
  apply store_get_Some in Hget as [_ Hk].
  eexists. split; [apply store_put_In_item|]. simpl. auto.
Qed.

Lemma has_id_app q extra id : has_id id q -> has_id id (q ++ extra).
Proof.
  intros (r & Hin & Hk). exists r. split; [|assumption].
  apply List.in_app_iff. now left.
Qed.

Lemma has_synced_app q extra id :
  has_synced id q -> has_synced id (q ++ extra).
Proof.
  intros (r & Hin & Hk). exists r. split; [|assumption].
  apply List.in_app_iff. now left.
Qed.

(** The sweep: the records left are those whose key no synced record
    has. *)
Lemma fold_store_delete_In keys : forall q r,
  List.In r (fold_left store_delete keys q)
  <-> List.In r q /\ ~ List.In (Op.id r) keys.
Proof.
  induction keys as [|k keys IH]; intros q r; simpl.
  - tauto.
  - rewrite IH. unfold store_delete. rewrite List.filter_In.
    rewrite negb_true_iff, Z.eqb_neq. intuition congruence.
Qed.

End Store.

Section ProcessSyncQueue.

Variable env : Env.

Lemma markAsSynced_ready id w :
  isReady (dbManager w) = true ->
  markAsSynced env id w
  = (Return tt,
     set_syncQueue
       (mark_synced (syncQueue (dbManager w)) id (Date_now env (log w))) w).
Proof.
  intros Hready.
  unfold markAsSynced, mark_synced, bind, db_get, db_update, with_db, gets,
    modify, ret. rewrite Hready.
  destruct (store_get (syncQueue (dbManager w)) id) as [item|]; simpl.
  - rewrite Hready. reflexivity.
  - destruct w as [t [r q n] h l]. reflexivity.
Qed.

Lemma markAsSynced_not_ready id w :
  isReady (dbManager w) = false ->
  markAsSynced env id w = (Throw null_db, w).
Proof.
  intros Hready.
  unfold markAsSynced, bind, db_get, with_db. rewrite Hready. reflexivity.
Qed.

(** [saveToCloud] only ever adds to the queue. *)
Lemma saveToCloud_queue data w :
  isReady (dbManager (snd (saveToCloud env data w))) = isReady (dbManager w)
  /\ exists extra,
      syncQueue (dbManager (snd (saveToCloud env data w)))
      = (syncQueue (dbManager w) ++ extra)%list.
Proof.
  assert (Hnil : exists extra : list Op.t,
             syncQueue (dbManager w) = (syncQueue (dbManager w) ++ extra)%list)
    by (exists []; now rewrite List.app_nil_r).
  destruct (isSyncing (this w)) eqn:Hsync.
  - rewrite saveToCloud_busy by assumption. simpl. auto.
  - rewrite saveToCloud_idle by assumption. cbv zeta.
    fold (save_attempt env data w).
    destruct (save_attempt_frame env data w) as (evs & rest & Hw2 & _ & _).
    destruct (save_attempt env data w) as [r w2]. simpl in Hw2.
    assert (Hfail : forall e,
               isReady (dbManager (enqueue_failure env data e w2))
               = isReady (dbManager w)
               /\ exists extra,
                   syncQueue (dbManager (enqueue_failure env data e w2))
                   = (syncQueue (dbManager w) ++ extra)%list).
    { intros e. unfold enqueue_failure. rewrite Hw2. simpl.
      destruct (isReady (dbManager w)) eqn:Hr; simpl; rewrite ?Hr; eauto. }
    destruct r as [response|e]; simpl.
    + destruct (ok response); simpl; [rewrite Hw2; simpl; auto|].
      apply Hfail.
    + apply Hfail.
Qed.

(** A turn of the loop never throws, keeps the records of the queue under
    their keys and keeps those that are marked. *)
Lemma processOperation_queue operation w :
  exists w',
    processOperation env operation w = (Return tt, w')
    /\ isReady (dbManager w') = isReady (dbManager w)
    /\ (forall id, has_id id (syncQueue (dbManager w)) ->
                   has_id id (syncQueue (dbManager w')))
    /\ (forall id, has_synced id (syncQueue (dbManager w)) ->
                   has_synced id (syncQueue (dbManager w'))).
Proof.
  assert (Hmark : forall w1,
             isReady (dbManager w1) = isReady (dbManager w) ->
             (forall id, has_id id (syncQueue (dbManager w)) ->
                         has_id id (syncQueue (dbManager w1))) ->
             (forall id, has_synced id (syncQueue (dbManager w)) ->
                         has_synced id (syncQueue (dbManager w1))) ->
             exists w',
               (match markAsSynced env (Op.id operation) w1 with
                | (Return a, w'0) => (Return a, w'0)
                | (Throw _, w'0) => (Return tt, w'0)
                end) = (Return tt, w')
               /\ isReady (dbManager w') = isReady (dbManager w)
               /\ (forall id, has_id id (syncQueue (dbManager w)) ->
                              has_id id (syncQueue (dbManager w')))
               /\ (forall id, has_synced id (syncQueue (dbManager w)) ->
                              has_synced id (syncQueue (dbManager w')))).
  { intros w1 Hr Hid Hsy.
    destruct (isReady (dbManager w1)) eqn:Hr1.
    - rewrite markAsSynced_ready by assumption.
      eexists. split; [reflexivity|]. simpl. split; [congruence|].
      split; intros id H.
      + now apply mark_synced_has_id, Hid.
      + now apply mark_synced_has_synced, Hsy.
    - rewrite markAsSynced_not_ready by assumption.
      eexists. split; [reflexivity|]. split; [congruence|]. auto. }
  unfold processOperation, try_catch, bind, ret.
  destruct (String.eqb (Op.type operation) "save").
  - unfold alloc. simpl.
    match goal with
    | |- context [saveToCloud env ?data ?w0] =>
        destruct (saveToCloud_queue data w0) as (Hr & extra & Hq);
        destruct (saveToCloud env data w0) as [[b|e] w1]
    end; simpl in Hr, Hq.
    + apply Hmark; [assumption| |]; intros id H; rewrite Hq.
      * now apply has_id_app.
      * now apply has_synced_app.
    + eexists. split; [reflexivity|]. split; [assumption|].
      split; intros id H; rewrite Hq.
      * now apply has_id_app.
      * now apply has_synced_app.
  - apply Hmark; auto.
Qed.

(** An operation of another type than [save]: no request, no timer, and
    with the database ready its record is marked. *)
Lemma processOperation_other operation w :
  Op.type operation <> "save" ->
  exists w',
    processOperation env operation w = (Return tt, w')
    /\ this w' = this w /\ heap w' = heap w /\ log w' = log w
    /\ (isReady (dbManager w) = true ->
        has_id (Op.id operation) (syncQueue (dbManager w)) ->
        has_synced (Op.id operation) (syncQueue (dbManager w'))).
Proof.
  intros Htype. apply String.eqb_neq in Htype.
  unfold processOperation, try_catch, bind, ret. rewrite Htype.
  destruct (isReady (dbManager w)) eqn:Hr.
  - rewrite markAsSynced_ready by assumption.
    eexists. split; [reflexivity|]. simpl. repeat split.
    intros _ Hid. now apply mark_synced_marks.
  - rewrite markAsSynced_not_ready by assumption.
    eexists. split; [reflexivity|]. repeat split. discriminate.
Qed.

(** The loop: what is marked stays marked, and every operation of another
    type than [save] is marked by its turn. *)
Lemma for_of_processOperation pending : forall w,
  exists w',
    for_of pending (processOperation env) w = (Return tt, w')
    /\ isReady (dbManager w') = isReady (dbManager w)
    /\ (forall id, has_id id (syncQueue (dbManager w)) ->
                   has_id id (syncQueue (dbManager w')))
    /\ (forall id, has_synced id (syncQueue (dbManager w)) ->
                   has_synced id (syncQueue (dbManager w')))
    /\ (forall operation,
          List.In operation pending ->
          Op.type operation <> "save" ->
          isReady (dbManager w) = true ->
          has_id (Op.id operation) (syncQueue (dbManager w)) ->
          has_synced (Op.id operation) (syncQueue (dbManager w'))).
Proof.
  induction pending as [|op pending IH]; intros w; simpl.
  - exists w. unfold ret. repeat split; auto. intros ? [].
  - unfold bind.
    destruct (processOperation_queue op w) as (w1 & Hrun & Hr1 & Hid1 & Hsy1).
    rewrite Hrun.
    destruct (IH w1) as (w' & Hloop & Hr & Hid & Hsy & Hmarks).
    exists w'. split; [assumption|]. split; [congruence|].
    split; [auto|]. split; [auto|].
    intros operation [<-|Hin] Htype Hready Hhas.
    + destruct (processOperation_other op w Htype)
        as (w1' & Hrun' & _ & _ & _ & Hmark).
      assert (w1' = w1) by congruence. subst w1'. auto.
    + apply Hmarks; auto. congruence.
Qed.

(** The sweep, on a ready database. *)
Lemma clearSyncedOperations_ready w :
  isReady (dbManager w) = true ->
  exists w',
    clearSyncedOperations w = (Return tt, w')
    /\ this w' = this w /\ heap w' = heap w /\ log w' = log w
    /\ forall r,
        List.In r (syncQueue (dbManager w')) ->
        ~ has_synced (Op.id r) (syncQueue (dbManager w)).
Proof.
  intros Hready.
  unfold clearSyncedOperations, bind, db_getAll, with_db, gets.
  rewrite Hready.
  set (q := syncQueue (dbManager w)).
  assert (Hloop : forall ops w0,
             isReady (dbManager w0) = true ->
             for_of ops (fun op => db_delete (Op.id op)) w0
             = (Return tt,
                set_syncQueue
                  (fold_left store_delete (map Op.id ops)
                     (syncQueue (dbManager w0))) w0)).
  { induction ops as [|op ops IH]; intros w0 Hr0; simpl.
    - unfold ret. destruct w0 as [t [r0 q0 n] h l]. reflexivity.
    - unfold bind, db_delete, with_db, modify. rewrite Hr0.
      rewrite IH by assumption. reflexivity. }
  rewrite Hloop by assumption.
  eexists. split; [reflexivity|]. simpl. repeat split.
  intros r Hin (s & Hs & Hk & Hsynced).
  apply fold_store_delete_In in Hin as [_ Hnot]. apply Hnot.
  apply List.in_map_iff. exists s. split; [assumption|].
  apply List.filter_In. auto.
Qed.

End ProcessSyncQueue.

(** An operation of type [save], from a manager that is not syncing: the
    first thing the turn does outside is the [PUT] of its snapshot. *)
Lemma processOperation_save (env : Env) (operation : Op.t) (w : World) :
  Op.type operation = "save" ->
  isSyncing (this w) = false ->
  exists rest,
    log (snd (processOperation env operation w))
    = (log w
       ++ mkEntry true
            (Fetch (save_url env)
               (save_request env
                  (with_meta (Op.data operation) (fresh_meta env w))))
          :: rest)%list.
Proof.
  intros Htype Hidle. apply String.eqb_eq in Htype.
  unfold processOperation, try_catch, bind, ret, alloc. rewrite Htype. simpl.
  set (w0 := mkWorld (this w) (dbManager w) (heap w ++ [Op.data operation])
               (log w)).
  destruct (saveToCloud_idle_world env (length (heap w)) w0 Hidle)
    as (Hlog & _ & _).
  destruct (save_attempt_frame env (length (heap w)) w0)
    as (evs & rest & Hw2 & Hhead & _).
  rewrite Hw2 in Hlog. simpl in Hlog.
  unfold w0 in Hhead at 1. simpl in Hhead.
  rewrite list_lookup_total_middle in Hhead by reflexivity.
  change (fresh_meta env w0) with (fresh_meta env w) in Hhead.
  exists rest. rewrite <- Hhead, <- Hlog.
  destruct (saveToCloud env (length (heap w)) w0) as [[b|e] w1]; simpl;
    [|reflexivity].
  destruct (isReady (dbManager w1)) eqn:Hr.
  - rewrite markAsSynced_ready by assumption. reflexivity.
  - rewrite markAsSynced_not_ready by assumption. reflexivity.
Qed.

(** The query of [getPendingSyncOperations] passes [false], which is no
    key: on an open database it throws, whatever the store holds. *)
Lemma getPendingSyncOperations_throws (w : World) :
  getPendingSyncOperations w
  = (Throw (if isReady (dbManager w) then data_error else null_db), w).
Proof.
  unfold getPendingSyncOperations, db_getByIndex_synced, with_db. simpl.
  destruct (isReady (dbManager w)); reflexivity.
Qed.

(** [processSyncQueue] by the state of the database: the [await] of the
    query is outside every [try], so what the query throws ends the call
    before the loop. *)
Ltac processSyncQueue_cases Hready :=
  unfold processSyncQueue, bind, gets, ret;
  match goal with
  | |- context [isReady (dbManager ?w)] =>
      destruct (isReady (dbManager w)) eqn:Hready; simpl;
      [rewrite getPendingSyncOperations_throws, Hready|]
  end.

(** C10, on the code.  With the database ready and a pending operation of
    another type than [save] in the store, [processSyncQueue] does not reach
    its loop: the query for the pending operations throws a [DataError],
    which ends the call.  The operation is not marked and not deleted: the
    store, and all of the world, is as before, and nothing was sent. *)
Theorem processSyncQueue_other_types_stay (env : Env) (w : World)
    (operation : Op.t) :
  isReady (dbManager w) = true ->
  List.In operation (syncQueue (dbManager w)) ->
  Op.synced operation = false ->
  Op.type operation <> "save" ->
  processSyncQueue env w = (Throw data_error, w)
  /\ List.In operation
       (syncQueue (dbManager (snd (processSyncQueue env w))))
  /\ log (snd (processSyncQueue env w)) = log w.
Proof.
  intros Hready Hin Hpending Htype.
  assert (Hrun : processSyncQueue env w = (Throw data_error, w)).
  { processSyncQueue_cases Hr; [reflexivity | discriminate]. }
  rewrite Hrun. simpl.
  split; [reflexivity|]. split; [assumption | reflexivity].
Qed.

Lemma processSyncQueue_other_types_stay_witness :
  processSyncQueue (Sample.steady Sample.tie_cloud_snapshot) Sample.queued
  = (Throw data_error, Sample.queued)
  /\ List.In Sample.pending_other
       (syncQueue
          (dbManager
             (snd (processSyncQueue (Sample.steady Sample.tie_cloud_snapshot)
                     Sample.queued)))).
Proof.
  destruct (processSyncQueue_other_types_stay
              (Sample.steady Sample.tie_cloud_snapshot) Sample.queued
              Sample.pending_other)
    as (Hrun & Hin & _).
  - reflexivity.
  - simpl. left. reflexivity.
  - reflexivity.
  - discriminate.
  - split; [exact Hrun | exact Hin].
Defined.

(** * More properties *)

(** ** The timelines of [fetchWithRetry] *)

Section Timelines.

Variable env : Env.
Variables (url : string) (options : RequestInit).

(** From attempt 1, the call leaves one of three histories, and its result
    is the answer to the last request of that history. *)
Lemma fetchWithRetry_shapes w :
  exists evs,
    extends_log w (snd (fetchWithRetry env url options 1 w)) evs
    /\ fst (fetchWithRetry env url options 1 w)
       = settle (network env (log w ++ removelast evs) url options)
    /\ (evs = timeline_1 (isSyncing (this w)) url options
        /\ retryable (network env (log w ++ removelast evs) url options)
           = false
        \/ evs = timeline_2 (isSyncing (this w)) url options
           /\ retryable (network env (log w ++ removelast evs) url options)
              = false
        \/ evs = timeline_3 (isSyncing (this w)) url options).
Proof.
  set (b := isSyncing (this w)).
  rewrite (fetchWithRetry_body env url options 1 w). cbv zeta.
  rewrite bool_decide_eq_true_2 by (unfold maxRetries; lia).
  rewrite andb_true_r.
  destruct (retryable (network env (log w) url options)) eqn:H1.
  2:{ exists (timeline_1 b url options). simpl.
      rewrite List.app_nil_r. split; [reflexivity|]. split; [reflexivity|].
      left. split; [reflexivity | exact H1]. }
  rewrite fetchWithRetry_body. cbv zeta.
  rewrite bool_decide_eq_true_2 by (unfold maxRetries; lia).
  rewrite andb_true_r.
  set (w2 := add_event (Sleep (backoff 1)) (add_event (Fetch url options) w)).
  assert (Hlog2 : log w2
                  = (log w ++ removelast (timeline_2 b url options))%list).
  { unfold w2, add_event. simpl. now rewrite <- List.app_assoc. }
  destruct (retryable (network env (log w2) url options)) eqn:H2.
  2:{ exists (timeline_2 b url options). split; [|split].
      - unfold extends_log, w2, add_event. simpl.
        now rewrite <- !List.app_assoc.
      - simpl fst. now rewrite <- Hlog2.
      - right. left. split; [reflexivity|]. now rewrite <- Hlog2. }
  rewrite fetchWithRetry_body. cbv zeta.
  rewrite bool_decide_eq_false_2 by (unfold maxRetries; lia).
  rewrite andb_false_r.
  set (w3 := add_event (Sleep (backoff 2)) (add_event (Fetch url options) w2)).
  assert (Hlog3 : log w3
                  = (log w ++ removelast (timeline_3 b url options))%list).
  { unfold w3, w2, add_event. simpl. now rewrite <- !List.app_assoc. }
  exists (timeline_3 b url options). split; [|split].
  - unfold extends_log, w3, w2, add_event. simpl.
    now rewrite <- !List.app_assoc.
  - simpl fst. now rewrite <- Hlog3.
  - right. right. reflexivity.
Qed.

End Timelines.

(** X1.  A call of [fetchWithRetry] from attempt 1 leaves one request, or two
    requests 2000 ms apart, or three requests 2000 ms and 4000 ms apart: it
    never waits more than 6000 ms in all, and what it returns or raises is
    the answer to its last request. *)
Theorem fetchWithRetry_timeline (env : Env) (url : string)
    (options : RequestInit) (w : World) :
  exists evs,
    extends_log w (snd (fetchWithRetry env url options 1 w)) evs
    /\ (evs = timeline_1 (isSyncing (this w)) url options
        \/ evs = timeline_2 (isSyncing (this w)) url options
        \/ evs = timeline_3 (isSyncing (this w)) url options)
    /\ fst (fetchWithRetry env url options 1 w)
       = settle (network env (log w ++ removelast evs) url options)
    /\ sleep_total evs <= 6000.
Proof.
  destruct (fetchWithRetry_shapes env url options w)
    as (evs & Hext & Hres & Hshape).
  exists evs. split; [assumption|].
  destruct Hshape as [[-> _]|[[-> _]| ->]];
    (split; [tauto|]); (split; [assumption|]); simpl; lia.
Qed.

(** X2.  A thrown error, or a response with a status of 500 or above,
    reaches the caller of [fetchWithRetry] only at the end of the longest
    timeline: after three requests and both waits. *)
Theorem fetchWithRetry_gives_up_late (env : Env) (url : string)
    (options : RequestInit) (w : World) :
  gave_up (fst (fetchWithRetry env url options 1 w)) ->
  extends_log w (snd (fetchWithRetry env url options 1 w))
    (timeline_3 (isSyncing (this w)) url options).
Proof.
  intros Hgave.
  destruct (fetchWithRetry_shapes env url options w)
    as (evs & Hext & Hres & Hshape).
  assert (Hretry : retryable
                     (network env (log w ++ removelast evs) url options)
                   = true).
  { rewrite Hres in Hgave.
    destruct (network env (log w ++ removelast evs) url options); simpl in *;
      [reflexivity | now apply Z.leb_le]. }
  destruct Hshape as [[_ H]|[[_ H]| ->]]; [congruence | congruence | exact Hext].
Qed.

Lemma fetchWithRetry_gives_up_late_witness :
  extends_log Sample.idle
    (snd (fetchWithRetry Sample.offline "url" (mkRequest "GET" [] None) 1
            Sample.idle))
    (timeline_3 false "url" (mkRequest "GET" [] None)).
Proof.
  apply (fetchWithRetry_gives_up_late Sample.offline "url"
           (mkRequest "GET" [] None) Sample.idle).
  vm_compute. exact I.
Defined.

(** ** [loadFromCloud] *)

(** X3.  A load that fails changes nothing but the history: [lastSyncHash],
    the flag, the queue and the objects are as before, so nothing of a
    failed load is queued or kept. *)
Theorem loadFromCloud_failure_leaves_state (env : Env) (w : World)
    (e : Error) :
  fst (loadFromCloud env w) = Throw e ->
  exists evs, extends_log w (snd (loadFromCloud env w)) evs.
Proof.
  rewrite loadFromCloud_body.
  destruct (fetchWithRetry_frame env (load_url env) (load_request env)
              _ 1%nat w eq_refl) as (evs & Hext & _).
  destruct (fetchWithRetry env _ _ 1%nat w) as [[response|e0] w2];
    simpl in Hext; [|intros _; now exists evs].
  destruct (ok response); [|intros _; now exists evs].
  destruct (json response); [intros _; now exists evs | discriminate].
Qed.

Lemma loadFromCloud_failure_leaves_state_witness :
  exists evs,
    extends_log (Sample.holding Sample.tie_local_snapshot)
      (snd (loadFromCloud Sample.offline
              (Sample.holding Sample.tie_local_snapshot))) evs.
Proof.
  apply (loadFromCloud_failure_leaves_state Sample.offline
           (Sample.holding Sample.tie_local_snapshot)
           (mkError "Failed to fetch")).
  vm_compute. reflexivity.
Defined.

(** X4.  A load that succeeds returns a new object that holds the document
    of the answer to the last request, an answer that is [ok];
    [lastSyncHash] is the fingerprint of that document, and the objects
    there were, the flag and the queue are as before. *)
Theorem loadFromCloud_success (env : Env) (w w' : World) (data : loc) :
  loadFromCloud env w = (Return data, w') ->
  exists d evs response,
    heap w' = (heap w ++ [d])%list
    /\ data = length (heap w)
    /\ lastSyncHash (this w') = Some (hashData env d)
    /\ isSyncing (this w') = isSyncing (this w)
    /\ retryAttempts (this w') = retryAttempts (this w)
    /\ dbManager w' = dbManager w
    /\ log w' = (log w ++ evs)%list
    /\ network env (log w ++ removelast evs) (load_url env) (load_request env)
       = inr response
    /\ ok response = true
    /\ json response = inr d.
Proof.
  rewrite loadFromCloud_body.
  destruct (fetchWithRetry_shapes env (load_url env) (load_request env) w)
    as (evs & Hext & Hres & _).
  destruct (fetchWithRetry env _ _ 1%nat w) as [[response|e0] w2];
    simpl in Hext, Hres; [|discriminate].
  destruct (ok response) eqn:Hok; [|discriminate].
  destruct (json response) as [msg|d] eqn:Hjson; [discriminate|].
  intros [= <- <-]. rewrite Hext. simpl.
  exists d, evs, response. repeat split; try reflexivity; try assumption.
  destruct (network env _ _ _) as [e|r]; simpl in Hres; congruence.
Qed.

Lemma loadFromCloud_success_witness :
  exists d evs response,
    heap (snd (loadFromCloud (Sample.flaky Sample.tie_cloud_snapshot)
                 Sample.idle))
    = [d]
    /\ log (snd (loadFromCloud (Sample.flaky Sample.tie_cloud_snapshot)
                   Sample.idle))
       = evs
    /\ network (Sample.flaky Sample.tie_cloud_snapshot) (removelast evs)
         (load_url (Sample.flaky Sample.tie_cloud_snapshot))
         (load_request (Sample.flaky Sample.tie_cloud_snapshot))
       = inr response
    /\ json response = inr d.
Proof.
  destruct (loadFromCloud_success (Sample.flaky Sample.tie_cloud_snapshot)
              Sample.idle
              (snd (loadFromCloud (Sample.flaky Sample.tie_cloud_snapshot)
                      Sample.idle))
              0%nat)
    as (d & evs & response & Hheap & _ & _ & _ & _ & _ & Hlog & Hnet & _ & Hjson).
  - vm_compute. reflexivity.
  - exists d, evs, response. auto.
Defined.

(** ** [syncData], branch by branch *)

Section SyncDataMore.

Variable env : Env.

(** The world after [loadFromCloud], whatever its outcome. *)
Lemma loadFromCloud_world w :
  exists hash new evs,
    snd (loadFromCloud env w)
    = mkWorld
        (mkSyncManager (isSyncing (this w)) hash (retryAttempts (this w)))
        (dbManager w) (heap w ++ new) (log w ++ evs)
    /\ (requests evs <= 3)%nat
    /\ List.Forall (fun e => is_put e = false) evs
    /\ match fst (loadFromCloud env w) with
       | Return data =>
           exists d, new = [d] /\ data = length (heap w)
                     /\ hash = Some (hashData env d)
       | Throw _ => new = [] /\ hash = lastSyncHash (this w)
       end.
Proof.
  rewrite loadFromCloud_body.
  destruct (fetchWithRetry_frame env (load_url env) (load_request env)
              _ 1%nat w eq_refl) as (evs & Hext & Hall & Hreq & _).
  assert (Hput : List.Forall (fun e => is_put e = false) evs).
  { eapply List.Forall_impl; [|exact Hall].
    intros e [_ [He|[ms He]]]; unfold is_put; rewrite He; reflexivity. }
  assert (Hw : w = mkWorld
                 (mkSyncManager (isSyncing (this w)) (lastSyncHash (this w))
                    (retryAttempts (this w)))
                 (dbManager w) (heap w) (log w))
    by (destruct w as [[] ? ? ?]; reflexivity).
  destruct (fetchWithRetry env _ _ 1%nat w) as [r w2]. simpl in Hext.
  unfold extends_log in Hext. subst w2. unfold maxRetries in Hreq.
  assert (Hfail : exists hash new evs0,
             mkWorld (this w) (dbManager w) (heap w) (log w ++ evs)
             = mkWorld
                    (mkSyncManager (isSyncing (this w)) hash
                       (retryAttempts (this w)))
                    (dbManager w) (heap w ++ new) (log w ++ evs0)
             /\ (requests evs0 <= 3)%nat
             /\ List.Forall (fun e => is_put e = false) evs0
             /\ (new = [] /\ hash = lastSyncHash (this w))).
  { exists (lastSyncHash (this w)), [], evs. rewrite List.app_nil_r.
    destruct w as [[] ? ? ?]. simpl.
    split; [reflexivity|]. split; [lia|]. split; [assumption|]. auto. }
  destruct r as [response|e]; simpl; [|exact Hfail].
  destruct (ok response); simpl; [|exact Hfail].
  destruct (json response) as [msg|d]; simpl; [exact Hfail|].
  exists (Some (hashData env d)), [d], evs. simpl.
  split; [reflexivity|]. split; [lia|]. split; [assumption|].
  exists d. auto.
Qed.

End SyncDataMore.

(** [syncData] leaves the database as it is. *)
Lemma syncData_never_saves_db (env : Env) (localData : loc) (w : World) :
  dbManager (snd (syncData env localData w)) = dbManager w.
Proof.
  destruct (isSyncing (this w)) eqn:Hsync.
  - rewrite syncData_busy by assumption. reflexivity.
  - rewrite syncData_idle by assumption.
    destruct (loadFromCloud_world env (set_isSyncing true w))
      as (hash & new & evs & Hw2 & _).
    destruct (loadFromCloud env (set_isSyncing true w)) as [[cloudData|e] w2];
      simpl in Hw2; subst w2; cbv zeta; [|reflexivity].
    repeat match goal with
           | |- context [if ?b then _ else _] => destruct b
           end; reflexivity.
Qed.

(** X5.  [syncData] never saves: on no branch does it send a [PUT], write
    to the queue or reset [retryAttempts], and it makes at most three
    requests.  The objects there were are as before; [lastSyncHash] is the
    only field of the manager it can change. *)
Theorem syncData_never_saves (env : Env) (localData : loc) (w : World) :
  exists hash new evs,
    snd (syncData env localData w)
    = mkWorld
        (mkSyncManager (isSyncing (this w)) hash (retryAttempts (this w)))
        (dbManager w) (heap w ++ new) (log w ++ evs)
    /\ (requests evs <= 3)%nat
    /\ List.Forall (fun e => is_put e = false) evs.
Proof.
  destruct (isSyncing (this w)) eqn:Hsync.
  - rewrite syncData_busy by assumption. simpl.
    exists (lastSyncHash (this w)), [], []. rewrite !List.app_nil_r.
    split; [|split; [unfold requests; simpl; lia | constructor]].
    destruct w as [[] ? ? ?]. simpl in *. now subst.
  - rewrite syncData_idle by assumption.
    destruct (loadFromCloud_world env (set_isSyncing true w))
      as (hash & new & evs & Hw2 & Hreq & Hput & _).
    destruct (loadFromCloud env (set_isSyncing true w)) as [[cloudData|e] w2];
      simpl in Hw2; subst w2; cbv zeta.
    + repeat match goal with
             | |- context [if ?b then _ else _] => destruct b
             end; simpl;
        try (exists hash, new, evs; split; [reflexivity | split; assumption]).
      eexists hash, (new ++ [_])%list, evs. rewrite List.app_assoc.
      split; [reflexivity | split; assumption].
    + simpl. exists hash, new, evs. split; [reflexivity | split; assumption].
Qed.

(** X6.  When the load fails, [syncData] answers [success: false] with the
    message of the error, and apart from the history the world is the one
    it started in. *)
Theorem syncData_load_failure (env : Env) (localData : loc) (w : World)
    (e : Error) :
  isSyncing (this w) = false ->
  fst (loadFromCloud env (set_isSyncing true w)) = Throw e ->
  exists evs,
    fst (syncData env localData w)
    = Return (mkSyncResult false None None None (Some (message e)))
    /\ extends_log w (snd (syncData env localData w)) evs.
Proof.
  intros Hidle Hload. rewrite syncData_idle by assumption.
  destruct (loadFromCloud_world env (set_isSyncing true w))
    as (hash & new & evs & Hw2 & _ & _ & Hout).
  rewrite Hload in Hout. destruct Hout as [-> ->].
  destruct (loadFromCloud env (set_isSyncing true w)) as [r w2].
  simpl in Hload, Hw2. subst r w2. simpl.
  exists evs. split; [reflexivity|].
  unfold extends_log. rewrite List.app_nil_r.
  destruct w as [[] ? ? ?]. simpl in *. now subst.
Qed.

Lemma syncData_load_failure_witness :
  exists evs,
    fst (syncData Sample.offline 0%nat
           (Sample.holding Sample.newer_local_snapshot))
    = Return (mkSyncResult false None None None (Some "Failed to fetch"))
    /\ extends_log (Sample.holding Sample.newer_local_snapshot)
         (snd (syncData Sample.offline 0%nat
                 (Sample.holding Sample.newer_local_snapshot))) evs.
Proof.
  apply (syncData_load_failure Sample.offline 0%nat
           (Sample.holding Sample.newer_local_snapshot)
           (mkError "Failed to fetch")).
  - reflexivity.
  - vm_compute. reflexivity.
Defined.

Lemma ok_not_retryable response :
  ok response = true -> (500 <=? status response) = false.
Proof.
  unfold ok. rewrite andb_true_iff, !Z.leb_le. intros [_ H].
  apply Z.leb_gt. lia.
Qed.

(** One sync against a remote that serves a document with the fingerprint
    of the local snapshot. *)
Lemma syncData_no_changes_step (env : Env) (localData : loc) (w : World)
    (l c : Snapshot) :
  isSyncing (this w) = false ->
  heap w !! localData = Some l ->
  serves env c ->
  hashData env l = hashData env c ->
  syncData env localData w
  = (Return (mkSyncResult true None (Some "no_changes") None None),
     mkWorld
       (mkSyncManager false (Some (hashData env c)) (retryAttempts (this w)))
       (dbManager w) (heap w ++ [c]) (log w ++ [load_entry env])).
Proof.
  intros Hidle Hl Hserves Hhash.
  rewrite syncData_idle by assumption. rewrite loadFromCloud_body.
  rewrite fetchWithRetry_body. cbv zeta.
  destruct (Hserves (log (set_isSyncing true w)))
    as (response & Hnet & Hok & Hjson).
  rewrite Hnet. simpl retryable.
  rewrite (ok_not_retryable _ Hok). simpl.
  rewrite Hok, Hjson. simpl.
  rewrite (lookup_total_app_l (heap w) [c] localData
             (lookup_lt_Some _ _ _ Hl)).
  rewrite (list_lookup_total_middle (heap w) [] c (length (heap w)) eq_refl).
  rewrite (list_lookup_total_correct _ _ _ Hl).
  rewrite Hhash, String.eqb_refl. reflexivity.
Qed.

(** X7.  With an unchanged local snapshot, and a remote that keeps serving a
    document of the same fingerprint, [syncData] answers [no_changes], and
    answers it again when called again; each call makes the one [GET]. *)
Theorem syncData_no_changes_twice (env : Env) (localData : loc) (w : World)
    (l c : Snapshot) :
  isSyncing (this w) = false ->
  heap w !! localData = Some l ->
  serves env c ->
  hashData env l = hashData env c ->
  exists w1 w2,
    syncData env localData w
    = (Return (mkSyncResult true None (Some "no_changes") None None), w1)
    /\ syncData env localData w1
       = (Return (mkSyncResult true None (Some "no_changes") None None), w2)
    /\ log w2 = (log w ++ [load_entry env; load_entry env])%list
    /\ dbManager w2 = dbManager w
    /\ heap w2 !! localData = Some l.
Proof.
  intros Hidle Hl Hserves Hhash.
  eexists _, _. split; [now apply (syncData_no_changes_step env _ _ l c)|].
  split.
  - apply (syncData_no_changes_step env _ _ l c); try assumption.
    + reflexivity.
    + simpl. now apply lookup_app_l_Some.
  - simpl. rewrite <- List.app_assoc. split; [reflexivity|].
    split; [reflexivity|]. now apply lookup_app_l_Some, lookup_app_l_Some.
Qed.

Lemma syncData_no_changes_twice_witness :
  exists w1 w2,
    syncData (Sample.steady Sample.tie_cloud_snapshot) 0%nat
      (Sample.holding Sample.tie_cloud_snapshot)
    = (Return (mkSyncResult true None (Some "no_changes") None None), w1)
    /\ syncData (Sample.steady Sample.tie_cloud_snapshot) 0%nat w1
       = (Return (mkSyncResult true None (Some "no_changes") None None), w2).
Proof.
  destruct (syncData_no_changes_twice
              (Sample.steady Sample.tie_cloud_snapshot) 0%nat
              (Sample.holding Sample.tie_cloud_snapshot)
              Sample.tie_cloud_snapshot Sample.tie_cloud_snapshot)
    as (w1 & w2 & H1 & H2 & _).
  - reflexivity.
  - reflexivity.
  - intros history. eexists. repeat split.
  - reflexivity.
  - exists w1, w2. auto.
Defined.

(** X8.  What the data of a result is.  When [syncData] answers
    [downloaded], the data is the object of the load, holding the loaded
    document [c] as it came, and [c] is strictly newer than the local
    snapshot; when it answers [merged], the data is a new object holding
    [mergeData] of the local snapshot and [c], and neither is strictly
    newer.  The local object is as before in both. *)
Theorem syncData_result_data (env : Env) (localData : loc) (w w' : World)
    (l : Snapshot) (result : SyncResult) :
  isSyncing (this w) = false ->
  heap w !! localData = Some l ->
  syncData env localData w = (Return result, w') ->
  heap w' !! localData = Some l
  /\ (action result = Some "downloaded" ->
      exists c,
        heap w' = (heap w ++ [c])%list
        /\ result_data result = Some (length (heap w))
        /\ JS.gt (lastSync_or_0 c) (lastSync_or_0 l) = true)
  /\ (action result = Some "merged" ->
      exists c,
        heap w' = (heap w ++ [c; mergeData l c])%list
        /\ result_data result = Some (S (length (heap w)))
        /\ JS.gt (lastSync_or_0 c) (lastSync_or_0 l) = false
        /\ JS.gt (lastSync_or_0 l) (lastSync_or_0 c) = false).
Proof.
  intros Hidle Hl. rewrite syncData_idle by assumption.
  destruct (loadFromCloud_world env (set_isSyncing true w))
    as (hash & new & evs & Hw2 & _ & _ & Hout).
  destruct (loadFromCloud env (set_isSyncing true w)) as [[cloudData|e] w2];
    simpl in Hw2, Hout; subst w2; cbv zeta.
  2:{ destruct Hout as [-> _]. intros [= <- <-]. simpl.
      rewrite List.app_nil_r. split; [assumption|]. split; discriminate. }
  destruct Hout as (c & -> & -> & _). simpl.
  rewrite (lookup_total_app_l (heap w) [c] localData
             (lookup_lt_Some _ _ _ Hl)).
  rewrite (list_lookup_total_middle (heap w) [] c (length (heap w)) eq_refl).
  rewrite (list_lookup_total_correct _ _ _ Hl).
  destruct (String.eqb _ _).
  { intros [= <- <-]. simpl. split; [now apply lookup_app_l_Some|].
    split; discriminate. }
  destruct (JS.gt (lastSync_or_0 l) (lastSync_or_0 c)) eqn:Hlc.
  { intros [= <- <-]. simpl. split; [now apply lookup_app_l_Some|].
    split; discriminate. }
  destruct (JS.gt (lastSync_or_0 c) (lastSync_or_0 l)) eqn:Hcl;
    intros [= <- <-]; simpl.
  - split; [now apply lookup_app_l_Some|]. split; [|discriminate].
    intros _. exists c. auto.
  - split; [now apply lookup_app_l_Some, lookup_app_l_Some|].
    split; [discriminate|]. intros _. exists c.
    rewrite <- List.app_assoc, List.length_app. simpl.
    rewrite Nat.add_1_r. auto.
Qed.

Lemma syncData_result_data_witness :
  heap (snd (syncData (Sample.steady Sample.tie_cloud_snapshot) 0%nat
               (Sample.holding Sample.tie_local_snapshot))) !! 0%nat
  = Some Sample.tie_local_snapshot
  /\ exists c,
      heap (snd (syncData (Sample.steady Sample.tie_cloud_snapshot) 0%nat
                   (Sample.holding Sample.tie_local_snapshot)))
      = [Sample.tie_local_snapshot; c;
         mergeData Sample.tie_local_snapshot c].
Proof.
  destruct (syncData_result_data (Sample.steady Sample.tie_cloud_snapshot)
              0%nat (Sample.holding Sample.tie_local_snapshot)
              (snd (syncData (Sample.steady Sample.tie_cloud_snapshot) 0%nat
                      (Sample.holding Sample.tie_local_snapshot)))
              Sample.tie_local_snapshot
              (mkSyncResult true None (Some "merged") (Some 2%nat) None))
    as (Hlocal & _ & Hmerged).
  - reflexivity.
  - reflexivity.
  - vm_compute. reflexivity.
  - split; [exact Hlocal|].
    destruct (Hmerged eq_refl) as (c & Hheap & _). exists c. exact Hheap.
Defined.

(** ** [saveToCloud], outcome by outcome *)

(** X9.  [saveToCloud] returns [false] exactly when [isSyncing] was set, and
    then the world is untouched; in every case [isSyncing] is afterwards
    what it was before the call. *)
Theorem saveToCloud_false_iff_busy (env : Env) (data : loc) (w : World) :
  (fst (saveToCloud env data w) = Return false <-> isSyncing (this w) = true)
  /\ (isSyncing (this w) = true -> snd (saveToCloud env data w) = w)
  /\ isSyncing (this (snd (saveToCloud env data w))) = isSyncing (this w).
Proof.
  destruct (isSyncing (this w)) eqn:Hsync.
  - rewrite saveToCloud_busy by assumption. simpl. tauto.
  - destruct (saveToCloud_idle_world env data w Hsync) as (_ & _ & Hflag).
    split; [|split; [discriminate | exact Hflag]].
    split; [|discriminate].
    rewrite saveToCloud_idle by assumption. cbv zeta.
    destruct (fetchWithRetry env _ _ 1%nat _) as [[response|e] w2];
      [destruct (ok response)|]; discriminate.
Qed.

(** X10.  When the request of [saveToCloud] ends with a response that is
    [ok], the call returns [true], [lastSyncHash] is the fingerprint of the
    snapshot given, without the [_meta] block that was sent,
    [retryAttempts] is 0, and the queue is as before. *)
Theorem saveToCloud_success (env : Env) (w : World) (data : loc)
    (d : Snapshot) :
  isSyncing (this w) = false ->
  heap w !! data = Some d ->
  failure_of (fst (save_attempt env data w)) = None ->
  exists w',
    saveToCloud env data w = (Return true, w')
    /\ this w' = mkSyncManager false (Some (hashData env d)) 0
    /\ dbManager w' = dbManager w.
Proof.
  intros Hidle Hd Hok.
  pose proof (save_attempt_frame env data w) as (evs & rest & Hw2 & _ & _).
  rewrite saveToCloud_idle by assumption. cbv zeta.
  fold (save_attempt env data w).
  destruct (save_attempt env data w) as [[response|e] w2];
    simpl in Hok, Hw2; [|discriminate].
  destruct (ok response); [|discriminate].
  eexists. split; [reflexivity|]. subst w2. simpl.
  rewrite (lookup_total_app_l _ _ _ (lookup_lt_Some _ _ _ Hd)).
  rewrite (list_lookup_total_correct _ _ _ Hd). auto.
Qed.

Lemma saveToCloud_success_witness :
  exists w',
    saveToCloud (Sample.steady Sample.tie_cloud_snapshot) 0%nat
      (Sample.holding Sample.tie_local_snapshot)
    = (Return true, w')
    /\ this w'
       = mkSyncManager false
           (Some (hashData (Sample.steady Sample.tie_cloud_snapshot)
                    Sample.tie_local_snapshot)) 0
    /\ dbManager w' = mkDatabaseManager true [] 1.
Proof.
  apply (saveToCloud_success (Sample.steady Sample.tie_cloud_snapshot)
           (Sample.holding Sample.tie_local_snapshot) 0%nat
           Sample.tie_local_snapshot).
  - reflexivity.
  - reflexivity.
  - vm_compute. reflexivity.
Defined.

(** X11.  When the request of [saveToCloud] fails and the database is not
    ready, the error is raised and nothing is queued: the queue, the key
    generator and [lastSyncHash] are as before, and the failed operation
    leaves no record. *)
Theorem saveToCloud_failure_not_ready (env : Env) (w : World) (data : loc)
    (e : Error) :
  isSyncing (this w) = false ->
  isReady (dbManager w) = false ->
  failure_of (fst (save_attempt env data w)) = Some e ->
  exists w',
    saveToCloud env data w = (Throw e, w')
    /\ dbManager w' = dbManager w
    /\ this w' = this w.
Proof.
  intros Hidle Hready Hfail.
  pose proof (save_attempt_frame env data w) as (evs & rest & Hw2 & _ & _).
  rewrite saveToCloud_idle by assumption. cbv zeta.
  fold (save_attempt env data w).
  destruct (save_attempt env data w) as [r w2]. simpl in Hfail, Hw2.
  assert (Hq : forall e0, enqueue_failure env data e0 w2 = w2).
  { intros e0. unfold enqueue_failure. rewrite Hw2. simpl.
    now rewrite Hready. }
  assert (Hthis : set_isSyncing false w2
                  = mkWorld (this w) (dbManager w) (heap w2) (log w2)).
  { subst w2. destruct w as [[] ? ? ?]. simpl in *. now subst. }
  destruct r as [response|e0]; simpl in Hfail.
  - destruct (ok response); [discriminate|]. injection Hfail as <-.
    eexists. split; [reflexivity|]. rewrite Hq, Hthis. auto.
  - injection Hfail as <-.
    eexists. split; [reflexivity|]. rewrite Hq, Hthis. auto.
Qed.

Lemma saveToCloud_failure_not_ready_witness :
  exists w',
    saveToCloud Sample.offline 0%nat
      (mkWorld (mkSyncManager false None 0) (mkDatabaseManager false [] 1)
         [Sample.tie_local_snapshot] [])
    = (Throw (mkError "Failed to fetch"), w')
    /\ dbManager w' = mkDatabaseManager false [] 1
    /\ this w' = mkSyncManager false None 0.
Proof.
  apply (saveToCloud_failure_not_ready Sample.offline
           (mkWorld (mkSyncManager false None 0)
              (mkDatabaseManager false [] 1)
              [Sample.tie_local_snapshot] [])
           0%nat (mkError "Failed to fetch")).
  - reflexivity.
  - reflexivity.
  - vm_compute. reflexivity.
Defined.

(** ** [processSyncQueue] *)

Section DrainMore.

Variable env : Env.

Lemma nil_of_no_member {A} (l : list A) : (forall x, ~ List.In x l) -> l = [].
Proof.
  destruct l as [|x l]; [reflexivity|]. intros H. destruct (H x). now left.
Qed.

Lemma store_put_In q item r :
  List.In r (store_put q item) -> r = item \/ List.In r q.
Proof.
  induction q as [|r0 q IH]; simpl.
  - intros [<-|[]]. now left.
  - destruct (Op.id r0 =? Op.id item).
    + intros [<-|Hin]; [now left | right; now right].
    + destruct (Op.id item <? Op.id r0).
      * intros [<-|Hin]; [now left | now right].
      * intros [<-|Hin]; [right; now left|].
        destruct (IH Hin); [now left | right; now right].
Qed.

Lemma mark_synced_ids q key now r :
  List.In r (mark_synced q key now) -> has_id (Op.id r) q.
Proof.
  unfold mark_synced.
  destruct (store_get q key) as [item|] eqn:Hget; [|intros H; now exists r].
  apply store_get_Some in Hget as [Hitem Hk].
  intros Hin. apply store_put_In in Hin as [->|Hin].
  - exists item. split; [assumption | reflexivity].
  - now exists r.
Qed.

(** The sweep on a ready database, as one state change. *)
Lemma clearSyncedOperations_world w :
  isReady (dbManager w) = true ->
  clearSyncedOperations w
  = (Return tt,
     set_syncQueue
       (fold_left store_delete
          (map Op.id
             (List.filter (fun op => Op.synced op) (syncQueue (dbManager w))))
          (syncQueue (dbManager w))) w).
Proof.
  intros Hready.
  unfold clearSyncedOperations, bind, db_getAll, with_db, gets.
  rewrite Hready.
  generalize (List.filter (fun op => Op.synced op) (syncQueue (dbManager w))).
  intros ops. revert w Hready.
  induction ops as [|op ops IH]; intros w Hready; simpl.
  - unfold ret. destruct w as [t [r0 q0 n] h l]. reflexivity.
  - unfold bind, db_delete, with_db, modify. rewrite Hready.
    rewrite IH by assumption. reflexivity.
Qed.

End DrainMore.

(** X12.  [processSyncQueue] has no effect in any state.  With the database
    not ready it returns at once; with the database ready the query for the
    pending operations throws a [DataError], outside every [try], and the
    call ends with it.  In both cases the world is as before: nothing is
    sent, no record is marked and none is deleted. *)
Theorem processSyncQueue_no_effect (env : Env) (w : World) :
  processSyncQueue env w
  = (if isReady (dbManager w) then Throw data_error else Return tt, w).
Proof. processSyncQueue_cases Hready; reflexivity. Qed.

(** ** The store [syncQueue] under its invariant *)

Section StoreWf.

Lemma keys_ascend_cons r q :
  keys_ascend (r :: q)
  <-> keys_ascend q /\ List.Forall (fun b => Op.id r < Op.id b) q.
Proof.
  unfold keys_ascend. split.
  - intros H. inversion H; subst. auto.
  - intros [H1 H2]. now constructor.
Qed.

Lemma keys_ascend_map f q :
  (forall r, Op.id (f r) = Op.id r) ->
  keys_ascend q -> keys_ascend (map f q).
Proof.
  intros Hf. induction q as [|r q IH]; simpl; [constructor|].
  rewrite !keys_ascend_cons. intros [Hq Hr]. split; [now apply IH|].
  rewrite List.Forall_map. eapply List.Forall_impl; [|exact Hr].
  intros b Hb. now rewrite !Hf.
Qed.

Lemma keys_ascend_filter f q :
  keys_ascend q -> keys_ascend (List.filter f q).
Proof.
  induction q as [|r q IH]; simpl; [constructor|].
  rewrite keys_ascend_cons. intros [Hq Hr].
  destruct (f r); [|now apply IH].
  apply keys_ascend_cons. split; [now apply IH|].
  rewrite List.Forall_forall in *. intros b Hb.
  apply Hr. now apply List.filter_In in Hb.
Qed.

Lemma keys_ascend_snoc q r :
  keys_ascend q -> List.Forall (fun a => Op.id a < Op.id r) q ->
  keys_ascend (q ++ [r]).
Proof.
  induction q as [|a q IH]; simpl; intros Hq Hr.
  - repeat constructor.
  - apply keys_ascend_cons in Hq as [Hq Ha].
    apply List.Forall_cons_iff in Hr as [Har Hr].
    apply keys_ascend_cons. split; [now apply IH|].
    apply List.Forall_app. split; [assumption | now repeat constructor].
Qed.

(** Writing over a key the store has, in a store whose keys ascend,
    replaces that record where it is. *)
Lemma store_put_replace q item :
  keys_ascend q ->
  has_id (Op.id item) q ->
  store_put q item
  = map (fun r => if Op.id r =? Op.id item then item else r) q.
Proof.
  induction q as [|r q IH]; simpl; intros Hq Hid.
  - destruct Hid as (r & [] & _).
  - apply keys_ascend_cons in Hq as [Hq Hr].
    destruct (Z.eqb_spec (Op.id r) (Op.id item)) as [Heq|Hne].
    + f_equal. symmetry. rewrite <- (List.map_id q) at 2.
      apply List.map_ext_in. intros b Hb.
      rewrite List.Forall_forall in Hr. specialize (Hr b Hb).
      destruct (Z.eqb_spec (Op.id b) (Op.id item)); [lia | reflexivity].
    + assert (Hid' : has_id (Op.id item) q).
      { destruct Hid as (b & [<-|Hb] & Hbid); [congruence | now exists b]. }
      destruct (Z.ltb_spec (Op.id item) (Op.id r)) as [Hlt|Hge].
      * exfalso. destruct Hid' as (b & Hb & Hbid).
        rewrite List.Forall_forall in Hr. specialize (Hr b Hb). lia.
      * f_equal. now apply IH.
Qed.

(** [markAsSynced] on a store whose keys ascend: the record of the key,
    when there is one, is marked where it is; the others are as before. *)
Lemma mark_synced_map q key now :
  keys_ascend q ->
  mark_synced q key now
  = map (fun r => if Op.id r =? key then set_synced now r else r) q.
Proof.
  intros Hq. unfold mark_synced.
  destruct (store_get q key) as [item|] eqn:Hget.
  - apply store_get_Some in Hget as [Hin Hk]. subst key.
    rewrite store_put_replace; [|assumption | now exists item].
    apply List.map_ext_in. intros r Hr. simpl.
    destruct (Z.eqb_spec (Op.id r) (Op.id item)) as [Heq|]; [|reflexivity].
    assert (r = item) as ->; [|reflexivity].
    clear - Hq Hin Hr Heq. induction q as [|a q IH]; [destruct Hin|].
    apply keys_ascend_cons in Hq as [Hq Ha].
    rewrite List.Forall_forall in Ha.
    destruct Hin as [->|Hin], Hr as [->|Hr]; try reflexivity.
    + specialize (Ha r Hr). lia.
    + specialize (Ha item Hin). lia.
    + now apply IH.
  - rewrite <- (List.map_id q) at 1. apply List.map_ext_in. intros r Hr.
    destruct (Z.eqb_spec (Op.id r) key) as [Heq|]; [|reflexivity].
    unfold store_get in Hget. apply (List.find_none _ _ Hget) in Hr.
    apply Z.eqb_neq in Hr. congruence.
Qed.

(** The sweep on a store whose keys ascend keeps the pending records. *)
Lemma sweep_filter q :
  keys_ascend q ->
  fold_left store_delete
    (map Op.id (List.filter (fun op => Op.synced op) q)) q
  = pending_of q.
Proof.
  intros Hq.
  assert (Hgen : forall keys q0,
             fold_left store_delete keys q0
             = List.filter
                 (fun r => negb (existsb (fun k => Op.id r =? k) keys)) q0).
  { induction keys as [|k keys IH]; intros q0; simpl.
    - induction q0 as [|r q0 IHq]; simpl; [reflexivity | now f_equal].
    - rewrite IH. unfold store_delete.
      induction q0 as [|r q0 IHq]; simpl; [reflexivity|].
      destruct (Op.id r =? k); simpl; [assumption|].
      destruct (existsb _ keys); simpl; [assumption | now f_equal]. }
  rewrite Hgen. unfold pending_of. apply List.filter_ext_in. intros r Hr.
  destruct (Op.synced r) eqn:Hs; simpl.
  - apply negb_false_iff, List.existsb_exists. exists (Op.id r).
    split; [|apply Z.eqb_refl].
    apply List.in_map. apply List.filter_In. auto.
  - apply negb_true_iff. apply not_true_is_false. intros Hex.
    apply List.existsb_exists in Hex as (k & Hk & Hrk).
    apply Z.eqb_eq in Hrk. subst k.
    apply List.in_map_iff in Hk as (s & Hsid & Hsin).
    apply List.filter_In in Hsin as [Hsin Hss].
    assert (s = r) as ->; [|congruence].
    clear - Hq Hsin Hr Hsid. induction q as [|a q IH]; [destruct Hr|].
    apply keys_ascend_cons in Hq as [Hq Ha].
    rewrite List.Forall_forall in Ha.
    destruct Hsin as [->|Hsin], Hr as [->|Hr]; try reflexivity.
    + specialize (Ha r Hr). lia.
    + specialize (Ha s Hsin). lia.
    + now apply IH.
Qed.

Lemma store_get_app q extra key r :
  store_get q key = Some r -> store_get (q ++ extra) key = Some r.
Proof.
  unfold store_get. induction q as [|a q IH]; simpl; [discriminate|].
  destruct (Op.id a =? key); [trivial | exact IH].
Qed.

Lemma store_get_snoc q record :
  List.Forall (fun r => Op.id r < Op.id record) q ->
  store_get (q ++ [record]) (Op.id record) = Some record.
Proof.
  unfold store_get. induction q as [|a q IH]; simpl; intros Hn.
  - now rewrite Z.eqb_refl.
  - apply List.Forall_cons_iff in Hn as [Ha Hn].
    destruct (Z.eqb_spec (Op.id a) (Op.id record)); [lia | now apply IH].
Qed.

End StoreWf.

Section StoreInvariant.

Variable env : Env.

Lemma store_wf_add ready q n record :
  store_wf (mkDatabaseManager ready q n) ->
  Op.id record = n ->
  store_wf (mkDatabaseManager ready (q ++ [record]) (n + 1)).
Proof.
  intros [Hq Hn] Hid. simpl in *. split; simpl.
  - apply keys_ascend_snoc; [assumption|].
    eapply List.Forall_impl; [|exact Hn]. intros a Ha. simpl in Ha. lia.
  - apply List.Forall_app. split.
    + eapply List.Forall_impl; [|exact Hn]. intros a Ha. simpl in Ha. lia.
    + repeat constructor. lia.
Qed.

Lemma store_wf_mark ready q n key now :
  store_wf (mkDatabaseManager ready q n) ->
  store_wf (mkDatabaseManager ready (mark_synced q key now) n).
Proof.
  intros [Hq Hn]. simpl in *. rewrite mark_synced_map by assumption.
  split; simpl.
  - apply keys_ascend_map; [|assumption].
    intros r. now destruct (Op.id r =? key).
  - rewrite List.Forall_map. eapply List.Forall_impl; [|exact Hn].
    intros r Hr. now destruct (Op.id r =? key).
Qed.

Lemma store_wf_sweep ready q n :
  store_wf (mkDatabaseManager ready q n) ->
  store_wf (mkDatabaseManager ready (pending_of q) n).
Proof.
  intros [Hq Hn]. simpl in *. split; simpl.
  - now apply keys_ascend_filter.
  - rewrite List.Forall_forall in *. intros r Hr.
    apply Hn. now apply List.filter_In in Hr.
Qed.

(** What [saveToCloud] does to the database: nothing, or one record more
    under the key of the generator. *)
Lemma saveToCloud_db data w :
  dbManager (snd (saveToCloud env data w)) = dbManager w
  \/ exists record,
      Op.id record = nextKey (dbManager w)
      /\ Op.type record = "save"
      /\ Op.synced record = false
      /\ dbManager (snd (saveToCloud env data w))
         = mkDatabaseManager (isReady (dbManager w))
             (syncQueue (dbManager w) ++ [record])
             (nextKey (dbManager w) + 1).
Proof.
  destruct (isSyncing (this w)) eqn:Hsync.
  { rewrite saveToCloud_busy by assumption. now left. }
  rewrite saveToCloud_idle by assumption. cbv zeta.
  fold (save_attempt env data w).
  destruct (save_attempt_frame env data w) as (evs & rest & Hw2 & _ & _).
  destruct (save_attempt env data w) as [r w2]. simpl in Hw2.
  assert (Hfail : forall e,
             dbManager (enqueue_failure env data e w2) = dbManager w
             \/ exists record,
                 Op.id record = nextKey (dbManager w)
                 /\ Op.type record = "save"
                 /\ Op.synced record = false
                 /\ dbManager (enqueue_failure env data e w2)
                    = mkDatabaseManager (isReady (dbManager w))
                        (syncQueue (dbManager w) ++ [record])
                        (nextKey (dbManager w) + 1)).
  { intros e. unfold enqueue_failure. rewrite Hw2. simpl.
    destruct (isReady (dbManager w)) eqn:Hr; [|now left].
    right. eexists. split; [|split; [|split]]; cycle 3.
    { unfold set_nextKey, set_syncQueue. simpl. rewrite Hr. reflexivity. }
    all: reflexivity. }
  destruct r as [response|e]; simpl.
  - destruct (ok response); simpl; [rewrite Hw2; now left | apply Hfail].
  - apply Hfail.
Qed.

Lemma saveToCloud_store_wf data w :
  store_wf (dbManager w) ->
  store_wf (dbManager (snd (saveToCloud env data w))).
Proof.
  intros Hwf. destruct (saveToCloud_db data w) as [->|(record & Hid & _ & _ & ->)];
    [assumption|].
  destruct (dbManager w) as [ready q n]. now apply store_wf_add.
Qed.

Lemma markAsSynced_store_wf id w :
  store_wf (dbManager w) ->
  store_wf (dbManager (snd (markAsSynced env id w))).
Proof.
  intros Hwf. destruct (isReady (dbManager w)) eqn:Hready.
  - rewrite markAsSynced_ready by assumption. simpl.
    destruct (dbManager w) as [ready q n]. now apply store_wf_mark.
  - rewrite markAsSynced_not_ready by assumption. assumption.
Qed.

End StoreInvariant.

(** X16.  The store [syncQueue] stays as IndexedDB keeps it: if the keys
    ascend and the key generator is above them, the same holds after
    [addToSyncQueue], [markAsSynced], [clearSyncedOperations],
    [saveToCloud], [syncData] and [processSyncQueue]. *)
Theorem store_wf_preserved (env : Env) (w : World) :
  store_wf (dbManager w) ->
  (forall operation,
      store_wf (dbManager (snd (addToSyncQueue env operation w))))
  /\ (forall id, store_wf (dbManager (snd (markAsSynced env id w))))
  /\ store_wf (dbManager (snd (clearSyncedOperations w)))
  /\ (forall data, store_wf (dbManager (snd (saveToCloud env data w))))
  /\ (forall localData,
        store_wf (dbManager (snd (syncData env localData w))))
  /\ store_wf (dbManager (snd (processSyncQueue env w))).
Proof.
  intros Hwf. split; [|split; [|split; [|split; [|split]]]].
  - intros operation.
    unfold addToSyncQueue, bind, deref, gets, db_add, with_db.
    destruct (isReady (dbManager w)) eqn:Hready; simpl; [|assumption].
    rewrite Hready. destruct (dbManager w) as [ready q n].
    simpl in *. subst. now apply store_wf_add.
  - intros id. now apply markAsSynced_store_wf.
  - destruct (isReady (dbManager w)) eqn:Hready.
    + rewrite clearSyncedOperations_world by assumption. simpl.
      rewrite sweep_filter by apply Hwf. rewrite Hready.
      destruct (dbManager w) as [ready q n]. simpl in *. subst.
      now apply store_wf_sweep.
    + unfold clearSyncedOperations, bind, db_getAll, with_db.
      rewrite Hready. assumption.
  - intros data. now apply saveToCloud_store_wf.
  - intros localData.
    rewrite syncData_never_saves_db. assumption.
  - processSyncQueue_cases Hready; assumption.
Qed.

Lemma sample_queued_wf : store_wf (dbManager Sample.queued).
Proof.
  split; simpl.
  - repeat constructor; simpl; lia.
  - repeat constructor; simpl; lia.
Qed.

Lemma store_wf_preserved_witness :
  store_wf
    (dbManager
       (snd (processSyncQueue Sample.offline Sample.queued)))
  /\ store_wf
       (dbManager
          (snd (saveToCloud Sample.offline 0%nat Sample.queued))).
Proof.
  destruct (store_wf_preserved Sample.offline Sample.queued sample_queued_wf)
    as (_ & _ & _ & Hsave & _ & Hdrain).
  split; [exact Hdrain | exact (Hsave 0%nat)].
Defined.

(** X17.  [markAsSynced(id)] on a ready database marks the record of the
    key where it is, with the time of the call, leaves every other record
    as it was, and takes exactly that operation out of the pending ones;
    with no record under the key nothing changes. *)
Theorem markAsSynced_effect (env : Env) (id : Z) (w : World) :
  isReady (dbManager w) = true ->
  keys_ascend (syncQueue (dbManager w)) ->
  exists w',
    markAsSynced env id w = (Return tt, w')
    /\ syncQueue (dbManager w')
       = map (fun r => if Op.id r =? id
                       then set_synced (Date_now env (log w)) r else r)
           (syncQueue (dbManager w))
    /\ pending_of (syncQueue (dbManager w'))
       = List.filter (fun r => negb (Op.id r =? id))
           (pending_of (syncQueue (dbManager w)))
    /\ (~ has_id id (syncQueue (dbManager w)) -> w' = w)
    /\ this w' = this w /\ heap w' = heap w /\ log w' = log w
    /\ nextKey (dbManager w') = nextKey (dbManager w).
Proof.
  intros Hready Hq. rewrite markAsSynced_ready by assumption.
  eexists. split; [reflexivity|]. simpl.
  rewrite mark_synced_map by assumption.
  split; [reflexivity|]. split; [|split; [|auto]].
  - unfold pending_of. clear Hq.
    induction (syncQueue (dbManager w)) as [|r q IH]; [reflexivity|].
    cbn [map List.filter].
    destruct (Op.id r =? id) eqn:Hid; destruct (Op.synced r) eqn:Hs;
      cbn [set_synced Op.synced Bool.eqb List.filter negb];
      rewrite ?Hs, ?Hid; cbn [Bool.eqb negb List.filter];
      rewrite ?Hid; cbn [negb]; rewrite IH; reflexivity.
  - intros Hno. destruct w as [t [ready q n] h l]. simpl in *.
    unfold set_syncQueue. simpl. f_equal. f_equal.
    rewrite <- (List.map_id q) at 2. apply List.map_ext_in. intros r Hr.
    destruct (Z.eqb_spec (Op.id r) id) as [Heq|]; [|reflexivity].
    exfalso. apply Hno. now exists r.
Qed.

Lemma markAsSynced_effect_witness :
  exists w',
    markAsSynced Sample.offline 1 Sample.queued = (Return tt, w')
    /\ syncQueue (dbManager w')
       = [set_synced 1700000000000 Sample.pending_other; Sample.pending_save]
    /\ pending_of (syncQueue (dbManager w')) = [Sample.pending_save].
Proof.
  destruct (markAsSynced_effect Sample.offline 1 Sample.queued)
    as (w' & Hrun & Hq & Hp & _).
  - reflexivity.
  - apply sample_queued_wf.
  - exists w'. split; [exact Hrun|]. split; [exact Hq | exact Hp].
Defined.

(** X18.  [clearSyncedOperations] on a ready database keeps exactly the
    pending records, in their order, and touches nothing else. *)
Theorem clearSyncedOperations_keeps_pending (w : World) :
  isReady (dbManager w) = true ->
  keys_ascend (syncQueue (dbManager w)) ->
  clearSyncedOperations w
  = (Return tt, set_syncQueue (pending_of (syncQueue (dbManager w))) w).
Proof.
  intros Hready Hq. rewrite clearSyncedOperations_world by assumption.
  now rewrite sweep_filter.
Qed.

Lemma clearSyncedOperations_keeps_pending_witness :
  clearSyncedOperations
    (set_syncQueue
       [set_synced 1700000000000 Sample.pending_other; Sample.pending_save]
       Sample.queued)
  = (Return tt, set_syncQueue [Sample.pending_save] Sample.queued).
Proof.
  apply (clearSyncedOperations_keeps_pending
           (set_syncQueue
              [set_synced 1700000000000 Sample.pending_other;
               Sample.pending_save]
              Sample.queued)).
  - reflexivity.
  - repeat constructor; simpl; lia.
Defined.

(** X19.  [addToSyncQueue] on a ready store returns the key of the
    generator; the record it stores is read back by [get] under that key,
    is the last of the records that are not marked synced, and every record
    there was is still read under its key.  The query of
    [getPendingSyncOperations] does not answer it: it throws. *)
Theorem addToSyncQueue_then_get (env : Env) (operation : Operation)
    (w : World) :
  isReady (dbManager w) = true ->
  store_wf (dbManager w) ->
  exists w' record,
    addToSyncQueue env operation w = (Return (nextKey (dbManager w)), w')
    /\ record
       = Op.mk (nextKey (dbManager w)) (op_type operation)
           (heap w !!! op_data operation) (op_error operation)
           (Date_now env (log w)) false None
    /\ db_get (nextKey (dbManager w)) w' = (Return (Some record), w')
    /\ pending_of (syncQueue (dbManager w'))
       = (pending_of (syncQueue (dbManager w)) ++ [record])%list
    /\ getPendingSyncOperations w' = (Throw data_error, w')
    /\ (forall key r,
          store_get (syncQueue (dbManager w)) key = Some r ->
          store_get (syncQueue (dbManager w')) key = Some r).
Proof.
  intros Hready [Hq Hn].
  unfold addToSyncQueue, bind, deref, gets, db_add, with_db. simpl.
  rewrite Hready. eexists _, _. split; [reflexivity|]. split; [reflexivity|].
  rewrite getPendingSyncOperations_throws.
  unfold db_get, with_db, gets.
  simpl. rewrite Hready.
  split; [|split; [|split; [reflexivity | intros key r; apply store_get_app]]].
  - f_equal. f_equal.
    match goal with
    | |- store_get (_ ++ [?record]) _ = _ =>
        apply (store_get_snoc (syncQueue (dbManager w)) record Hn)
    end.
  - unfold pending_of. rewrite List.filter_app. reflexivity.
Qed.

Lemma addToSyncQueue_then_get_witness :
  exists w' record,
    addToSyncQueue Sample.offline (mkOperation "save" 0%nat "unreachable")
      (mkWorld (mkSyncManager false None 0)
         (mkDatabaseManager true [Sample.pending_other; Sample.pending_save] 3)
         [Sample.newer_local_snapshot] [])
    = (Return 3, w')
    /\ record
       = Op.mk 3 "save" Sample.newer_local_snapshot "unreachable"
           1700000000000 false None
    /\ db_get 3 w' = (Return (Some record), w').
Proof.
  destruct (addToSyncQueue_then_get Sample.offline
              (mkOperation "save" 0%nat "unreachable")
              (mkWorld (mkSyncManager false None 0)
                 (mkDatabaseManager true
                    [Sample.pending_other; Sample.pending_save] 3)
                 [Sample.newer_local_snapshot] []))
    as (w' & record & Hrun & Hrec & Hget & _).
  - reflexivity.
  - apply sample_queued_wf.
  - exists w', record. split; [exact Hrun|]. split; [exact Hrec | exact Hget].
Defined.

(** ** The queue over the calls of the manager *)

Section QueueGrows.

Variable env : Env.

Lemma run_call_db w c :
  dbManager (run_call env w c) = dbManager w
  \/ exists record,
      Op.id record = nextKey (dbManager w)
      /\ Op.type record = "save"
      /\ Op.synced record = false
      /\ dbManager (run_call env w c)
         = mkDatabaseManager (isReady (dbManager w))
             (syncQueue (dbManager w) ++ [record])
             (nextKey (dbManager w) + 1).
Proof.
  destruct c as [|data|localData|]; simpl.
  - left. destruct (loadFromCloud_frame env w) as (evs & _ & Hdb & _).
    exact Hdb.
  - apply saveToCloud_db.
  - left. apply syncData_never_saves_db.
  - left. processSyncQueue_cases Hready; reflexivity.
Qed.

Lemma run_calls_db calls : forall w,
  exists added,
    dbManager (run_calls env calls w)
    = mkDatabaseManager (isReady (dbManager w))
        (syncQueue (dbManager w) ++ added)
        (nextKey (dbManager w) + Z.of_nat (length added))
    /\ List.Forall
         (fun r => Op.type r = "save" /\ Op.synced r = false) added.
Proof.
  induction calls as [|c calls IH]; intros w; simpl.
  - exists []. rewrite List.app_nil_r, Z.add_0_r. split; [|constructor].
    now destruct (dbManager w).
  - destruct (IH (run_call env w c)) as (added & Hdb & Hall).
    rewrite Hdb.
    destruct (run_call_db w c) as [->|(record & _ & Htype & Hsynced & ->)].
    + exists added. split; [reflexivity | assumption].
    + exists (record :: added). split.
      * cbn [isReady syncQueue nextKey length].
        rewrite <- List.app_assoc. f_equal. lia.
      * constructor; [split|]; assumption.
Qed.

End QueueGrows.

(** X30.  The manager only ever adds to the queue.  After any sequence of
    [loadFromCloud], [saveToCloud], [syncData] and [processSyncQueue] calls
    the store holds the records it held, unchanged and in their places,
    followed by new records that are all pending operations of type
    [save]; the key generator has advanced by their number.  No record is
    marked synced or deleted. *)
Theorem syncQueue_only_grows (env : Env) (calls : list ManagerCall)
    (w : World) :
  exists added,
    syncQueue (dbManager (run_calls env calls w))
    = (syncQueue (dbManager w) ++ added)%list
    /\ nextKey (dbManager (run_calls env calls w))
       = nextKey (dbManager w) + Z.of_nat (length added)
    /\ isReady (dbManager (run_calls env calls w)) = isReady (dbManager w)
    /\ List.Forall
         (fun r => Op.type r = "save" /\ Op.synced r = false) added.
Proof.
  destruct (run_calls_db env calls w) as (added & Hdb & Hall).
  exists added. rewrite Hdb. simpl. auto.
Qed.

(** Two failed saves and a drain in between: both saves are in the queue. *)
Example syncQueue_only_grows_example :
  map Op.id
    (syncQueue
       (dbManager
          (run_calls Sample.offline
             [CallSave 0%nat; CallProcessQueue; CallSave 0%nat]
             (Sample.holding Sample.newer_local_snapshot))))
  = [1; 2].
Proof. vm_compute. reflexivity. Qed.

(** ** More on merging *)

Section MergeMore.

Variable key : KeyName.

Lemma step_keys m item :
  JsMap.keys (mergeArrays_step key m item)
  = if List.in_dec value_eq_dec (item_get item key) (JsMap.keys m)
    then JsMap.keys m
    else (JsMap.keys m ++ [item_get item key])%list.
Proof.
  unfold mergeArrays_step. cbv zeta.
  destruct (List.in_dec value_eq_dec (item_get item key) (JsMap.keys m))
    as [Hin|Hout].
  - destruct (JsMap.get m (item_get item key)) as [stored|] eqn:Hget.
    + destruct (JS.gt _ _); [|reflexivity].
      now apply JsMapFacts.keys_set_present.
    + apply JsMapFacts.get_None in Hget. contradiction.
  - pose proof (proj2 (JsMapFacts.get_None m (item_get item key)) Hout) as ->.
    now apply JsMapFacts.keys_set_absent.
Qed.

Lemma fold_keys items : forall m,
  JsMap.keys (fold_left (mergeArrays_step key) items m)
  = fold_left
      (fun acc k => if List.in_dec value_eq_dec k acc then acc
                    else (acc ++ [k])%list)
      (map (fun item => item_get item key) items) (JsMap.keys m).
Proof.
  induction items as [|item items IH]; intros m; simpl; [reflexivity|].
  rewrite IH, step_keys. reflexivity.
Qed.

(** Items of new, different keys are entered in their order. *)
Lemma fold_fresh items : forall m,
  List.NoDup (map (fun item => item_get item key) items) ->
  (forall item, List.In item items ->
                ~ List.In (item_get item key) (JsMap.keys m)) ->
  fold_left (mergeArrays_step key) items m
  = (m ++ entries_of key items)%list.
Proof.
  induction items as [|item items IH]; intros m Hnd Hnew; simpl.
  - now rewrite List.app_nil_r.
  - apply List.NoDup_cons_iff in Hnd as [Hitem Hnd].
    assert (Hget : JsMap.get m (item_get item key) = None).
    { apply JsMapFacts.get_None. apply Hnew. now left. }
    unfold mergeArrays_step at 2. cbv zeta. rewrite Hget.
    assert (Hset : JsMap.set m (item_get item key) item
                   = (m ++ [(item_get item key, item)])%list).
    { clear - Hget. induction m as [|[k v] m IHm]; simpl in *; [reflexivity|].
      destruct (decide (k = item_get item key)); [discriminate|].
      f_equal. now apply IHm. }
    rewrite Hset, IH; [now rewrite <- List.app_assoc | assumption |].
    intros x Hx. unfold JsMap.keys. rewrite List.map_app, List.in_app_iff.
    simpl. intros [Hin|[Heq|[]]].
    + apply (Hnew x); [now right | assumption].
    + apply Hitem. rewrite Heq. apply List.in_map_iff. now exists x.
Qed.

(** Items that do not beat what the [Map] holds under their keys change
    nothing. *)
Lemma fold_unchanged items : forall m,
  (forall item, List.In item items ->
                exists stored,
                  JsMap.get m (item_get item key) = Some stored
                  /\ JS.gt (Item.timestamp item) (Item.timestamp stored)
                     = false) ->
  fold_left (mergeArrays_step key) items m = m.
Proof.
  induction items as [|item items IH]; intros m H; simpl; [reflexivity|].
  destruct (H item) as (stored & Hget & Hgt); [now left|].
  unfold mergeArrays_step at 2. cbv zeta. rewrite Hget, Hgt.
  apply IH. intros x Hx. apply H. now right.
Qed.

Lemma values_entries_of items : JsMap.values (entries_of key items) = items.
Proof.
  unfold JsMap.values, entries_of. rewrite List.map_map. simpl.
  apply List.map_id.
Qed.

Lemma keys_entries_of items :
  JsMap.keys (entries_of key items)
  = map (fun item => item_get item key) items.
Proof. unfold JsMap.keys, entries_of. now rewrite List.map_map. Qed.

Lemma mergeArrays_self items :
  List.NoDup (map (fun item => item_get item key) items) ->
  mergeArrays items items key = items.
Proof.
  intros Hnd. unfold mergeArrays. cbv zeta. rewrite List.fold_left_app.
  rewrite (fold_fresh items []) by (simpl; auto). simpl.
  rewrite fold_unchanged; [apply values_entries_of|].
  intros item Hin. exists item. split; [|apply gt_irrefl].
  apply JsMapFacts.In_get.
  - now rewrite keys_entries_of.
  - unfold entries_of. apply List.in_map_iff. now exists item.
Qed.

End MergeMore.

(** X21.  Merging with an empty array, on either side, gives back an array
    that has one item per key, as it is. *)
Theorem mergeArrays_empty_side (key : KeyName) (items : list Item.t) :
  List.NoDup (map (fun item => item_get item key) items) ->
  mergeArrays items [] key = items /\ mergeArrays [] items key = items.
Proof.
  intros Hnd. unfold mergeArrays. cbv zeta.
  rewrite List.app_nil_r. simpl.
  rewrite (fold_fresh key items []) by (simpl; auto). simpl.
  split; apply values_entries_of.
Qed.

Lemma mergeArrays_empty_side_witness :
  mergeArrays [Sample.local_1; Sample.local_2] [] Key_id
  = [Sample.local_1; Sample.local_2]
  /\ mergeArrays [] [Sample.local_1; Sample.local_2] Key_id
     = [Sample.local_1; Sample.local_2].
Proof.
  apply (mergeArrays_empty_side Key_id [Sample.local_1; Sample.local_2]).
  simpl. repeat constructor; simpl; intuition discriminate.
Defined.

(** X22.  The merged array is in the order of the keys: those of the first
    array, then those of the second, each key where it first occurs.  So the
    local items keep their places and the keys only the cloud has come
    after them. *)
Theorem mergeArrays_order (arr1 arr2 : list Item.t) (key : KeyName) :
  map (fun item => item_get item key) (mergeArrays arr1 arr2 key)
  = first_occurrences (map (fun item => item_get item key) (arr1 ++ arr2)).
Proof.
  pose proof (mergeArrays_merged_map key arr1 arr2) as Hm.
  unfold mergeArrays. cbv zeta.
  rewrite (values_keys key _ _ Hm), fold_keys. reflexivity.
Qed.

(** X23.  Merging a snapshot with itself changes nothing, when each of its
    collections has one item per key. *)
Theorem mergeData_self (s : Snapshot) :
  keys_unique s -> mergeData s s = s.
Proof.
  intros Hu. destruct s as [mt al fi cb me].
  pose proof (Hu ManualTransactions) as Hmt.
  pose proof (Hu ActiveLoans) as Hal.
  pose proof (Hu FutureIncomes) as Hfi.
  simpl in Hmt, Hal, Hfi. unfold mergeData. simpl.
  destruct mt as [mt|], al as [al|], fi as [fi|], cb as [cb|]; simpl;
    repeat match goal with
           | |- context [mergeArrays ?l ?l ?k] =>
               rewrite (mergeArrays_self k l)
                 by (first [now apply Hmt | now apply Hal | now apply Hfi])
           end;
    reflexivity.
Qed.

Lemma mergeData_self_witness :
  mergeData Sample.newer_local_snapshot Sample.newer_local_snapshot
  = Sample.newer_local_snapshot.
Proof.
  apply (mergeData_self Sample.newer_local_snapshot).
  intros [] items H; try discriminate H.
  injection H as <-. simpl.
  repeat constructor; simpl; intuition discriminate.
Defined.

(** X24.  Apart from the balance and the collections both sides have,
    [mergeData] takes the cloud's snapshot: [_meta] is the cloud's, and a
    collection that one side lacks is the cloud's, so a collection that
    only the local snapshot has is not in the merge. *)
Theorem mergeData_cloud_base (local cloud : Snapshot) :
  _meta (mergeData local cloud) = _meta cloud
  /\ forall col,
      collection col local = None \/ collection col cloud = None ->
      collection col (mergeData local cloud) = collection col cloud.
Proof.
  destruct local as [lmt lal lfi lcb lme], cloud as [cmt cal cfi ccb cme].
  unfold mergeData. simpl. split.
  - destruct lmt, cmt, lal, cal, lfi, cfi, lcb; reflexivity.
  - intros col [H|H]; destruct col; simpl in *; subst;
      repeat match goal with
             | |- context [match ?x with _ => _ end] => destruct x; simpl
             end; reflexivity.
Qed.

(** ** [checkConnection] *)

(** X25.  [checkConnection] never throws and never retries: it makes one
    [HEAD] request, with no wait, and answers [true] exactly when the
    network gave a response that is [ok]; a thrown error and a response
    with any other status, 5xx included, give [false]. *)
Theorem checkConnection_total (env : Env) (w : World) :
  exists b,
    checkConnection env w
    = (Return b,
       add_event
         (Fetch "https://api.jsonbin.io/v3/b"
            (mkRequest "HEAD" [("X-Master-Key", apiKey env)] None)) w)
    /\ (b = true <->
        exists response,
          network env (log w) "https://api.jsonbin.io/v3/b"
            (mkRequest "HEAD" [("X-Master-Key", apiKey env)] None)
          = inr response
          /\ ok response = true).
Proof.
  unfold checkConnection, try_catch, bind, ret, fetch.
  destruct (network env (log w) _ _) as [e|response] eqn:Hnet.
  - exists false. split; [reflexivity|]. split; [discriminate|].
    intros (r & Hr & _). discriminate.
  - exists (ok response). split; [reflexivity|]. split.
    + intros Hok. now exists response.
    + intros (r & Hr & Hok). congruence.
Qed.

(** ** The periodic trigger *)

Module AutoSyncFacts.

Import AutoSync.

(** What holds between calls: the host's own intervals are untouched, and
    the manager has its handle and one interval, or neither. *)
Definition settled (s0 s : t) (period : option Z) : Prop :=
  0 < nextHandle s0
  /\ nextHandle s0 <= nextHandle s
  /\ match period with
     | Some ms =>
         exists handle,
           syncInterval s = Some handle
           /\ nextHandle s0 <= handle < nextHandle s
           /\ intervals s = (intervals s0 ++ [(handle, ms)])%list
     | None =>
         active s = None /\ intervals s = intervals s0
     end.

Lemma filter_other_handles (l : list (Z * Z)) (bound handle : Z) :
  List.Forall (fun i => 0 < fst i < bound) l ->
  bound <= handle ->
  List.filter (fun i => negb (fst i =? handle)) l = l.
Proof.
  intros Hl Hb. induction l as [|i l IH]; simpl; [reflexivity|].
  apply List.Forall_cons_iff in Hl as [Hi Hl].
  destruct (Z.eqb_spec (fst i) handle); [lia|]. simpl. f_equal. now apply IH.
Qed.

Lemma clear_own s0 handle ms :
  List.Forall (fun i => 0 < fst i < nextHandle s0) (intervals s0) ->
  nextHandle s0 <= handle ->
  List.filter (fun i => negb (fst i =? handle))
    (intervals s0 ++ [(handle, ms)])
  = intervals s0.
Proof.
  intros Hl Hb. rewrite List.filter_app. simpl. rewrite Z.eqb_refl. simpl.
  rewrite List.app_nil_r. now apply (filter_other_handles _ (nextHandle s0)).
Qed.

Lemma settled_step s0 s period c :
  List.Forall (fun i => 0 < fst i < nextHandle s0) (intervals s0) ->
  settled s0 s period ->
  settled s0 (run_call c s)
    (match c with
     | Start intervalMinutes => Some (intervalMinutes * 60 * 1000)
     | Stop => None
     end).
Proof.
  intros Hl (Hpos & Hle & Hs). destruct period as [ms|].
  - destruct Hs as (handle & Hh & Hrange & Hint).
    assert (Hactive : active s = Some handle).
    { unfold active. rewrite Hh.
      destruct (Z.eqb_spec handle 0); [lia | reflexivity]. }
    destruct c as [m|]; simpl.
    + unfold startAutoSync. rewrite Hactive. simpl.
      rewrite Hint, (clear_own s0 handle ms) by (assumption || lia).
      unfold settled; simpl. split; [lia|]. split; [lia|].
      exists (nextHandle s). split; [reflexivity|]. split; [lia | reflexivity].
    + unfold stopAutoSync. rewrite Hactive. simpl.
      rewrite Hint, (clear_own s0 handle ms) by (assumption || lia).
      unfold settled; simpl. split; [lia|]. split; [lia|]. split; reflexivity.
  - destruct Hs as (Hactive & Hint).
    destruct c as [m|]; simpl.
    + unfold startAutoSync. rewrite Hactive. simpl. rewrite Hint.
      unfold settled; simpl. split; [lia|]. split; [lia|].
      exists (nextHandle s). split; [reflexivity|]. split; [lia | reflexivity].
    + unfold stopAutoSync. rewrite Hactive.
      unfold settled; simpl. split; [lia|]. split; [lia|]. split; assumption.
Qed.

Lemma settled_run calls : forall s0 s period,
  List.Forall (fun i => 0 < fst i < nextHandle s0) (intervals s0) ->
  settled s0 s period ->
  settled s0 (run calls s)
    (fold_left
       (fun p c =>
          match c with
          | Start intervalMinutes => Some (intervalMinutes * 60 * 1000)
          | Stop => None
          end)
       calls period).
Proof.
  induction calls as [|c calls IH]; intros s0 s period Hl Hs; simpl.
  - assumption.
  - apply IH; [assumption|]. now apply (settled_step s0 s period c).
Qed.

End AutoSyncFacts.

(** X26.  The calls of [startAutoSync] and [stopAutoSync] do not stack
    triggers.  After any sequence of them, the host has its own intervals
    as before and, of the manager, the one interval of the last
    [startAutoSync], with [intervalMinutes * 60 * 1000] ms as period, if no
    [stopAutoSync] came after it, and none otherwise. *)
Theorem autoSync_one_trigger (calls : list AutoSync.call)
    (s0 : AutoSync.t) :
  AutoSync.fresh s0 ->
  match AutoSync.period_after calls with
  | Some ms =>
      exists handle,
        AutoSync.syncInterval (AutoSync.run calls s0) = Some handle
        /\ AutoSync.intervals (AutoSync.run calls s0)
           = (AutoSync.intervals s0 ++ [(handle, ms)])%list
        /\ ~ List.In handle (map fst (AutoSync.intervals s0))
  | None =>
      AutoSync.active (AutoSync.run calls s0) = None
      /\ AutoSync.intervals (AutoSync.run calls s0) = AutoSync.intervals s0
  end.
Proof.
  intros (Hnone & Hpos & Hl).
  assert (H0 : AutoSyncFacts.settled s0 s0 None).
  { split; [assumption|]. split; [lia|]. split; [|reflexivity].
    unfold AutoSync.active. now rewrite Hnone. }
  pose proof (AutoSyncFacts.settled_run calls s0 s0 None Hl H0) as Hs.
  unfold AutoSync.period_after.
  destruct Hs as (_ & _ & Hs).
  destruct (fold_left _ calls None) as [ms|]; [|exact Hs].
  destruct Hs as (handle & Hh & Hrange & Hint).
  exists handle. split; [assumption|]. split; [assumption|].
  intros Hin. apply List.in_map_iff in Hin as (i & Hi & Hin).
  rewrite List.Forall_forall in Hl. specialize (Hl i Hin). lia.
Qed.

Lemma autoSync_one_trigger_witness :
  exists handle,
    AutoSync.syncInterval
      (AutoSync.run [AutoSync.Start 5; AutoSync.Start 1]
         (AutoSync.mk None [(1, 250)] 2))
    = Some handle
    /\ AutoSync.intervals
         (AutoSync.run [AutoSync.Start 5; AutoSync.Start 1]
            (AutoSync.mk None [(1, 250)] 2))
       = [(1, 250); (handle, 60000)].
Proof.
  destruct (autoSync_one_trigger [AutoSync.Start 5; AutoSync.Start 1]
              (AutoSync.mk None [(1, 250)] 2))
    as (handle & Hh & Hint & _).
  - split; [reflexivity|]. split; [simpl; lia|].
    repeat constructor; simpl; lia.
  - exists handle. split; [exact Hh | exact Hint].
Defined.

(** The load makes at least one request. *)
Lemma loadFromCloud_log (env : Env) (w : World) :
  exists evs,
    log (snd (loadFromCloud env w)) = (log w ++ evs)%list
    /\ (1 <= requests evs)%nat.
Proof.
  rewrite loadFromCloud_body.
  destruct (fetchWithRetry_frame env (load_url env) (load_request env)
              _ 1%nat w eq_refl) as (evs & Hext & _ & Hreq & _).
  exists evs. split; [|lia]. unfold extends_log in Hext.
  destruct (fetchWithRetry env _ _ 1%nat w) as [[response|e] w2];
    simpl in Hext; subst w2;
    [destruct (ok response); [destruct (json response)|]|]; reflexivity.
Qed.

(** X27.  The call the interval makes, [this.syncData()] with no argument,
    never synchronises: unless a sync is in flight it makes the load and
    then answers [success: false], whatever the remote holds; it sends no
    [PUT], and the queue and the objects there were are as before. *)
Theorem syncData_no_argument_fails (env : Env) (w : World) :
  exists result hash new evs,
    syncData_no_argument env w
    = (Return result,
       mkWorld
         (mkSyncManager (isSyncing (this w)) hash (retryAttempts (this w)))
         (dbManager w) (heap w ++ new) (log w ++ evs))
    /\ success result = false
    /\ action result = None
    /\ List.Forall (fun e => is_put e = false) evs
    /\ (isSyncing (this w) = false -> (1 <= requests evs)%nat).
Proof.
  unfold syncData_no_argument, bind, gets, modify, finally, try_catch, ret,
    throw.
  destruct (isSyncing (this w)) eqn:Hsync.
  - exists (mkSyncResult false (Some "already_syncing") None None None),
      (lastSyncHash (this w)), [], [].
    rewrite !List.app_nil_r. split; [|repeat split; try constructor; discriminate].
    destruct w as [[s h r] db hp lg]. simpl in *. now subst.
  - destruct (loadFromCloud_world env (set_isSyncing true w))
      as (hash & new & evs & Hw2 & Hreq & Hput & _).
    destruct (loadFromCloud_log env (set_isSyncing true w))
      as (evs' & Hlog & Hone).
    rewrite Hw2 in Hlog. simpl in Hlog.
    apply List.app_inv_head in Hlog. subst evs'.
    destruct (loadFromCloud env (set_isSyncing true w)) as [[cloudData|e] w2];
      simpl in Hw2; subst w2; simpl;
      eexists _, hash, new, evs; (split; [reflexivity|]); simpl; auto.
Qed.

(** ** The settings *)

Module SettingsFacts.

Import Settings.

Section Values.

Context {V : Type}.

Lemma store_get_put_same (q : list (Setting V)) (item : Setting V) :
  store_get (store_put q item) (key item) = Some item.
Proof.
  unfold store_get. induction q as [|r q IH]; simpl.
  - now rewrite bool_decide_eq_true_2.
  - destruct (bool_decide (key r = key item)) eqn:Hr; simpl.
    + now rewrite bool_decide_eq_true_2.
    + destruct (key_lt (key item) (key r)); simpl.
      * now rewrite bool_decide_eq_true_2.
      * now rewrite Hr.
Qed.

Lemma store_get_put_other (q : list (Setting V)) (item : Setting V) k :
  k <> key item ->
  store_get (store_put q item) k = store_get q k.
Proof.
  intros Hk. unfold store_get. induction q as [|r q IH]; simpl.
  - now rewrite bool_decide_eq_false_2 by congruence.
  - destruct (bool_decide (key r = key item)) eqn:Hr; simpl.
    + apply bool_decide_eq_true_1 in Hr.
      now rewrite !bool_decide_eq_false_2 by congruence.
    + destruct (key_lt (key item) (key r)); simpl.
      * now rewrite (bool_decide_eq_false_2 (key item = k)) by congruence.
      * now rewrite IH.
Qed.

Lemma setSettings_open (l : list (JS.value * V)) : forall s,
  db_open (setSettings l s) = db_open s.
Proof.
  induction l as [|[k v] l IH]; intros s; simpl; [reflexivity|].
  unfold setSettings in *. simpl. rewrite IH.
  unfold setSetting, db_update. simpl.
  destruct (db_open s) eqn:Hs; simpl; [|assumption].
  now destruct (valid_key k).
Qed.

Lemma setSettings_get (l : list (JS.value * V)) : forall s k found,
  db_open s = true ->
  List.Forall (fun kv => valid_key (fst kv) = true) l ->
  match
    fold_left
      (fun found kv =>
         if bool_decide (fst kv = k) then Some (snd kv) else found)
      l found
  with
  | Some v =>
      (found = Some v -> option_map value (store_get (records s) k) = Some v) ->
      option_map value (store_get (records (setSettings l s)) k) = Some v
  | None =>
      found = None
      /\ store_get (records (setSettings l s)) k = store_get (records s) k
  end.
Proof.
  induction l as [|[k0 v0] l IH]; intros s k found Hopen Hvalid; simpl.
  - destruct found as [v|]; [intros H; now apply H | now split].
  - apply List.Forall_cons_iff in Hvalid as [Hk0 Hvalid]. simpl in Hk0.
    assert (Hstep : setSetting k0 v0 s
                    = (Return k0,
                       mk true (store_put (records s) (mkSetting k0 v0)))).
    { unfold setSetting, db_update. simpl. now rewrite Hopen, Hk0. }
    unfold setSettings in *. simpl. rewrite Hstep. simpl.
    specialize (IH (mk true (store_put (records s) (mkSetting k0 v0))) k
                  (if bool_decide (k0 = k) then Some v0 else found)
                  eq_refl Hvalid).
    destruct (fold_left _ l _) as [v|] eqn:Hfold.
    + intros Hfound. apply IH. simpl.
      destruct (bool_decide (k0 = k)) eqn:Hk.
      * apply bool_decide_eq_true_1 in Hk. subst k.
        intros [= <-].
        pose proof (store_get_put_same (records s) (mkSetting k0 v0)) as E.
        simpl in E. now rewrite E.
      * apply bool_decide_eq_false_1 in Hk. intros Hf.
        rewrite store_get_put_other by (simpl; congruence). now apply Hfound.
    + destruct IH as [Hnone IH]. rewrite IH. simpl.
      destruct (bool_decide (k0 = k)) eqn:Hk; [discriminate|].
      apply bool_decide_eq_false_1 in Hk. split; [assumption|].
      apply store_get_put_other. simpl. congruence.
Qed.

Lemma last_set_found (l : list (JS.value * V)) k : forall found v,
  fold_left
    (fun found kv =>
       if bool_decide (fst kv = k) then Some (snd kv) else found)
    l found
  = Some v ->
  found = Some v \/ exists kv, List.In kv l /\ fst kv = k.
Proof.
  induction l as [|kv l IH]; intros found v Hf; simpl in Hf.
  - now left.
  - destruct (IH _ _ Hf) as [Hfound|(kv' & Hin & Hk)].
    + destruct (bool_decide (fst kv = k)) eqn:Hkv.
      * apply bool_decide_eq_true_1 in Hkv. right. exists kv.
        split; [now left | assumption].
      * now left.
    + right. exists kv'. split; [now right | assumption].
Qed.

End Values.

End SettingsFacts.

(** X28.  A setting is read back as written.  With the database open and a
    valid key, [setSetting(key, value)] answers the key, and after it
    [getSetting(key, d)] answers [value] for every default [d], falsy
    values included, while [getSetting] of every other key answers what it
    did before; [getSetting] leaves the store as it is. *)
Theorem setSetting_then_getSetting {V : Type} (s : Settings.t V)
    (k : JS.value) (v : V) :
  Settings.db_open s = true ->
  Settings.valid_key k = true ->
  exists s',
    Settings.setSetting k v s = (Return k, s')
    /\ (forall d, Settings.getSetting k d s' = (Return v, s'))
    /\ (forall k' d, k' <> k ->
          fst (Settings.getSetting k' d s')
          = fst (Settings.getSetting k' d s)
          /\ snd (Settings.getSetting k' d s') = s').
Proof.
  intros Hopen Hvalid.
  exists (Settings.mk true
            (Settings.store_put (Settings.records s)
               (Settings.mkSetting k v))).
  split; [|split].
  - unfold Settings.setSetting, Settings.db_update. simpl.
    now rewrite Hopen, Hvalid.
  - intros d. unfold Settings.getSetting, Settings.db_get. simpl.
    rewrite Hvalid. simpl.
    pose proof (SettingsFacts.store_get_put_same (Settings.records s)
                  (Settings.mkSetting k v)) as E.
    simpl in E. now rewrite E.
  - intros k' d Hk. unfold Settings.getSetting, Settings.db_get. simpl.
    rewrite Hopen. simpl.
    destruct (Settings.valid_key k'); simpl; [|now split].
    rewrite SettingsFacts.store_get_put_other by (simpl; congruence).
    now split.
Qed.

Lemma setSetting_then_getSetting_witness :
  exists s',
    Settings.setSetting (JS.text "theme") 0
      (Settings.mk true [Settings.mkSetting (JS.text "currency") 1])
    = (Return (JS.text "theme"), s')
    /\ Settings.getSetting (JS.text "theme") 7 s' = (Return 0, s').
Proof.
  destruct (setSetting_then_getSetting
              (Settings.mk true [Settings.mkSetting (JS.text "currency") 1])
              (JS.text "theme") 0 eq_refl eq_refl)
    as (s' & Hset & Hget & _).
  exists s'. split; [exact Hset | exact (Hget 7)].
Defined.

(** X29.  After any sequence of [setSetting] calls with valid keys on an
    open database, [getSetting(key, d)] answers the value of the last call
    for [key], and what it answered before the calls when none was for
    [key]. *)
Theorem getSetting_last_set {V : Type} (s : Settings.t V)
    (l : list (JS.value * V)) (k : JS.value) (d : V) :
  Settings.db_open s = true ->
  List.Forall (fun kv => Settings.valid_key (fst kv) = true) l ->
  fst (Settings.getSetting k d (Settings.setSettings l s))
  = match Settings.last_set l k with
    | Some v => Return v
    | None => fst (Settings.getSetting k d s)
    end.
Proof.
  intros Hopen Hvalid.
  pose proof (SettingsFacts.setSettings_get l s k None Hopen Hvalid) as H.
  pose proof (SettingsFacts.setSettings_open l s) as Hopen'.
  unfold Settings.last_set.
  destruct (fold_left _ l None) as [v|] eqn:Hfold.
  - assert (Hk : Settings.valid_key k = true).
    { destruct (SettingsFacts.last_set_found l k None v Hfold)
        as [Hf|(kv & Hin & Hkv)]; [discriminate|].
      rewrite List.Forall_forall in Hvalid. rewrite <- Hkv.
      now apply Hvalid. }
    unfold Settings.getSetting, Settings.db_get.
    rewrite Hopen', Hopen, Hk. simpl.
    specialize (H ltac:(discriminate)).
    destruct (Settings.store_get _ k); simpl in H; congruence.
  - destruct H as [_ H].
    unfold Settings.getSetting, Settings.db_get.
    rewrite Hopen', Hopen. simpl.
    destruct (Settings.valid_key k); simpl; [|reflexivity].
    now rewrite H.
Qed.

Lemma getSetting_last_set_witness :
  fst (Settings.getSetting (JS.text "theme") 0
         (Settings.setSettings
            [(JS.text "theme", 1); (JS.number 4, 2); (JS.text "theme", 3)]
            (Settings.mk true [])))
  = Return 3.
Proof.
  exact (getSetting_last_set (Settings.mk true [])
           [(JS.text "theme", 1); (JS.number 4, 2); (JS.text "theme", 3)]
           (JS.text "theme") 0 eq_refl
           ltac:(repeat constructor)).
Defined.
